(** * pgdiff: the schema parser and the schema differencer of [script.js]

    A shallow embedding of [parseSchema], [generateSchemaAltersInternal] and
    [generateSchemaAlters], and of the line classes that [buildDecorations]
    of the editor script gives their result; the properties of the
    specification that were checked against it, and further properties of
    the code.

    Modelling conventions.
    - A JavaScript string is a [string]; its characters are taken to be
      ASCII, so that [toUpperCase] and the case-insensitive regular
      expressions only act on the letters a-z.
    - A plain object used as a dictionary ([schema.types], [schema.tables])
      is the list of its own entries in [Object.entries] order; names are
      taken not to be array indices and not to shadow a member of
      [Object.prototype].  A read [obj[name]] is a lookup among the own
      entries, and an assignment adds an entry at the end; for the other
      names the code does otherwise (a read finds the inherited member, an
      object lists its array indices first, and [__proto__] is no entry at
      all), so the properties whose content rests on such a read or on the
      order of the names carry [ownLookups] or [plainKeys] as a
      hypothesis.
    - An exception is a value of [Result]; [throw] is [Throw], a [try/catch]
      is [try_catch].
    - A regular expression literal is a value of [RegExp.regex], run by a
      backtracking matcher with the priorities of ECMAScript; the loops of
      the matcher are bounded by the length of the input, a bound they
      never reach ([star_loop_fuel], [replace_loop_fuel], [count_loop_fuel],
      [split_loop_fuel]).
    - The similarity score is a quotient of two list lengths; it is kept as
      an exact rational.  The IEEE quotient of two integers below 2^26 is
      ordered against 0.3, 0.5, 0.7 and against another such quotient the
      way the exact quotients are, so the comparisons of the source are the
      comparisons made here. *)

From Stdlib Require Import String Ascii List Bool Arith ZArith Lia QArith Permutation.
From Stdlib Require Import DecimalString.
Import ListNotations.
Close Scope Q_scope.
Open Scope string_scope.
Open Scope nat_scope.

(** ** JavaScript primitives *)

Module Js.

Inductive JsError : Type :=
| Error (message : string)
| TypeError (message : string).

Definition message (e : JsError) : string :=
  match e with Error m => m | TypeError m => m end.

Inductive Result (A : Type) : Type :=
| Ok (a : A)
| Throw (e : JsError).
Arguments Ok {A} a.
Arguments Throw {A} e.

Definition bind {A B} (r : Result A) (k : A -> Result B) : Result B :=
  match r with
  | Ok a => k a
  | Throw e => Throw e
  end.

(** The message V8 gives when [undefined.length] is read. *)
Definition undefined_length : JsError :=
  TypeError "Cannot read properties of undefined (reading 'length')".

(** White space and line terminators below code 256: what [trim] removes
    and what [\s] matches. *)
Definition is_space (c : ascii) : bool :=
  match nat_of_ascii c with
  | 9 | 10 | 11 | 12 | 13 | 32 | 160 => true
  | _ => false
  end.

(** Line terminators: what [.] does not match. *)
Definition is_line_terminator (c : ascii) : bool :=
  match nat_of_ascii c with
  | 10 | 13 => true
  | _ => false
  end.

Definition upper_char (c : ascii) : ascii :=
  let n := nat_of_ascii c in
  if (97 <=? n) && (n <=? 122) then ascii_of_nat (n - 32) else c.

Fixpoint toUpperCase (s : string) : string :=
  match s with
  | EmptyString => EmptyString
  | String c s' => String (upper_char c) (toUpperCase s')
  end.

Fixpoint trimStart (s : string) : string :=
  match s with
  | EmptyString => EmptyString
  | String c s' => if is_space c then trimStart s' else s
  end.

Fixpoint string_rev_onto (s acc : string) : string :=
  match s with
  | EmptyString => acc
  | String c s' => string_rev_onto s' (String c acc)
  end.

Definition string_rev (s : string) : string := string_rev_onto s "".

Definition trimEnd (s : string) : string :=
  string_rev (trimStart (string_rev s)).

Definition trim (s : string) : string := trimEnd (trimStart s).

(** [s.startsWith(p)] *)
Definition startsWith (p s : string) : bool := String.prefix p s.

(** [s.includes(p)] *)
Fixpoint includes (p s : string) : bool :=
  String.prefix p s ||
  match s with
  | EmptyString => false
  | String _ s' => includes p s'
  end.

(** [l.join(sep)] *)
Definition join (sep : string) (l : list string) : string :=
  String.concat sep l.

(** Truthiness of a string, and of a string-or-null. *)
Definition truthy (s : string) : bool :=
  negb (String.eqb s "").

Definition truthy_opt (o : option string) : bool :=
  match o with
  | Some s => truthy s
  | None => false
  end.

(** [a !== b] on values that are a string, [null] or [undefined]. *)
Definition strict_neq (a b : option string) : bool :=
  match a, b with
  | Some x, Some y => negb (String.eqb x y)
  | None, None => false
  | _, _ => true
  end.

(** [list.includes(s)] on a list of strings. *)
Definition mem (s : string) (l : list string) : bool :=
  existsb (String.eqb s) l.

End Js.

Import Js.

Notation "x <- e ;; k" := (Js.bind e (fun x => k))
  (at level 61, e at next level, right associativity).

(** ** Regular expressions

    The backtracking matcher of ECMAScript for the constructs [script.js]
    uses: character classes, sequence, ordered alternation, greedy and lazy
    repetition, capture groups, negative lookahead and the two anchors. *)

Module RegExp.

Inductive regex : Type :=
| Empty
| Char (p : ascii -> bool)
| Seq (a b : regex)
| Alt (a b : regex)
| Star (greedy : bool) (r : regex)
| Group (i : nat) (r : regex)
| NotAhead (r : regex)
| Bos
| Eos.

Record mstate : Type := MState
  { pos : nat;
    rest : list ascii;
    caps : list (nat * (nat * nat)) }.

(** The repetition of [step], at most [n] times: an iteration that consumes
    nothing is rejected; a greedy repetition tries one more iteration
    before the continuation [k], a lazy one the continuation first. *)
Fixpoint star_loop (step : mstate -> (mstate -> option mstate) -> option mstate)
  (greedy : bool) (k : mstate -> option mstate) (n : nat) (st : mstate)
  {struct n} : option mstate :=
  match n with
  | O => k st
  | S n' =>
      if greedy then
        match step st (fun st' =>
                 if pos st <? pos st' then star_loop step greedy k n' st'
                 else None) with
        | Some res => Some res
        | None => k st
        end
      else
        match k st with
        | Some res => Some res
        | None => step st (fun st' =>
                 if pos st <? pos st' then star_loop step greedy k n' st'
                 else None)
        end
  end.

(** [m r st k]: match [r] at [st], then continue with [k]; the first
    success in priority order is returned. *)
Fixpoint m (r : regex) (st : mstate) (k : mstate -> option mstate)
  {struct r} : option mstate :=
  match r with
  | Empty => k st
  | Char p =>
      match rest st with
      | c :: tl => if p c then k (MState (S (pos st)) tl (caps st)) else None
      | [] => None
      end
  | Seq a b => m a st (fun st' => m b st' k)
  | Alt a b =>
      match m a st k with
      | Some res => Some res
      | None => m b st k
      end
  | Star greedy r' => star_loop (m r') greedy k (S (length (rest st))) st
  | Group i r' =>
      m r' st (fun st' =>
        k (MState (pos st') (rest st') ((i, (pos st, pos st')) :: caps st')))
  | NotAhead r' =>
      match m r' st Some with
      | Some _ => None
      | None => k st
      end
  | Bos => if pos st =? 0 then k st else None
  | Eos => match rest st with [] => k st | _ :: _ => None end
  end.

(** Derived forms. *)
Definition Plus (greedy : bool) (r : regex) : regex :=
  Seq r (Star greedy r).
Definition Opt (r : regex) : regex := Alt r Empty.
Definition chr (c : ascii) : regex := Char (Ascii.eqb c).
Definition chr_i (c : ascii) : regex :=
  Char (fun x => Ascii.eqb (upper_char x) (upper_char c)).
Definition none_of (l : list ascii) : regex :=
  Char (fun x => negb (existsb (Ascii.eqb x) l)).
Definition any_of (l : list ascii) : regex :=
  Char (fun x => existsb (Ascii.eqb x) l).
(** [.] *)
Definition dot : regex := Char (fun x => negb (is_line_terminator x)).
(** [\s] and [\S] *)
Definition space : regex := Char is_space.
Definition non_space : regex := Char (fun x => negb (is_space x)).

(** A literal, and a literal under the [i] flag. *)
Fixpoint lit (s : string) : regex :=
  match s with
  | EmptyString => Empty
  | String c s' => Seq (chr c) (lit s')
  end.
Fixpoint lit_i (s : string) : regex :=
  match s with
  | EmptyString => Empty
  | String c s' => Seq (chr_i c) (lit_i s')
  end.

(** One attempt at position [q] of [input] (whose suffix from [q] is
    [suffix]). *)
Definition match_at (r : regex) (q : nat) (suffix : list ascii)
  : option mstate :=
  m r (MState q suffix []) Some.

(** Leftmost match at or after [q]: the start index and the final state. *)
Fixpoint search_from (r : regex) (q : nat) (suffix : list ascii)
  : option (nat * mstate) :=
  match match_at r q suffix with
  | Some st => Some (q, st)
  | None =>
      match suffix with
      | [] => None
      | _ :: tl => search_from r (S q) tl
      end
  end.

Definition substring (i j : nat) (input : list ascii) : string :=
  string_of_list_ascii (firstn (j - i) (skipn i input)).

(** The value of capture group [i] of a match: [None] is [undefined]. *)
Definition capture (input : list ascii) (st : mstate) (i : nat)
  : option string :=
  match find (fun c => Nat.eqb (fst c) i) (caps st) with
  | Some (_, (a, b)) => Some (substring a b input)
  | None => None
  end.

(** [r.test(s)] *)
Definition test (r : regex) (s : string) : bool :=
  match search_from r 0 (list_ascii_of_string s) with
  | Some _ => true
  | None => false
  end.

(** [s.match(r)] without the [g] flag: the capture groups of the leftmost
    match. *)
Definition exec (r : regex) (s : string) : option (nat -> option string) :=
  let input := list_ascii_of_string s in
  match search_from r 0 input with
  | Some (_, st) => Some (capture input st)
  | None => None
  end.

(** [s.replace(r, by)] with the [g] flag. *)
Fixpoint replace_loop (r : regex) (by_ : list ascii) (fuel q : nat)
  (suffix : list ascii) : list ascii :=
  match fuel with
  | O => suffix
  | S fuel' =>
      match match_at r q suffix with
      | Some st =>
          if q <? pos st then
            (by_ ++ replace_loop r by_ fuel' (pos st) (rest st))%list
          else
            match suffix with
            | [] => by_
            | c :: tl => (by_ ++ c :: replace_loop r by_ fuel' (S q) tl)%list
            end
      | None =>
          match suffix with
          | [] => []
          | c :: tl => c :: replace_loop r by_ fuel' (S q) tl
          end
      end
  end.

Definition replace_all (r : regex) (by_ : string) (s : string) : string :=
  let input := list_ascii_of_string s in
  string_of_list_ascii
    (replace_loop r (list_ascii_of_string by_) (S (length input)) 0 input).

(** [s.replace(r, by)] without the [g] flag. *)
Definition replace_first (r : regex) (by_ : string) (s : string) : string :=
  let input := list_ascii_of_string s in
  match search_from r 0 input with
  | Some (a, st) =>
      string_of_list_ascii (firstn a input) ++ by_
        ++ string_of_list_ascii (rest st)
  | None => s
  end.

(** [(s.match(r) || []).length] with the [g] flag. *)
Fixpoint count_loop (r : regex) (fuel q : nat) (suffix : list ascii) : nat :=
  match fuel with
  | O => 0
  | S fuel' =>
      match match_at r q suffix with
      | Some st =>
          if q <? pos st then S (count_loop r fuel' (pos st) (rest st))
          else
            match suffix with
            | [] => 1
            | _ :: tl => S (count_loop r fuel' (S q) tl)
            end
      | None =>
          match suffix with
          | [] => 0
          | _ :: tl => count_loop r fuel' (S q) tl
          end
      end
  end.

Definition match_count (r : regex) (s : string) : nat :=
  let input := list_ascii_of_string s in
  count_loop r (S (length input)) 0 input.

(** [s.split(r)] for a pattern without capture groups: [q] is the position
    tried, [piece] the characters of the current piece in reverse; a match
    that ends where the piece starts is skipped. *)
Fixpoint split_loop (r : regex) (fuel q : nat) (suffix piece : list ascii)
  : list string :=
  match fuel with
  | O => [string_of_list_ascii (rev piece ++ suffix)%list]
  | S fuel' =>
      match suffix with
      | [] => [string_of_list_ascii (rev piece)]
      | c :: tl =>
          match match_at r q suffix with
          | Some st =>
              if (pos st =? q) && (length piece =? 0) then
                split_loop r fuel' (S q) tl (c :: piece)
              else
                string_of_list_ascii (rev piece)
                  :: split_loop r fuel' (pos st) (rest st) []
          | None => split_loop r fuel' (S q) tl (c :: piece)
          end
      end
  end.

Definition split (r : regex) (s : string) : list string :=
  let input := list_ascii_of_string s in
  match input with
  | [] => match match_at r 0 [] with Some _ => [] | None => [""] end
  | _ :: _ => split_loop r (2 * length input + 2) 0 input []
  end.

End RegExp.

(** ** Containers of the JavaScript runtime *)

(** A [Set] of strings: its elements in insertion order. *)
Module JsSet.

Definition t : Type := list string.

Definition has (x : string) (s : t) : bool := Js.mem x s.

Definition add (x : string) (s : t) : t :=
  if has x s then s else (s ++ [x])%list.

(** [new Set(l)] *)
Definition of_list (l : list string) : t :=
  fold_left (fun s x => add x s) l [].

End JsSet.

(** A [Map] keyed by strings, and a plain object used as a dictionary: the
    entries in insertion order, one per key. *)
Module JsMap.

Definition t (V : Type) : Type := list (string * V).

Fixpoint get {V} (k : string) (mp : t V) : option V :=
  match mp with
  | [] => None
  | (k', v) :: tl => if String.eqb k' k then Some v else get k tl
  end.

Definition has {V} (k : string) (mp : t V) : bool :=
  match get k mp with Some _ => true | None => false end.

(** [mp.set(k, v)], [obj[k] = v]: an existing key keeps its place. *)
Fixpoint set {V} (k : string) (v : V) (mp : t V) : t V :=
  match mp with
  | [] => [(k, v)]
  | (k', v') :: tl =>
      if String.eqb k' k then (k, v) :: tl else (k', v') :: set k v tl
  end.

(** [new Map(entries)] *)
Definition of_entries {V} (l : list (string * V)) : t V :=
  fold_left (fun mp kv => set (fst kv) (snd kv) mp) l [].

Definition keys {V} (mp : t V) : list string := map fst mp.

End JsMap.

(** ** Data model *)

Record Column : Type := mkColumn
  { name : string;
    type : string;
    notNull : bool;
    defaultValue : option string }.

Inductive TypeDef : Type :=
| Enum (values : list string)
| Composite (definition : string).

Record Schema : Type := mkSchema
  { types : JsMap.t TypeDef;
    tables : JsMap.t (list Column) }.

(** [typeDef.definition]: [undefined] on an enum. *)
Definition definition_of (t : TypeDef) : option string :=
  match t with
  | Enum _ => None
  | Composite d => Some d
  end.

(** A schema as a JavaScript object holds it: one entry per name. *)
Definition wf_schema (s : Schema) : Prop :=
  NoDup (JsMap.keys (types s)) /\ NoDup (JsMap.keys (tables s)).

Definition nl : string := String "010"%char "".

(** [commands.push(c)] *)
Definition push (commands : list string) (c : string) : list string :=
  (commands ++ [c])%list.

(** ** The differencer: [generateSchemaAltersInternal] *)

(** *** Type changes (lines 52-76) *)

Definition enumErrorComment (typeName : string) : string :=
  "-- ERROR: Cannot modify existing enum value in " ++ typeName ++ nl.

Definition addValueCommand (typeName value : string) : string :=
  "ALTER TYPE " ++ typeName ++ " ADD VALUE '" ++ value ++ "';".

(** Lines 62-66: [i] runs over the indices of the old list; [newValues[i]]
    is [undefined] past the end of the new list. *)
Definition enumValueErrors (typeName : string) (oldValues newValues : list string)
  : list string :=
  flat_map
    (fun i =>
       if strict_neq (nth_error oldValues i) (nth_error newValues i)
       then [enumErrorComment typeName]
       else [])
    (seq 0 (length oldValues)).

(** Lines 69-71 *)
Definition enumValueAdditions (typeName : string) (oldValues newValues : list string)
  : list string :=
  map (addValueCommand typeName) (skipn (length oldValues) newValues).

Definition enumChanges (typeName : string) (oldValues newValues : list string)
  : list string :=
  (enumValueErrors typeName oldValues newValues
     ++ enumValueAdditions typeName oldValues newValues)%list.

(** The loop over [Object.entries(newSchema.types)]; [oldType.values.length]
    throws when the old type is composite, and a changed composite ends the
    loop. *)
Fixpoint typeChanges (oldTypes : JsMap.t TypeDef)
  (newTypes : list (string * TypeDef)) (commands : list string)
  : Result (list string) :=
  match newTypes with
  | [] => Ok commands
  | (typeName, newType) :: more =>
      match JsMap.get typeName oldTypes with
      | None => typeChanges oldTypes more commands
      | Some oldType =>
          match newType with
          | Enum newValues =>
              match oldType with
              | Enum oldValues =>
                  typeChanges oldTypes more
                    (commands ++ enumChanges typeName oldValues newValues)%list
              | Composite _ => Throw undefined_length
              end
          | Composite newDefinition =>
              if strict_neq (Some newDefinition) (definition_of oldType) then
                Ok (push commands
                      ("-- ERROR: Composite type " ++ typeName
                         ++ " definition changed"))
              else typeChanges oldTypes more commands
          end
      end
  end.

(** *** Column similarity (lines 79-95) *)

Definition Qlt_bool (a b : Q) : bool := negb (Qle_bool b a).

Definition columnSimilarity (oldCols newCols : list Column) : Q :=
  if (length oldCols =? 0) && (length newCols =? 0) then 1%Q
  else if (length oldCols =? 0) || (length newCols =? 0) then 0%Q
  else
    let oldNames := JsSet.of_list (map name oldCols) in
    let newNames := JsSet.of_list (map name newCols) in
    let intersection :=
      length (filter (fun n => JsSet.has n newNames) oldNames) in
    let union := length (JsSet.of_list (oldNames ++ newNames)%list) in
    let similarity := (Z.of_nat intersection # Pos.of_nat union)%Q in
    if (intersection <? 3) && Qlt_bool similarity (7 # 10) then 0%Q
    else similarity.

(** The names on both sides, as the source collects them. *)
Definition intersectionOf (oldCols newCols : list Column) : list string :=
  filter (fun n => JsSet.has n (JsSet.of_list (map name newCols)))
         (JsSet.of_list (map name oldCols)).

Definition unionOf (oldCols newCols : list Column) : list string :=
  JsSet.of_list (JsSet.of_list (map name oldCols)
                   ++ JsSet.of_list (map name newCols))%list.

(** The quotient [i / u] of two counts. *)
Definition ratio (i u : nat) : Q := (Z.of_nat i # Pos.of_nat u)%Q.

(** *** Best match (lines 109-121 and 260-274)

    The two search loops differ in their threshold only. *)
Definition bestMatchStep (threshold : Q) (newTableMatched : JsSet.t)
  (oldColumns : list Column) (best : option string * Q)
  (entry : string * list Column) : option string * Q :=
  let (newTableName, newColumns) := entry in
  if JsSet.has newTableName newTableMatched then best
  else
    let score := columnSimilarity oldColumns newColumns in
    if Qlt_bool (snd best) score && Qle_bool threshold score
    then (Some newTableName, score)
    else best.

Definition findBestMatch (threshold : Q) (newTableMatched : JsSet.t)
  (oldColumns : list Column) (newTables : JsMap.t (list Column))
  : option string * Q :=
  fold_left (bestMatchStep threshold newTableMatched oldColumns)
            newTables (None, 0%Q).

Definition renameThreshold : Q := 1 # 2.
Definition replacementThreshold : Q := 3 # 10.

(** *** Rename detection (lines 98-130) *)

Record Matching : Type := mkMatching
  { cmds : list string;
    oldTableMatched : JsSet.t;
    newTableMatched : JsSet.t;
    renameMap : JsMap.t string }.

Definition renameTableCommand (oldTableName bestMatch : string) : string :=
  "ALTER TABLE " ++ oldTableName ++ " RENAME TO " ++ bestMatch ++ ";".

Definition detectRename (newTables : JsMap.t (list Column)) (st : Matching)
  (entry : string * list Column) : Matching :=
  let (oldTableName, oldColumns) := entry in
  if JsMap.has oldTableName newTables then
    mkMatching (cmds st)
               (JsSet.add oldTableName (oldTableMatched st))
               (JsSet.add oldTableName (newTableMatched st))
               (renameMap st)
  else
    match fst (findBestMatch renameThreshold (newTableMatched st)
                             oldColumns newTables) with
    | Some bestMatch =>
        if truthy bestMatch then
          mkMatching
            (push (cmds st) (renameTableCommand oldTableName bestMatch))
            (JsSet.add oldTableName (oldTableMatched st))
            (JsSet.add bestMatch (newTableMatched st))
            (JsMap.set oldTableName bestMatch (renameMap st))
        else st
    | None => st
    end.

Definition detectRenames (oldSchema newSchema : Schema) (commands : list string)
  : Matching :=
  fold_left (detectRename (tables newSchema)) (tables oldSchema)
            (mkMatching commands [] [] []).

(** *** Column changes of the matched tables (lines 133-238) *)

(** Lines 149 and 311: [new Map(cols.map((c) => [c.name, c]))]. *)
Definition columnMapOf (cols : list Column) : JsMap.t Column :=
  JsMap.of_entries (map (fun c => (name c, c)) cols).

(** Lines 160-166 and 297-303: name, type, default and NOT NULL. *)
Definition columnDefinition (col : Column) : string :=
  let def := name col ++ " " ++ type col in
  let def :=
    match defaultValue col with
    | Some d => if truthy d then def ++ " DEFAULT " ++ d else def
    | None => def
    end in
  if notNull col then def ++ " NOT NULL" else def.

Definition notNullWithoutDefault (tableName : string) (newCol : Column)
  : JsError :=
  Error ("New column " ++ tableName ++ "." ++ name newCol
           ++ " is NOT NULL without default").

(** Lines 152-169 *)
Fixpoint addNewColumns (tableName : string) (columnMap : JsMap.t Column)
  (newColumns : list Column) (commands : list string)
  : Result (list string) :=
  match newColumns with
  | [] => Ok commands
  | newCol :: more =>
      match JsMap.get (name newCol) columnMap with
      | Some _ => addNewColumns tableName columnMap more commands
      | None =>
          if notNull newCol && negb (truthy_opt (defaultValue newCol)) then
            Throw (notNullWithoutDefault tableName newCol)
          else
            addNewColumns tableName columnMap more
              (push commands
                 ("ALTER TABLE " ++ tableName ++ " ADD COLUMN "
                    ++ columnDefinition newCol ++ ";"))
      end
  end.

(** [/\s+PRIMARY KEY$/] *)
Definition primaryKeySuffix : RegExp.regex :=
  RegExp.Seq (RegExp.Plus true RegExp.space)
             (RegExp.Seq (RegExp.lit "PRIMARY KEY") RegExp.Eos).

Definition numericTypes : list string :=
  ["SMALLINT"; "INTEGER"; "BIGINT"; "DECIMAL"; "NUMERIC"; "REAL";
   "DOUBLE PRECISION"; "SERIAL"; "BIGSERIAL"].

(** Lines 185-201: the text after [USING], if any. *)
Definition usingClause (oldCol newCol : Column) : string :=
  let type_ := RegExp.replace_first primaryKeySuffix "" (type newCol) in
  let oldTypeUpper := toUpperCase (type oldCol) in
  let newTypeUpper := toUpperCase type_ in
  if String.eqb newTypeUpper "BOOLEAN" then
    if startsWith "VARCHAR" oldTypeUpper || String.eqb oldTypeUpper "TEXT" then
      " USING CASE WHEN " ++ name newCol ++ " = 'true' THEN true ELSE false END"
    else if Js.mem oldTypeUpper numericTypes then
      " USING " ++ name newCol ++ " != 0"
    else
      " USING " ++ name newCol ++ "::boolean"
  else "".

(** Lines 185-203 *)
Definition alterTypeCommand (tableName : string) (oldCol newCol : Column)
  : string :=
  let type_ := RegExp.replace_first primaryKeySuffix "" (type newCol) in
  "ALTER TABLE " ++ tableName ++ " ALTER COLUMN " ++ name newCol
    ++ " TYPE " ++ type_ ++ usingClause oldCol newCol ++ ";".

Definition dropDefaultCommand (tableName : string) (newCol : Column) : string :=
  "ALTER TABLE " ++ tableName ++ " ALTER COLUMN " ++ name newCol
    ++ " DROP DEFAULT;".

Definition setDefaultCommand (tableName : string) (newCol : Column) : string :=
  "ALTER TABLE " ++ tableName ++ " ALTER COLUMN " ++ name newCol
    ++ " SET DEFAULT "
    ++ match defaultValue newCol with Some d => d | None => "null" end
    ++ ";".

(** Lines 180-208: the commands around a type change. *)
Definition typeChangeCommands (tableName : string) (oldCol newCol : Column)
  : list string :=
  ((if truthy_opt (defaultValue oldCol)
    then [dropDefaultCommand tableName newCol] else [])
   ++ [alterTypeCommand tableName oldCol newCol]
   ++ (if truthy_opt (defaultValue newCol)
       then [setDefaultCommand tableName newCol] else []))%list.

Definition dropPrimaryKeyCommand (tableName : string) : string :=
  "ALTER TABLE " ++ tableName ++ " DROP CONSTRAINT IF EXISTS "
    ++ tableName ++ "_pkey;".

Definition addPrimaryKeyCommand (tableName : string) (newCol : Column)
  : string :=
  "ALTER TABLE " ++ tableName ++ " ADD PRIMARY KEY (" ++ name newCol ++ ");".

(** Lines 210-216 *)
Definition primaryKeyCommands (tableName : string) (oldCol newCol : Column)
  : list string :=
  ((if includes "PRIMARY KEY" (type oldCol)
    then [dropPrimaryKeyCommand tableName] else [])
   ++ (if includes "PRIMARY KEY" (type newCol)
       then [addPrimaryKeyCommand tableName newCol] else []))%list.

Definition notNullCommand (tableName : string) (newCol : Column) : string :=
  "ALTER TABLE " ++ tableName ++ " ALTER COLUMN " ++ name newCol ++ " "
    ++ (if notNull newCol then "SET NOT NULL;" else "DROP NOT NULL;").

(** Lines 227-229 *)
Definition notNullCommands (tableName : string) (oldCol newCol : Column)
  : list string :=
  if Bool.eqb (notNull newCol) (notNull oldCol) then []
  else [notNullCommand tableName newCol].

(** Lines 179-229: what one column present on both sides emits. *)
Definition modifyColumn (tableName : string) (oldCol newCol : Column)
  : list string :=
  ((if negb (String.eqb (type newCol) (type oldCol)) then
      typeChangeCommands tableName oldCol newCol
        ++ primaryKeyCommands tableName oldCol newCol
    else if strict_neq (defaultValue newCol) (defaultValue oldCol) then
      if truthy_opt (defaultValue newCol)
      then [setDefaultCommand tableName newCol]
      else [dropDefaultCommand tableName newCol]
    else [])
   ++ notNullCommands tableName oldCol newCol)%list.

(** Lines 172-230 *)
Definition modifyExistingColumns (tableName : string)
  (columnMap : JsMap.t Column) (newColumns : list Column)
  (commands : list string) : list string :=
  fold_left
    (fun commands newCol =>
       match JsMap.get (name newCol) columnMap with
       | None => commands
       | Some oldCol => (commands ++ modifyColumn tableName oldCol newCol)%list
       end)
    newColumns commands.

(** Lines 233-237 *)
Definition removeDeletedColumns (tableName : string)
  (oldColumns newColumns : list Column) (commands : list string)
  : list string :=
  fold_left
    (fun commands oldCol =>
       match find (fun c => String.eqb (name c) (name oldCol)) newColumns with
       | Some _ => commands
       | None =>
           push commands
             ("ALTER TABLE " ++ tableName ++ " DROP COLUMN " ++ name oldCol ++ ";")
       end)
    oldColumns commands.

(** Lines 140-146 and 287-293: the first key of a map whose value is
    [tableName]. *)
Definition keyOfValue (mp : JsMap.t string) (tableName : string)
  : option string :=
  match find (fun e => String.eqb (snd e) tableName) mp with
  | Some (oldName, _) => Some oldName
  | None => None
  end.

(** Lines 140-146: the old name of a matched table. *)
Definition oldTableNameFor (st : Matching) (tableName : string) : string :=
  match keyOfValue (renameMap st) tableName with
  | Some oldName => oldName
  | None => tableName
  end.

(** Line 148: [oldSchema.tables[oldTableName] || []]. *)
Definition oldColumnsFor (oldSchema : Schema) (st : Matching)
  (tableName : string) : list Column :=
  match JsMap.get (oldTableNameFor st tableName) (tables oldSchema) with
  | Some cols => cols
  | None => []
  end.

(** Lines 133-238, one table of the new schema. *)
Definition tableChanges (oldSchema : Schema) (st : Matching)
  (tableName : string) (newColumns : list Column) (commands : list string)
  : Result (list string) :=
  if negb (JsSet.has tableName (newTableMatched st)) then Ok commands
  else
    let oldColumns := oldColumnsFor oldSchema st tableName in
    let columnMap := columnMapOf oldColumns in
    commands <- addNewColumns tableName columnMap newColumns commands ;;
    let commands := modifyExistingColumns tableName columnMap newColumns commands in
    Ok (removeDeletedColumns tableName oldColumns newColumns commands).

Fixpoint tablesChanges (oldSchema : Schema) (st : Matching)
  (newTables : list (string * list Column)) (commands : list string)
  : Result (list string) :=
  match newTables with
  | [] => Ok commands
  | (tableName, newColumns) :: more =>
      commands <- tableChanges oldSchema st tableName newColumns commands ;;
      tablesChanges oldSchema st more commands
  end.

(** *** New types (lines 241-249) *)

Definition createNewTypes (oldSchema newSchema : Schema)
  (commands : list string) : list string :=
  fold_left
    (fun commands typeName =>
       if JsMap.has typeName (types oldSchema) then commands
       else
         match JsMap.get typeName (types newSchema) with
         | Some (Enum vs) =>
             let values := join ", " (map (fun v => "'" ++ v ++ "'") vs) in
             push commands
               ("CREATE TYPE " ++ typeName ++ " AS ENUM (" ++ values ++ ");")
         | _ => commands
         end)
    (JsMap.keys (types newSchema)) commands.

(** *** Replacement matching (lines 252-279) *)

Definition detectReplacement (newSchema : Schema) (st : Matching)
  (tableReplacements : JsMap.t string) (entry : string * list Column)
  : JsMap.t string :=
  let (oldTableName, oldColumns) := entry in
  if JsSet.has oldTableName (oldTableMatched st) then tableReplacements
  else
    match fst (findBestMatch replacementThreshold (newTableMatched st)
                             oldColumns (tables newSchema)) with
    | Some bestMatch =>
        if truthy bestMatch
        then JsMap.set oldTableName bestMatch tableReplacements
        else tableReplacements
    | None => tableReplacements
    end.

Definition detectReplacements (oldSchema newSchema : Schema) (st : Matching)
  : JsMap.t string :=
  fold_left (detectReplacement newSchema st) (tables oldSchema) [].

(** *** New tables (lines 282-325) *)

Definition createTableCommand (newTableName : string)
  (newColumns : list Column) : string :=
  let columnDefs := map (fun col => "  " ++ columnDefinition col) newColumns in
  "CREATE TABLE " ++ newTableName ++ " (" ++ nl
    ++ join ("," ++ nl) columnDefs ++ nl ++ ");".

(** Lines 309-323 *)
Definition migrateData (oldSchema : Schema) (oldTableName newTableName : string)
  (newColumns : list Column) (commands : list string) : list string :=
  let oldColumns :=
    match JsMap.get oldTableName (tables oldSchema) with
    | Some cols => cols
    | None => []
    end in
  let oldColMap := columnMapOf oldColumns in
  let matchingColumns :=
    map name (filter (fun newCol => JsMap.has (name newCol) oldColMap) newColumns) in
  if 0 <? length matchingColumns then
    let columnList := join ", " matchingColumns in
    push
      (push commands
         ("-- Migrate data from '" ++ oldTableName ++ "' to '"
            ++ newTableName ++ "'"))
      ("INSERT INTO " ++ newTableName ++ " (" ++ columnList ++ ") SELECT "
         ++ columnList ++ " FROM " ++ oldTableName ++ ";")
  else commands.

Definition createNewTable (oldSchema : Schema) (st : Matching)
  (tableReplacements : JsMap.t string) (commands : list string)
  (entry : string * list Column) : list string :=
  let (newTableName, newColumns) := entry in
  if JsSet.has newTableName (newTableMatched st) then commands
  else
    let commands := push commands (createTableCommand newTableName newColumns) in
    match keyOfValue tableReplacements newTableName with
    | Some oldTableName =>
        if truthy oldTableName
        then migrateData oldSchema oldTableName newTableName newColumns commands
        else commands
    | None => commands
    end.

Definition createNewTables (oldSchema newSchema : Schema) (st : Matching)
  (tableReplacements : JsMap.t string) (commands : list string)
  : list string :=
  fold_left (createNewTable oldSchema st tableReplacements)
            (tables newSchema) commands.

(** *** Dropped tables (lines 328-333) *)

Definition cautionComment (oldTableName : string) : string :=
  "-- CAUTION: This will permanently delete table '" ++ oldTableName
    ++ "' and all its data!".

Definition dropTableCommand (oldTableName : string) : string :=
  "DROP TABLE " ++ oldTableName ++ ";".

Definition dropTable (st : Matching) (commands : list string)
  (oldTableName : string) : list string :=
  if JsSet.has oldTableName (oldTableMatched st) then commands
  else push (push commands (cautionComment oldTableName))
            (dropTableCommand oldTableName).

Definition dropTables (oldSchema : Schema) (st : Matching)
  (commands : list string) : list string :=
  fold_left (dropTable st) (JsMap.keys (tables oldSchema)) commands.

(** *** The whole diff (lines 43-336) *)

Definition generateSchemaAltersInternal (oldSchema newSchema : Schema)
  : Result (list string) :=
  commands <- typeChanges (types oldSchema) (types newSchema) [] ;;
  let st := detectRenames oldSchema newSchema commands in
  commands <- tablesChanges oldSchema st (tables newSchema) (cmds st) ;;
  let commands := createNewTypes oldSchema newSchema commands in
  let tableReplacements := detectReplacements oldSchema newSchema st in
  let commands :=
    createNewTables oldSchema newSchema st tableReplacements commands in
  Ok (dropTables oldSchema st commands).

(** ** The parser: [parseSchema] (lines 338-468) *)

Module Parser.
Import RegExp.

Definition dquote : ascii := "034"%char.
Definition newline : ascii := "010"%char.

(** [`${n}`] for a count. *)
Definition number_to_string (n : nat) : string :=
  NilEmpty.string_of_uint (Nat.to_uint n).

(** [/--.*?\n/g] *)
Definition lineComment : regex :=
  Seq (lit "--") (Seq (Star false dot) (chr newline)).

(** The class of the double quote and the backtick, with the [g] flag. *)
Definition quoteChars : regex := any_of [dquote; "`"%char].

(** [/\(/g] and [/\)/g] *)
Definition openParen : regex := chr "(".
Definition closeParen : regex := chr ")".

(** [/;(?![^()]*\))/] *)
Definition statementSeparator : regex :=
  Seq (chr ";")
      (NotAhead (Seq (Star true (none_of ["("%char; ")"%char])) (chr ")"))).

(** [/\s+/g] and [/\s+/] *)
Definition spaces : regex := Plus true space.

(** [/^CREATE TYPE/i] and [/^CREATE TABLE/i] *)
Definition startsCreateType : regex := Seq Bos (lit_i "CREATE TYPE").
Definition startsCreateTable : regex := Seq Bos (lit_i "CREATE TABLE").

(** [/CREATE TYPE (\S+) AS (ENUM\s*\(([^)]+)\)|([^;]+))/i] *)
Definition createType : regex :=
  Seq (lit_i "CREATE TYPE ")
 (Seq (Group 1 (Plus true non_space))
 (Seq (lit_i " AS ")
      (Group 2
         (Alt (Seq (lit_i "ENUM")
              (Seq (Star true space)
              (Seq (chr "(")
              (Seq (Group 3 (Plus true (none_of [")"%char])))
                   (chr ")")))))
              (Group 4 (Plus true (none_of [";"%char]))))))).

(** [/, ?/] and [/'/g] *)
Definition valueSeparator : regex := Seq (chr ",") (Opt (chr " ")).
Definition singleQuote : regex := chr "'".

(** The pattern "CREATE TABLE(?:\s+IF\s+NOT\s+EXISTS)?\s+(\S+)\s+\((.{0,})\)"
    with the [i] flag (the source writes the repetition of group 2 with a
    star). *)
Definition createTable : regex :=
  Seq (lit_i "CREATE TABLE")
 (Seq (Opt (Seq spaces (Seq (lit_i "IF") (Seq spaces (Seq (lit_i "NOT")
           (Seq spaces (lit_i "EXISTS")))))))
 (Seq spaces
 (Seq (Group 1 (Plus true non_space))
 (Seq spaces
 (Seq (chr "(")
 (Seq (Group 2 (Star true dot))
      (chr ")"))))))).

(** [/,(?![^(]*\))/] *)
Definition columnSeparator : regex :=
  Seq (chr ",")
      (NotAhead (Seq (Star true (none_of ["("%char])) (chr ")"))).

(** [/^(PRIMARY|FOREIGN|CONSTRAINT|UNIQUE)/i] *)
Definition tableConstraint : regex :=
  Seq Bos
      (Group 1 (Alt (lit_i "PRIMARY") (Alt (lit_i "FOREIGN")
               (Alt (lit_i "CONSTRAINT") (lit_i "UNIQUE"))))).

(** [s.substring(0, 50)] *)
Definition substring50 (s : string) : string := String.substring 0 50 s.

Definition constraintKeywords : list string :=
  ["DEFAULT"; "NOT"; "NULL"; "CHECK"].

(** Lines 429-432: the tokens of the type, and the tokens after them. *)
Fixpoint typeTokens (tokens : list string) : list string * list string :=
  match tokens with
  | [] => ([], [])
  | tok :: more =>
      if Js.mem (toUpperCase tok) constraintKeywords then ([], tokens)
      else let (typeParts, after) := typeTokens more in
           (tok :: typeParts, after)
  end.

Definition defaultWithoutValue (column tableName : string) : JsError :=
  Error ("Column '" ++ column ++ "' in table '" ++ tableName
           ++ "' has DEFAULT keyword but no value specified").

(** Lines 440-453 *)
Fixpoint parseConstraints (tableName : string) (tokens : list string)
  (column : Column) : Result Column :=
  match tokens with
  | [] => Ok column
  | tok :: more =>
      let token := toUpperCase tok in
      let nextIsNull :=
        match more with
        | next :: _ => String.eqb (toUpperCase next) "NULL"
        | [] => false
        end in
      if String.eqb token "NOT" && nextIsNull then
        match more with
        | _ :: more' =>
            parseConstraints tableName more'
              (mkColumn (name column) (type column) true (defaultValue column))
        | [] => Ok column
        end
      else if String.eqb token "DEFAULT" then
        let default := join " " more in
        if negb (truthy default) || (String.length (trim default) =? 0) then
          Throw (defaultWithoutValue (name column) tableName)
        else
          Ok (mkColumn (name column) (type column) (notNull column)
                       (Some default))
      else parseConstraints tableName more column
  end.

(** Lines 418-456, one column definition. *)
Definition parseColumn (tableName def : string) : Result Column :=
  let tokens := split spaces def in
  if length tokens <? 2 then
    Throw (Error ("Invalid column definition in table '" ++ tableName
                    ++ "': " ++ def))
  else
    match tokens with
    | [] => Throw undefined_length
    | columnName :: more =>
        let (typeParts, after) := typeTokens more in
        let columnType := join " " typeParts in
        if negb (truthy columnType) then
          Throw (Error ("Column '" ++ columnName ++ "' in table '"
                          ++ tableName ++ "' has no type specified"))
        else
          parseConstraints tableName after
            (mkColumn columnName columnType false None)
    end.

Fixpoint parseColumns (tableName : string) (columnDefs : list string)
  (columns : list Column) : Result (list Column) :=
  match columnDefs with
  | [] => Ok columns
  | def :: more =>
      column <- parseColumn tableName def ;;
      parseColumns tableName more (columns ++ [column])%list
  end.

(** The error of line 379. *)
Definition enumWithoutValues (typeName : string) : JsError :=
  Error ("ENUM type '" ++ typeName ++ "' has no values").

(** Lines 368-388 *)
Definition parseCreateType (schema : Schema) (s : string) : Result Schema :=
  match exec createType s with
  | None =>
      Throw (Error ("Invalid CREATE TYPE syntax: " ++ substring50 s ++ "..."))
  | Some typeMatch =>
      let typeName :=
        match typeMatch 1 with Some n => n | None => "undefined" end in
      if truthy_opt (typeMatch 3) then
        let values :=
          map (fun v => trim (replace_all singleQuote "" v))
              (split valueSeparator
                 match typeMatch 3 with Some g => g | None => "" end) in
        if length values =? 0 then
          Throw (enumWithoutValues typeName)
        else
          Ok (mkSchema (JsMap.set typeName (Enum values) (types schema))
                       (tables schema))
      else
        match typeMatch 4 with
        | Some g =>
            Ok (mkSchema
                  (JsMap.set typeName (Composite (trim g)) (types schema))
                  (tables schema))
        | None =>
            Throw (TypeError
              "Cannot read properties of undefined (reading 'trim')")
        end
  end.

(** Lines 391-464 *)
Definition parseCreateTable (schema : Schema) (s : string) : Result Schema :=
  match exec createTable s with
  | None =>
      if test startsCreateTable s then
        Throw (Error ("Incomplete or invalid CREATE TABLE statement: "
                        ++ substring50 s ++ "..."))
      else Ok schema
  | Some tableMatch =>
      let tableName :=
        match tableMatch 1 with Some n => n | None => "undefined" end in
      let columnPart :=
        match tableMatch 2 with Some g => g | None => "" end in
      if negb (truthy columnPart) || (String.length (trim columnPart) =? 0) then
        Throw (Error ("Table '" ++ tableName ++ "' has no columns defined"))
      else
        let columnDefs :=
          filter (fun x => negb (test tableConstraint x))
                 (map trim (split columnSeparator columnPart)) in
        if length columnDefs =? 0 then
          Throw (Error ("Table '" ++ tableName
                          ++ "' has no valid column definitions"))
        else
          columns <- parseColumns tableName columnDefs [] ;;
          Ok (mkSchema (types schema)
                       (JsMap.set tableName columns (tables schema)))
  end.

(** Lines 361-465, one statement. *)
Definition parseStatement (schema : Schema) (stmt : string) : Result Schema :=
  if negb (truthy stmt) then Ok schema
  else
    let s := trim (replace_all spaces " " stmt) in
    if test startsCreateType s then parseCreateType schema s
    else parseCreateTable schema s.

Fixpoint parseStatements (schema : Schema) (rawStatements : list string)
  : Result Schema :=
  match rawStatements with
  | [] => Ok schema
  | stmt :: more =>
      schema <- parseStatement schema stmt ;;
      parseStatements schema more
  end.

(** Line 342 *)
Definition clean (statement : string) : string :=
  trim (replace_all quoteChars ""
          (replace_all lineComment (String newline "") statement)).

Definition unbalanced (openParens closeParens : nat) : JsError :=
  Error ("Unbalanced parentheses: " ++ number_to_string openParens
           ++ " opening, " ++ number_to_string closeParens ++ " closing").

End Parser.

Definition parseSchema (statement : string) : Result Schema :=
  let schema := mkSchema [] [] in
  let cleaned := Parser.clean statement in
  if negb (truthy cleaned) then Ok schema
  else
    let openParens := RegExp.match_count Parser.openParen cleaned in
    let closeParens := RegExp.match_count Parser.closeParen cleaned in
    if negb (openParens =? closeParens) then
      Throw (Parser.unbalanced openParens closeParens)
    else
      let rawStatements :=
        filter truthy
               (map trim (RegExp.split Parser.statementSeparator cleaned)) in
      Parser.parseStatements schema rawStatements.

(** ** The boundary: [generateSchemaAlters] (lines 13-41) *)

Definition isEmptySchema (schema : Schema) : bool :=
  (length (JsMap.keys (tables schema)) =? 0)
  && (length (JsMap.keys (types schema)) =? 0).

Definition invalidOldSchema : string :=
  "-- ERROR: Old schema appears to be invalid or incomplete. No valid CREATE TABLE or CREATE TYPE statements found.".

Definition invalidNewSchema : string :=
  "-- ERROR: New schema appears to be invalid or incomplete. No valid CREATE TABLE or CREATE TYPE statements found.".

(** The body of the [try] block. *)
Definition generateSchemaAlters_try (oldStatement newStatement : string)
  : Result (list string) :=
  oldSchema <- parseSchema oldStatement ;;
  newSchema <- parseSchema newStatement ;;
  if isEmptySchema oldSchema && (0 <? String.length (trim oldStatement)) then
    Ok (push [] invalidOldSchema)
  else if isEmptySchema newSchema && (0 <? String.length (trim newStatement)) then
    Ok (push [] invalidNewSchema)
  else generateSchemaAltersInternal oldSchema newSchema.

(** [try { body } catch (error) { handler }] *)
Definition try_catch {A : Type} (body : Result A)
  (handler : JsError -> Result A) : Result A :=
  match body with
  | Ok a => Ok a
  | Throw error => handler error
  end.

Definition generateSchemaAlters (oldStatement newStatement : string)
  : Result (list string) :=
  try_catch (generateSchemaAlters_try oldStatement newStatement)
            (fun error => Ok (push [] ("-- ERROR: " ++ message error))).

(** ** Definitions used to state the properties *)


(** The indices of the old value list where the new list differs. *)
Definition enumMismatches (oldValues newValues : list string) : list nat :=
  filter (fun i => strict_neq (nth_error oldValues i) (nth_error newValues i))
         (seq 0 (length oldValues)).



(** Columns of one table that share a name are one and the same column. *)
Definition consistentColumns (cols : list Column) : Prop :=
  forall c1 c2, In c1 cols -> In c2 cols -> name c1 = name c2 -> c1 = c2.

(** The matching a schema gets against itself: every table by identity. *)
Definition selfMatching (S : Schema) (c : list string) : Matching :=
  mkMatching c (JsSet.of_list (JsMap.keys (tables S)))
             (JsSet.of_list (JsMap.keys (tables S))) [].

(** [c'] is [c] with more commands pushed. *)
Definition extends (c c' : list string) : Prop :=
  exists r, c' = (c ++ r)%list.

(** The commands of [block] stand together, in their order, in [result]. *)
Definition containsBlock (block result : list string) : Prop :=
  exists pre post, result = (pre ++ block ++ post)%list.

(** Two matchings with the same marks and the same rename map. *)
Definition sameMatching (st st' : Matching) : Prop :=
  oldTableMatched st = oldTableMatched st'
  /\ newTableMatched st = newTableMatched st'
  /\ renameMap st = renameMap st'.

(** What one column of a matched table pushes in the loop of lines
    172-230. *)
Definition modifyExistingEmits (tableName : string)
  (columnMap : JsMap.t Column) (newCol : Column) : list string :=
  match JsMap.get (name newCol) columnMap with
  | None => []
  | Some oldCol => modifyColumn tableName oldCol newCol
  end.

(** A new column without old counterpart that is NOT NULL and has no
    default: the column line 157 throws for. *)
Definition offendingColumn (columnMap : JsMap.t Column) (newCol : Column)
  : bool :=
  match JsMap.get (name newCol) columnMap with
  | Some _ => false
  | None => notNull newCol && negb (truthy_opt (defaultValue newCol))
  end.

(** The first such column, over the matched tables in the order of the new
    schema. *)
Fixpoint firstOffending (oldSchema : Schema) (st : Matching)
  (newTables : list (string * list Column)) : option (string * Column) :=
  match newTables with
  | [] => None
  | (tableName, newColumns) :: more =>
      if JsSet.has tableName (newTableMatched st) then
        match find (offendingColumn
                      (columnMapOf (oldColumnsFor oldSchema st tableName)))
                   newColumns with
        | Some newCol => Some (tableName, newCol)
        | None => firstOffending oldSchema st more
        end
      else firstOffending oldSchema st more
  end.

(** No enum of the new schema stands for a composite type of the old one. *)
Definition noEnumOverComposite (oldSchema newSchema : Schema) : Prop :=
  forall typeName newValues d,
    In (typeName, Enum newValues) (types newSchema) ->
    JsMap.get typeName (types oldSchema) <> Some (Composite d).

(** The marks of rename detection after the old tables [seen]: an old
    table is marked when it kept its name or was renamed, and only tables
    seen are in the rename map. *)
Definition marksOf (newTables : JsMap.t (list Column)) (seen : list string)
  (st : Matching) : Prop :=
  (forall n, In n (oldTableMatched st)
             <-> In n seen
                 /\ (JsMap.has n newTables = true
                     \/ JsMap.has n (renameMap st) = true))
  /\ (forall n, JsMap.has n (renameMap st) = true -> In n seen).

(** Every enum of the schema has a value. *)
Definition enumsNonEmpty (schema : Schema) : Prop :=
  forall typeName vs, In (typeName, Enum vs) (types schema) -> vs <> [].

(** Text made of white space and of line comments, where every comment ends
    with a line feed and holds no carriage return. *)
Inductive commentOnly : list ascii -> Prop :=
| commentOnly_nil : commentOnly []
| commentOnly_space (c : ascii) (tl : list ascii) :
    is_space c = true -> commentOnly tl -> commentOnly (c :: tl)
| commentOnly_comment (body tl : list ascii) :
    forallb (fun c => negb (is_line_terminator c)) body = true ->
    commentOnly tl ->
    commentOnly ("-"%char :: "-"%char :: body ++ Parser.newline :: tl)%list.

(** [best], with score [s], is the earliest of the unmatched tables of [l]
    that attain the greatest score, and that score passes the threshold. *)
Definition earliestBest (threshold : Q) (matched : JsSet.t)
  (oldColumns : list Column) (l : JsMap.t (list Column))
  (best : string) (s : Q) : Prop :=
  exists pre cols post,
    l = (pre ++ (best, cols) :: post)%list
    /\ JsSet.has best matched = false
    /\ s = columnSimilarity oldColumns cols
    /\ (threshold <= s)%Q
    /\ (0 < s)%Q
    /\ (forall n c, In (n, c) pre -> JsSet.has n matched = false ->
          (columnSimilarity oldColumns c < s)%Q)
    /\ (forall n c, In (n, c) post -> JsSet.has n matched = false ->
          (columnSimilarity oldColumns c <= s)%Q).

(** What the search loop knows after the tables [l]. *)
Definition bestMatchInvariant (threshold : Q) (matched : JsSet.t)
  (oldColumns : list Column) (l : JsMap.t (list Column))
  (acc : option string * Q) : Prop :=
  (0 <= snd acc)%Q
  /\ (forall n c, In (n, c) l -> JsSet.has n matched = false ->
        (columnSimilarity oldColumns c <= snd acc)%Q
        \/ (columnSimilarity oldColumns c < threshold)%Q)
  /\ match fst acc with
     | None => snd acc = 0%Q
     | Some best => earliestBest threshold matched oldColumns l best (snd acc)
     end.

(** The matcher went from [st] to [st'] by consuming a prefix of the input
    left at [st]. *)
Definition advances (st st' : RegExp.mstate) : Prop :=
  exists consumed,
    RegExp.rest st = (consumed ++ RegExp.rest st')%list
    /\ RegExp.pos st' = RegExp.pos st + length consumed.

(** What [dropTable] pushes for one old table. *)
Definition dropTableEmits (st : Matching) (oldTableName : string)
  : list string :=
  if JsSet.has oldTableName (oldTableMatched st) then []
  else [cautionComment oldTableName; dropTableCommand oldTableName].

(** ** The caller: the line decorations of the result

    [buildDecorations] of the editor script gives every line of the text
    shown (the commands joined by line feeds) a class by three tests. *)

Module Ui.
Import RegExp.

Inductive LineClass : Type :=
| ErrorLine
| CautionLine.

(** [/^--\s*ERROR:/i] *)
Definition errorPattern : regex :=
  Seq Bos (Seq (lit_i "--") (Seq (Star true space) (lit_i "ERROR:"))).

(** [/^--\s*CAUTION:/i] *)
Definition cautionPattern : regex :=
  Seq Bos (Seq (lit_i "--") (Seq (Star true space) (lit_i "CAUTION:"))).

(** [/^\s*DROP\s+TABLE/i] *)
Definition dropTablePattern : regex :=
  Seq Bos (Seq (Star true space)
          (Seq (lit_i "DROP") (Seq (Plus true space) (lit_i "TABLE")))).

(** The class of one line: [error-line], [caution-line] or none. *)
Definition lineClass (text : string) : option LineClass :=
  if test errorPattern text then Some ErrorLine
  else if test cautionPattern text || test dropTablePattern text
       then Some CautionLine
       else None.

(** The decorations of a document given by its lines: the number of each
    decorated line, from 1, and its class. *)
Definition buildDecorations (lines : list string) : list (nat * LineClass) :=
  flat_map
    (fun numbered =>
       match lineClass (snd numbered) with
       | Some c => [(fst numbered, c)]
       | None => []
       end)
    (combine (seq 1 (length lines)) lines).

End Ui.

(** ** Definitions used to state further properties *)

(** The number of occurrences of a character in a text. *)
Definition countChar (c : ascii) (s : string) : nat :=
  count_occ ascii_dec (list_ascii_of_string s) c.

(** The tokens before the first DEFAULT keyword, and the tokens after it
    when there is one. *)
Fixpoint splitAtDefault (tokens : list string)
  : list string * option (list string) :=
  match tokens with
  | [] => ([], None)
  | tok :: more =>
      if String.eqb (toUpperCase tok) "DEFAULT" then ([], Some more)
      else let (pre, post) := splitAtDefault more in (tok :: pre, post)
  end.

(** A NOT token with a NULL token right after it. *)
Fixpoint hasNotNullPair (tokens : list string) : bool :=
  match tokens with
  | [] => false
  | tok :: more =>
      (String.eqb (toUpperCase tok) "NOT"
       && match more with
          | next :: _ => String.eqb (toUpperCase next) "NULL"
          | [] => false
          end)
      || hasNotNullPair more
  end.

(** A default that is missing: empty or white space. *)
Definition blankDefault (d : string) : bool :=
  negb (truthy d) || (String.length (trim d) =? 0).

(** A column as the parser builds them: a type text that is not empty and,
    when a default is there, a default that is not blank. *)
Definition parsedColumn (c : Column) : bool :=
  truthy (type c)
  && match defaultValue c with
     | Some d => negb (blankDefault d)
     | None => true
     end.

(** The tables of a schema as the parser builds them: each has a column at
    least, and every column is a [parsedColumn]. *)
Definition parsedTables (tables : JsMap.t (list Column)) : Prop :=
  forall tableName cols, In (tableName, cols) tables ->
    0 < length cols /\ forallb parsedColumn cols = true.

(** The command of line 246 for a new enum. *)
Definition createTypeCommand (typeName : string) (vs : list string) : string :=
  "CREATE TYPE " ++ typeName ++ " AS ENUM ("
    ++ join ", " (map (fun v => "'" ++ v ++ "'") vs) ++ ");".

(** What the loop of lines 241-249 pushes for one type name of the new
    schema. *)
Definition newTypeEmits (oldSchema newSchema : Schema) (typeName : string)
  : list string :=
  if JsMap.has typeName (types oldSchema) then []
  else
    match JsMap.get typeName (types newSchema) with
    | Some (Enum vs) => [createTypeCommand typeName vs]
    | _ => []
    end.

(** The command of line 166 for a new column, and what the loop of lines
    152-169 pushes for one column of the new table when it does not
    throw. *)
Definition addColumnCommand (tableName : string) (newCol : Column) : string :=
  "ALTER TABLE " ++ tableName ++ " ADD COLUMN " ++ columnDefinition newCol
    ++ ";".

Definition addColumnEmits (tableName : string) (columnMap : JsMap.t Column)
  (newCol : Column) : list string :=
  match JsMap.get (name newCol) columnMap with
  | Some _ => []
  | None => [addColumnCommand tableName newCol]
  end.

(** The command of line 235 for a column that is gone, and what the loop of
    lines 233-237 pushes for one column of the old table. *)
Definition dropColumnCommand (tableName : string) (oldCol : Column) : string :=
  "ALTER TABLE " ++ tableName ++ " DROP COLUMN " ++ name oldCol ++ ";".

Definition dropColumnEmits (tableName : string) (newColumns : list Column)
  (oldCol : Column) : list string :=
  match find (fun c => String.eqb (name c) (name oldCol)) newColumns with
  | Some _ => []
  | None => [dropColumnCommand tableName oldCol]
  end.

(** What rename detection keeps true of its map: no new table is the
    target of two renames, a target is a marked table of the new schema,
    and a renamed table is no table of the new schema. *)
Definition renamesInvariant (newTables : JsMap.t (list Column))
  (st : Matching) : Prop :=
  NoDup (map snd (renameMap st))
  /\ forall o n, In (o, n) (renameMap st) ->
       JsSet.has n (newTableMatched st) = true
       /\ JsMap.has n newTables = true
       /\ JsMap.has o newTables = false.

(** The RENAME commands of the entries of a rename map, in its order. *)
Definition renameCommands (mp : JsMap.t string) : list string :=
  map (fun e => renameTableCommand (fst e) (snd e)) mp.

(** What the last loop pushes for an old table, told from the new schema
    and the rename map. *)
Definition dropUnlessKept (newSchema : Schema) (renames : JsMap.t string)
  (oldTableName : string) : list string :=
  if JsMap.has oldTableName (tables newSchema)
     || JsMap.has oldTableName renames
  then []
  else [cautionComment oldTableName; dropTableCommand oldTableName].

(** The property names of [Object.prototype]: what [obj[name]] finds, and
    finds truthy, on a plain object that has no own entry [name]. *)
Definition prototypeMembers : list string :=
  ["constructor"; "__defineGetter__"; "__defineSetter__"; "hasOwnProperty";
   "__lookupGetter__"; "__lookupSetter__"; "isPrototypeOf";
   "propertyIsEnumerable"; "toString"; "valueOf"; "__proto__";
   "toLocaleString"].

Definition inherited (n : string) : bool := Js.mem n prototypeMembers.

(** A name made of digits: an object lists its array indices before its
    other names, whatever the order of insertion. *)
Definition is_digit (c : ascii) : bool :=
  (48 <=? nat_of_ascii c) && (nat_of_ascii c <=? 57).

Definition digitsOnly (n : string) : bool :=
  (0 <? String.length n) && forallb is_digit (list_ascii_of_string n).

(** A name that a plain object treats like any other: assigning it adds an
    entry at the end, and reading it while it is absent gives
    [undefined]. *)
Definition plainName (n : string) : bool :=
  negb (inherited n) && negb (digitsOnly n).

(** Every type name and every table name of the schema is plain: the
    object [parseSchema] builds holds these entries in this order. *)
Definition plainKeys (schema : Schema) : Prop :=
  forallb plainName
          (JsMap.keys (types schema) ++ JsMap.keys (tables schema))%list
  = true.

(** The lookups of lines 53, 102 and 242 find what the objects own: no type
    name of the new schema that the old one lacks, and no table name of the
    old schema that the new one lacks, is a member of [Object.prototype]. *)
Definition ownLookups (oldSchema newSchema : Schema) : Prop :=
  forallb (fun n => JsMap.has n (types oldSchema) || negb (inherited n))
          (JsMap.keys (types newSchema))
  && forallb (fun n => JsMap.has n (tables newSchema) || negb (inherited n))
             (JsMap.keys (tables oldSchema))
  = true.

(** The truthiness of [obj[name]] on a plain object: an own entry, or a
    member of [Object.prototype]. *)
Definition found {V : Type} (n : string) (obj : JsMap.t V) : bool :=
  JsMap.has n obj || inherited n.




(** The message of the error starts like the error of line 379. *)
Definition isEnumError (e : JsError) : bool :=
  String.prefix "ENUM type '" (message e).

(** ** Sample schemas *)

Module Samples.

Definition col (n t : string) : Column := mkColumn n t false None.

(** Seven columns against seven columns, three of them shared. *)
Definition wideOld : list Column :=
  map (fun n => col n "INT") ["a"; "b"; "c"; "d"; "e"; "f"; "g"].
Definition wideNew : list Column :=
  map (fun n => col n "INT") ["a"; "b"; "c"; "h"; "i"; "j"; "k"].

(** The schemas of the README and of [test.js]. *)
Definition personOld : Schema :=
  mkSchema
    [("mood", Enum ["sad"; "ok"; "happy"])]
    [("person", [col "id" "SERIAL PRIMARY KEY"; col "name" "VARCHAR(100)";
                 mkColumn "current_mood" "mood" false (Some "'ok'")]);
     ("test", [col "id" "SERIAL PRIMARY KEY"])].

Definition personNew : Schema :=
  mkSchema
    [("mood", Enum ["sad"; "ok"; "happy"])]
    [("user", [col "id" "SERIAL PRIMARY KEY"; col "name" "VARCHAR(150)";
               mkColumn "current_mood" "mood" false (Some "'happy'");
               col "age" "INT"])].

(** A table that declares the column [a] twice. *)
Definition twiceA : Schema :=
  mkSchema [] [("t", [col "a" "INT"; col "a" "TEXT"])].

(** Two new tables with the columns of the old table [account]. *)
Definition abc : list Column := [col "a" "INT"; col "b" "INT"; col "c" "INT"].

(** An integer column with a default that becomes a boolean one. *)
Definition flagOld : Schema :=
  mkSchema [] [("t", [mkColumn "flag" "INTEGER" false (Some "1")])].
Definition flagNew : Schema :=
  mkSchema [] [("t", [mkColumn "flag" "BOOLEAN" false (Some "true")])].

(** An old table and a new one that share three names out of eight: too
    few for a rename, enough for a replacement. *)
Definition replacedOld : Schema :=
  mkSchema [] [("t1", map (fun n => col n "INT") ["a"; "b"; "c"; "d"; "e"])].
Definition replacedNewColumns : list Column :=
  map (fun n => col n "INT") ["a"; "b"; "c"; "f"; "g"; "h"].
Definition replacedNew : Schema := mkSchema [] [("t2", replacedNewColumns)].

(** A composite type that becomes an enum. *)
Definition compositeOld : Schema := mkSchema [("t", Composite "(a int)")] [].
Definition enumNew : Schema := mkSchema [("t", Enum ["a"])] [].

End Samples.

(** * Properties *)

(** ** Facts about the containers *)

Section ContainerFacts.

Lemma mem_In (x : string) (l : list string) :
  Js.mem x l = true <-> In x l.
Proof.
  unfold Js.mem. rewrite existsb_exists. split.
  - intros [y [Hy Heq]]. apply String.eqb_eq in Heq. now subst.
  - intros H. exists x. split; [assumption | apply String.eqb_refl].
Qed.

Lemma mem_false_not_In (x : string) (l : list string) :
  Js.mem x l = false <-> ~ In x l.
Proof.
  rewrite <- mem_In. destruct (Js.mem x l); split; congruence.
Qed.

Lemma set_add_In (x y : string) (s : JsSet.t) :
  In y (JsSet.add x s) <-> y = x \/ In y s.
Proof.
  unfold JsSet.add, JsSet.has.
  destruct (Js.mem x s) eqn:E.
  - apply mem_In in E. split; [tauto | intros [-> | H]; assumption].
  - rewrite in_app_iff. simpl. intuition congruence.
Qed.

Lemma set_add_NoDup (x : string) (s : JsSet.t) :
  NoDup s -> NoDup (JsSet.add x s).
Proof.
  intros H. unfold JsSet.add, JsSet.has.
  destruct (Js.mem x s) eqn:E; [assumption|].
  apply mem_false_not_In in E.
  apply NoDup_rev in H. rewrite <- (rev_involutive (s ++ [x])).
  apply NoDup_rev. rewrite rev_app_distr. simpl. constructor.
  - now rewrite <- in_rev.
  - assumption.
Qed.

Lemma set_has_add (x y : string) (s : JsSet.t) :
  JsSet.has y (JsSet.add x s) = String.eqb y x || JsSet.has y s.
Proof.
  apply eq_true_iff_eq. unfold JsSet.has.
  rewrite orb_true_iff, !mem_In, set_add_In, String.eqb_eq. tauto.
Qed.

Lemma set_fold_add_In (l : list string) (s : JsSet.t) (y : string) :
  In y (fold_left (fun s x => JsSet.add x s) l s) <-> In y l \/ In y s.
Proof.
  revert s. induction l as [|a l IH]; intros s; simpl.
  - tauto.
  - rewrite IH, set_add_In. intuition congruence.
Qed.

Lemma set_fold_add_NoDup (l : list string) (s : JsSet.t) :
  NoDup s -> NoDup (fold_left (fun s x => JsSet.add x s) l s).
Proof.
  revert s. induction l as [|a l IH]; intros s H; simpl.
  - assumption.
  - apply IH, set_add_NoDup, H.
Qed.

Lemma set_of_list_In (l : list string) (y : string) :
  In y (JsSet.of_list l) <-> In y l.
Proof.
  unfold JsSet.of_list. rewrite set_fold_add_In. simpl. tauto.
Qed.

Lemma set_of_list_NoDup (l : list string) : NoDup (JsSet.of_list l).
Proof. apply set_fold_add_NoDup. constructor. Qed.

Lemma set_of_list_nil_iff (l : list string) :
  JsSet.of_list l = [] <-> l = [].
Proof.
  split; intros H.
  - destruct l as [|a l]; [reflexivity|].
    assert (Hin : In a (JsSet.of_list (a :: l)))
      by (apply set_of_list_In; now left).
    rewrite H in Hin. destruct Hin.
  - now subst.
Qed.

Context {V : Type}.

Lemma map_get_set (k k' : string) (v : V) (mp : JsMap.t V) :
  JsMap.get k (JsMap.set k' v mp)
  = if String.eqb k' k then Some v else JsMap.get k mp.
Proof.
  induction mp as [|[k0 v0] mp IH]; simpl.
  - reflexivity.
  - destruct (String.eqb k0 k') eqn:E0; simpl.
    + apply String.eqb_eq in E0. subst k0.
      destruct (String.eqb k' k); reflexivity.
    + destruct (String.eqb k0 k) eqn:E1.
      * apply String.eqb_eq in E1. subst k0.
        rewrite String.eqb_sym, E0. reflexivity.
      * exact IH.
Qed.

Lemma map_get_In (k : string) (v : V) (mp : JsMap.t V) :
  JsMap.get k mp = Some v -> In (k, v) mp.
Proof.
  induction mp as [|[k0 v0] mp IH]; simpl; [discriminate|].
  destruct (String.eqb k0 k) eqn:E.
  - apply String.eqb_eq in E. intros [= ->]. left. now subst.
  - intros H. right. now apply IH.
Qed.

Lemma map_get_None (k : string) (mp : JsMap.t V) :
  JsMap.get k mp = None <-> ~ In k (JsMap.keys mp).
Proof.
  induction mp as [|[k0 v0] mp IH]; simpl.
  - tauto.
  - destruct (String.eqb k0 k) eqn:E.
    + apply String.eqb_eq in E. split; [discriminate | intros H; tauto].
    + apply String.eqb_neq in E. rewrite IH. tauto.
Qed.

Lemma map_get_NoDup (k : string) (v : V) (mp : JsMap.t V) :
  NoDup (JsMap.keys mp) -> In (k, v) mp -> JsMap.get k mp = Some v.
Proof.
  induction mp as [|[k0 v0] mp IH]; simpl; [tauto|].
  intros Hnd [Heq | Hin].
  - injection Heq as -> ->. now rewrite String.eqb_refl.
  - inversion Hnd as [|? ? Hnotin Hnd']; subst.
    destruct (String.eqb k0 k) eqn:E.
    + apply String.eqb_eq in E. subst k0. exfalso. apply Hnotin.
      change k with (fst (k, v)). now apply in_map.
    + now apply IH.
Qed.

Lemma map_has_In (k : string) (mp : JsMap.t V) :
  JsMap.has k mp = true <-> In k (JsMap.keys mp).
Proof.
  unfold JsMap.has. destruct (JsMap.get k mp) eqn:E.
  - split; [intros _ | reflexivity].
    apply map_get_In in E. change k with (fst (k, v)). now apply in_map.
  - apply map_get_None in E. split; [discriminate | tauto].
Qed.

End ContainerFacts.

Lemma find_append {A : Type} (f : A -> bool) (l1 l2 : list A) :
  find f (l1 ++ l2)
  = match find f l1 with Some x => Some x | None => find f l2 end.
Proof.
  induction l1 as [|a l1 IH]; simpl; [reflexivity|].
  destruct (f a); [reflexivity | exact IH].
Qed.

Section ColumnMapFacts.

Lemma columnMap_fold_get (cols : list Column) (mp : JsMap.t Column) (k : string) :
  JsMap.get k
    (fold_left (fun mp kv => JsMap.set (fst kv) (snd kv) mp)
               (map (fun c => (name c, c)) cols) mp)
  = match find (fun c => String.eqb (name c) k) (rev cols) with
    | Some c => Some c
    | None => JsMap.get k mp
    end.
Proof.
  revert mp. induction cols as [|a cols IH]; intros mp; simpl.
  - reflexivity.
  - rewrite IH. rewrite find_append.
    destruct (find (fun c => String.eqb (name c) k) (rev cols)); [reflexivity|].
    simpl. rewrite map_get_set.
    destruct (String.eqb (name a) k); reflexivity.
Qed.

(** [columnMap.get(k)] is the last column called [k]. *)
Lemma columnMap_get (cols : list Column) (k : string) :
  JsMap.get k (columnMapOf cols)
  = find (fun c => String.eqb (name c) k) (rev cols).
Proof.
  unfold columnMapOf, JsMap.of_entries. rewrite columnMap_fold_get.
  destruct (find _ (rev cols)); reflexivity.
Qed.

Lemma columnMap_get_name (cols : list Column) (k : string) (c : Column) :
  JsMap.get k (columnMapOf cols) = Some c -> name c = k /\ In c cols.
Proof.
  rewrite columnMap_get. intros H. apply find_some in H.
  destruct H as [Hin Heq]. apply String.eqb_eq in Heq.
  split; [assumption | now apply in_rev].
Qed.

Lemma columnMap_get_None (cols : list Column) (k : string) :
  JsMap.get k (columnMapOf cols) = None <-> ~ In k (map name cols).
Proof.
  rewrite columnMap_get. split.
  - intros H Hin. apply in_map_iff in Hin. destruct Hin as [c [Hn Hc]].
    assert (Hf := find_none _ _ H c (proj1 (in_rev cols c) Hc)).
    simpl in Hf. subst k. rewrite String.eqb_refl in Hf. discriminate.
  - intros H. destruct (find _ (rev cols)) eqn:E; [|reflexivity].
    apply find_some in E. destruct E as [Hin Heq].
    apply String.eqb_eq in Heq. exfalso. apply H. subst k.
    apply in_map. now apply in_rev.
Qed.

Lemma find_unique_name (cols : list Column) (c : Column) :
  NoDup (map name cols) -> In c cols ->
  find (fun c' => String.eqb (name c') (name c)) cols = Some c.
Proof.
  induction cols as [|a cols IH]; simpl; [tauto|].
  intros Hnd [-> | Hin].
  - now rewrite String.eqb_refl.
  - inversion Hnd as [|? ? Hnotin Hnd']; subst.
    destruct (String.eqb (name a) (name c)) eqn:E.
    + apply String.eqb_eq in E. exfalso. apply Hnotin. rewrite E.
      now apply in_map.
    + now apply IH.
Qed.

(** With distinct column names, [columnMap.get(c.name)] is [c] itself. *)
Lemma columnMap_get_self (cols : list Column) (c : Column) :
  NoDup (map name cols) -> In c cols ->
  JsMap.get (name c) (columnMapOf cols) = Some c.
Proof.
  intros Hnd Hin. rewrite columnMap_get. apply find_unique_name.
  - rewrite map_rev. now apply NoDup_rev.
  - now apply -> in_rev.
Qed.

(** Distinct names make the columns consistent. *)
Lemma distinct_names_consistent (cols : list Column) :
  NoDup (map name cols) -> consistentColumns cols.
Proof.
  intros Hnd c1 c2 H1 H2 Hn.
  pose proof (find_unique_name cols c1 Hnd H1) as E1.
  pose proof (find_unique_name cols c2 Hnd H2) as E2.
  rewrite Hn in E1. congruence.
Qed.

(** With consistent columns, [columnMap.get(c.name)] is [c] itself. *)
Lemma columnMap_get_consistent (cols : list Column) (c : Column) :
  consistentColumns cols -> In c cols ->
  JsMap.get (name c) (columnMapOf cols) = Some c.
Proof.
  intros Hcons Hin.
  destruct (JsMap.get (name c) (columnMapOf cols)) as [c'|] eqn:E.
  - apply columnMap_get_name in E. destruct E as [Hn Hin'].
    f_equal. now apply Hcons.
  - apply columnMap_get_None in E. exfalso. apply E. now apply in_map.
Qed.

End ColumnMapFacts.

(** ** The matcher consumes input, and its fuel is never spent *)

Section Matcher.

Import RegExp.

Lemma advances_refl st : advances st st.
Proof. exists []. simpl. split; [reflexivity | lia]. Qed.

Lemma advances_trans st1 st2 st3 :
  advances st1 st2 -> advances st2 st3 -> advances st1 st3.
Proof.
  intros (c1 & H1 & P1) (c2 & H2 & P2). exists (c1 ++ c2)%list.
  rewrite H1, H2, P2, P1, length_app, <- app_assoc. split; [reflexivity | lia].
Qed.

Lemma advances_length st st' :
  advances st st' ->
  length (rest st) = (pos st' - pos st) + length (rest st')
  /\ pos st <= pos st'.
Proof.
  intros (c & H & P). rewrite H, P, length_app. lia.
Qed.

(** A successful match is the continuation applied to a state further in
    the input. *)
Lemma star_loop_advances step greedy k n :
  (forall st k' res, step st k' = Some res ->
     exists st', advances st st' /\ k' st' = Some res) ->
  forall st res,
    star_loop step greedy k n st = Some res ->
    exists st', advances st st' /\ k st' = Some res.
Proof.
  intros Hstep. induction n as [|n IH]; intros st res; simpl.
  - intros H. exists st. split; [apply advances_refl | exact H].
  - assert (Hiter :
      step st (fun st' => if pos st <? pos st'
                          then star_loop step greedy k n st' else None)
      = Some res ->
      exists st', advances st st' /\ k st' = Some res).
    { intros H. destruct (Hstep _ _ _ H) as (st1 & Ha & Hk).
      destruct (pos st <? pos st1); [|discriminate].
      destruct (IH _ _ Hk) as (st2 & Ha2 & Hk2).
      exists st2. split; [eapply advances_trans; eassumption | exact Hk2]. }
    destruct greedy.
    + destruct (step st _) as [res'|] eqn:E.
      * intros [= <-]. now apply Hiter.
      * intros H. exists st. split; [apply advances_refl | exact H].
    + destruct (k st) as [res'|] eqn:E.
      * intros [= <-]. exists st. split; [apply advances_refl | exact E].
      * exact Hiter.
Qed.

Lemma m_advances r :
  forall st k res,
    m r st k = Some res -> exists st', advances st st' /\ k st' = Some res.
Proof.
  induction r as [|p|a IHa b IHb|a IHa b IHb|greedy r IH|i r IH|r IH| |];
    intros st k res; cbn [m].
  - intros H. exists st. split; [apply advances_refl | exact H].
  - destruct (rest st) as [|c tl] eqn:E; [discriminate|].
    destruct (p c); [|discriminate]. intros H.
    eexists. split; [|exact H]. exists [c]. simpl. split; [assumption | lia].
  - intros H. destruct (IHa _ _ _ H) as (st1 & Ha & H1).
    destruct (IHb _ _ _ H1) as (st2 & Hb & H2).
    exists st2. split; [eapply advances_trans; eassumption | exact H2].
  - destruct (m a st k) as [res'|] eqn:E.
    + intros [= <-]. now apply IHa.
    + apply IHb.
  - apply star_loop_advances. exact IH.
  - intros H. destruct (IH _ _ _ H) as (st1 & (c & Hc & Hp) & H1).
    eexists. split; [|exact H1]. exists c. simpl. now split.
  - destruct (m r st Some); [discriminate|]. intros H.
    exists st. split; [apply advances_refl | exact H].
  - destruct (pos st =? 0); [|discriminate]. intros H.
    exists st. split; [apply advances_refl | exact H].
  - destruct (rest st); [|discriminate]. intros H.
    exists st. split; [apply advances_refl | exact H].
Qed.

(** A match found at [q] ends at or after [q], on a suffix of the input. *)
Lemma match_at_advances r q suffix st :
  match_at r q suffix = Some st ->
  q <= pos st /\ length suffix = (pos st - q) + length (rest st).
Proof.
  unfold match_at. intros H.
  destruct (m_advances r _ _ _ H) as (st' & Ha & [= ->]).
  apply advances_length in Ha. simpl in Ha. lia.
Qed.

(** The matcher only looks at its continuation on states further in the
    input. *)
Lemma star_loop_ext step greedy k1 k2 n :
  (forall st k k', (forall st', advances st st' -> k st' = k' st') ->
                   step st k = step st k') ->
  forall st, (forall st', advances st st' -> k1 st' = k2 st') ->
    star_loop step greedy k1 n st = star_loop step greedy k2 n st.
Proof.
  intros Hstep. induction n as [|n IH]; intros st Hk; simpl.
  - apply Hk, advances_refl.
  - rewrite (Hk st (advances_refl st)).
    rewrite (Hstep st _
               (fun st' => if pos st <? pos st'
                           then star_loop step greedy k2 n st' else None)).
    + reflexivity.
    + intros st' Ha. destruct (pos st <? pos st'); [|reflexivity].
      apply IH. intros st'' Ha'. apply Hk. eapply advances_trans; eassumption.
Qed.

Lemma m_ext r :
  forall st k k', (forall st', advances st st' -> k st' = k' st') ->
                  m r st k = m r st k'.
Proof.
  induction r as [|p|a IHa b IHb|a IHa b IHb|greedy r IH|i r IH|r IH| |];
    intros st k k' Hk; cbn [m].
  - apply Hk, advances_refl.
  - destruct (rest st) as [|c tl] eqn:E; [reflexivity|].
    destruct (p c); [|reflexivity]. apply Hk.
    exists [c]. simpl. split; [assumption | lia].
  - apply IHa. intros st1 Ha. apply IHb. intros st2 Hb.
    apply Hk. eapply advances_trans; eassumption.
  - rewrite (IHa st k k' Hk), (IHb st k k' Hk). reflexivity.
  - apply star_loop_ext; [exact IH | exact Hk].
  - apply IH. intros st1 (c & Hc & Hp). apply Hk. exists c. simpl. now split.
  - now rewrite (Hk st (advances_refl st)).
  - now rewrite (Hk st (advances_refl st)).
  - now rewrite (Hk st (advances_refl st)).
Qed.

(** The fuel [S (length (rest st))] of a repetition is never spent: any
    greater fuel gives the same result. *)
Lemma star_loop_fuel r greedy k n n' :
  forall st, length (rest st) < n -> length (rest st) < n' ->
    star_loop (m r) greedy k n st = star_loop (m r) greedy k n' st.
Proof.
  revert n'. induction n as [|n IH]; intros n' st Hn Hn'; [lia|].
  destruct n' as [|n']; [lia|]. simpl.
  rewrite (m_ext r st _
             (fun st' => if pos st <? pos st'
                         then star_loop (m r) greedy k n' st' else None)).
  - reflexivity.
  - intros st' Ha. destruct (pos st <? pos st') eqn:E; [|reflexivity].
    apply Nat.ltb_lt in E. apply advances_length in Ha.
    apply IH; lia.
Qed.

(** Likewise for the loop of a global replacement. *)
Lemma replace_loop_fuel r by_ fuel fuel' :
  forall q suffix, length suffix < fuel -> length suffix < fuel' ->
    replace_loop r by_ fuel q suffix = replace_loop r by_ fuel' q suffix.
Proof.
  revert fuel'. induction fuel as [|fuel IH]; intros fuel' q suffix H H';
    [lia|].
  destruct fuel' as [|fuel']; [lia|]. cbn [replace_loop].
  destruct (match_at r q suffix) as [st|] eqn:E.
  - apply match_at_advances in E.
    destruct (q <? pos st) eqn:Eq.
    + apply Nat.ltb_lt in Eq. f_equal. apply IH; lia.
    + destruct suffix as [|c tl]; [reflexivity|].
      simpl in H, H'. do 2 f_equal. apply IH; lia.
  - destruct suffix as [|c tl]; [reflexivity|].
    simpl in H, H'. f_equal. apply IH; lia.
Qed.

(** And for the loop that counts the matches. *)
Lemma count_loop_fuel r fuel fuel' :
  forall q suffix, length suffix < fuel -> length suffix < fuel' ->
    count_loop r fuel q suffix = count_loop r fuel' q suffix.
Proof.
  revert fuel'. induction fuel as [|fuel IH]; intros fuel' q suffix H H';
    [lia|].
  destruct fuel' as [|fuel']; [lia|]. cbn [count_loop].
  destruct (match_at r q suffix) as [st|] eqn:E.
  - apply match_at_advances in E.
    destruct (q <? pos st) eqn:Eq.
    + apply Nat.ltb_lt in Eq. f_equal. apply IH; lia.
    + destruct suffix as [|c tl]; [reflexivity|].
      simpl in H, H'. f_equal. apply IH; lia.
  - destruct suffix as [|c tl]; [reflexivity|].
    simpl in H, H'. apply IH; lia.
Qed.

(** And for the loop of [split], which takes two steps at most for a
    character. *)
Lemma split_loop_fuel r fuel fuel' :
  forall q suffix piece,
    2 * length suffix + (if length piece =? 0 then 0 else 1) < fuel ->
    2 * length suffix + (if length piece =? 0 then 0 else 1) < fuel' ->
    split_loop r fuel q suffix piece = split_loop r fuel' q suffix piece.
Proof.
  revert fuel'. induction fuel as [|fuel IH]; intros fuel' q suffix piece H H';
    [lia|].
  destruct fuel' as [|fuel']; [lia|]. cbn [split_loop].
  destruct suffix as [|c tl]; [reflexivity|].
  cbn [length] in H, H'.
  assert (Hskip : split_loop r fuel (S q) tl (c :: piece)
                  = split_loop r fuel' (S q) tl (c :: piece)).
  { apply IH; simpl; destruct (length piece =? 0); lia. }
  destruct (match_at r q (c :: tl)) as [st|] eqn:E; [|exact Hskip].
  apply match_at_advances in E. cbn [length] in E.
  destruct ((pos st =? q) && (length piece =? 0)) eqn:Eq; [exact Hskip|].
  f_equal. apply IH; simpl.
  - apply andb_false_iff in Eq. destruct Eq as [Eq | Eq].
    + apply Nat.eqb_neq in Eq. lia.
    + rewrite Eq in H. lia.
  - apply andb_false_iff in Eq. destruct Eq as [Eq | Eq].
    + apply Nat.eqb_neq in Eq. lia.
    + rewrite Eq in H'. lia.
Qed.

End Matcher.

(** ** Column similarity *)

Section Similarity.

Lemma Qlt_bool_iff (a b : Q) : Qlt_bool a b = true <-> (a < b)%Q.
Proof.
  unfold Qlt_bool. rewrite negb_true_iff. split.
  - intros H. apply Qnot_le_lt. intros Hle.
    apply Qle_bool_iff in Hle. congruence.
  - intros H. destruct (Qle_bool b a) eqn:E; [|reflexivity].
    apply Qle_bool_iff in E. exfalso. exact (Qlt_not_le _ _ H E).
Qed.

Lemma Qlt_bool_false_iff (a b : Q) : Qlt_bool a b = false <-> (b <= a)%Q.
Proof.
  unfold Qlt_bool. rewrite negb_false_iff. apply Qle_bool_iff.
Qed.

(** Two duplicate-free enumerations of one set have one length. *)
Lemma same_set_same_length (l1 l2 : list string) :
  NoDup l1 -> NoDup l2 -> (forall n, In n l1 <-> In n l2) ->
  length l1 = length l2.
Proof.
  intros H1 H2 H. apply Permutation_length.
  now apply NoDup_Permutation.
Qed.

Lemma intersectionOf_In (oldCols newCols : list Column) (n : string) :
  In n (intersectionOf oldCols newCols)
  <-> In n (map name oldCols) /\ In n (map name newCols).
Proof.
  unfold intersectionOf, JsSet.has.
  rewrite filter_In, mem_In, !set_of_list_In. tauto.
Qed.

Lemma intersectionOf_NoDup (oldCols newCols : list Column) :
  NoDup (intersectionOf oldCols newCols).
Proof. apply NoDup_filter, set_of_list_NoDup. Qed.

Lemma unionOf_In (oldCols newCols : list Column) (n : string) :
  In n (unionOf oldCols newCols)
  <-> In n (map name oldCols) \/ In n (map name newCols).
Proof.
  unfold unionOf. rewrite set_of_list_In, in_app_iff, !set_of_list_In. tauto.
Qed.

Lemma unionOf_NoDup (oldCols newCols : list Column) :
  NoDup (unionOf oldCols newCols).
Proof. apply set_of_list_NoDup. Qed.

Lemma intersection_le_union (oldCols newCols : list Column) :
  length (intersectionOf oldCols newCols) <= length (unionOf oldCols newCols).
Proof.
  apply NoDup_incl_length; [apply intersectionOf_NoDup|].
  intros n Hn. apply intersectionOf_In in Hn. apply unionOf_In. tauto.
Qed.

Lemma union_positive (oldCols newCols : list Column) :
  oldCols <> [] -> 0 < length (unionOf oldCols newCols).
Proof.
  intros H. destruct oldCols as [|c cols]; [congruence|].
  assert (Hin : In (name c) (unionOf (c :: cols) newCols))
    by (apply unionOf_In; left; now left).
  destruct (unionOf (c :: cols) newCols); [destruct Hin | simpl; lia].
Qed.

Lemma intersection_sym (a b : list Column) :
  length (intersectionOf a b) = length (intersectionOf b a).
Proof.
  apply same_set_same_length; try apply intersectionOf_NoDup.
  intros n. rewrite !intersectionOf_In. tauto.
Qed.

Lemma union_sym (a b : list Column) :
  length (unionOf a b) = length (unionOf b a).
Proof.
  apply same_set_same_length; try apply unionOf_NoDup.
  intros n. rewrite !unionOf_In. tauto.
Qed.

Lemma columnSimilarity_nonempty (oldCols newCols : list Column) :
  oldCols <> [] -> newCols <> [] ->
  columnSimilarity oldCols newCols
  = let i := length (intersectionOf oldCols newCols) in
    let u := length (unionOf oldCols newCols) in
    if (i <? 3) && Qlt_bool (ratio i u) (7 # 10) then 0%Q else ratio i u.
Proof.
  intros Ho Hn. destruct oldCols; [congruence|]. destruct newCols; [congruence|].
  reflexivity.
Qed.

Lemma ratio_bounds (i u : nat) :
  0 < u -> i <= u -> (0 <= ratio i u)%Q /\ (ratio i u <= 1)%Q.
Proof.
  intros Hu Hi. unfold ratio, Qle. simpl. split.
  - lia.
  - assert (E : Z.pos (Pos.of_nat u) = Z.of_nat u).
    { rewrite <- positive_nat_Z, Nat2Pos.id by lia. reflexivity. }
    rewrite ?Z.mul_1_r, ?Z.mul_1_l, E. lia.
Qed.

Lemma columnSimilarity_bounds (oldCols newCols : list Column) :
  (0 <= columnSimilarity oldCols newCols)%Q
  /\ (columnSimilarity oldCols newCols <= 1)%Q.
Proof.
  destruct oldCols as [|o oldCols].
  - destruct newCols; split; vm_compute; congruence.
  - destruct newCols as [|n newCols]; [split; vm_compute; congruence|].
    rewrite columnSimilarity_nonempty by congruence. cbv zeta.
    destruct (_ && _).
    + split; vm_compute; congruence.
    + apply ratio_bounds.
      * apply union_positive. congruence.
      * apply intersection_le_union.
Qed.

Lemma columnSimilarity_sym (a b : list Column) :
  columnSimilarity a b = columnSimilarity b a.
Proof.
  destruct a as [|x a]; destruct b as [|y b]; try reflexivity.
  rewrite !columnSimilarity_nonempty by congruence. cbv zeta.
  rewrite (intersection_sym (x :: a) (y :: b)).
  rewrite (union_sym (x :: a) (y :: b)). reflexivity.
Qed.

End Similarity.

(** C6. [columnSimilarity] is 1 on two empty lists and 0 when exactly one is
    empty; otherwise, with [i] the number of names common to both sides and
    [u] the number of names on either side, it is 0 when [i < 3] and
    [i/u < 0.7], and [i/u] in every other case, whatever [i/u] is: no
    acceptance threshold is applied inside.  The result lies between 0 and
    1 and does not depend on the order of the two arguments. *)
Theorem columnSimilarity_spec (oldCols newCols : list Column) :
  (oldCols = [] -> newCols = [] -> columnSimilarity oldCols newCols = 1%Q)
  /\ ((oldCols = [] /\ newCols <> []) \/ (oldCols <> [] /\ newCols = []) ->
      columnSimilarity oldCols newCols = 0%Q)
  /\ (oldCols <> [] -> newCols <> [] ->
      forall inter uni : list string,
        NoDup inter -> NoDup uni ->
        (forall n, In n inter
                   <-> In n (map name oldCols) /\ In n (map name newCols)) ->
        (forall n, In n uni
                   <-> In n (map name oldCols) \/ In n (map name newCols)) ->
        let i := length inter in
        let u := length uni in
        0 < u /\ i <= u
        /\ (i < 3 /\ (ratio i u < 7 # 10)%Q ->
            columnSimilarity oldCols newCols = 0%Q)
        /\ (3 <= i \/ (7 # 10 <= ratio i u)%Q ->
            columnSimilarity oldCols newCols = ratio i u))
  /\ (0 <= columnSimilarity oldCols newCols)%Q
  /\ (columnSimilarity oldCols newCols <= 1)%Q
  /\ columnSimilarity oldCols newCols = columnSimilarity newCols oldCols.
Proof.
  split; [|split; [|split; [|split; [|split]]]].
  - intros -> ->. reflexivity.
  - intros [[-> Hn] | [Ho ->]].
    + destruct newCols; [congruence | reflexivity].
    + destruct oldCols; [congruence | reflexivity].
  - intros Ho Hn inter uni Hi Hu Hinter Huni i u.
    assert (Ei : i = length (intersectionOf oldCols newCols)).
    { apply same_set_same_length; [assumption | apply intersectionOf_NoDup|].
      intros n. rewrite Hinter, intersectionOf_In. tauto. }
    assert (Eu : u = length (unionOf oldCols newCols)).
    { apply same_set_same_length; [assumption | apply unionOf_NoDup|].
      intros n. rewrite Huni, unionOf_In. tauto. }
    rewrite columnSimilarity_nonempty by assumption. cbv zeta.
    rewrite <- Ei, <- Eu.
    split; [rewrite Eu; now apply union_positive|].
    split; [rewrite Ei, Eu; apply intersection_le_union|].
    split.
    + intros [Hlt Hr]. apply Nat.ltb_lt in Hlt. apply Qlt_bool_iff in Hr.
      now rewrite Hlt, Hr.
    + intros [Hge | Hr].
      * apply Nat.ltb_ge in Hge. now rewrite Hge.
      * apply Qlt_bool_false_iff in Hr. rewrite Hr, andb_false_r. reflexivity.
  - apply columnSimilarity_bounds.
  - apply columnSimilarity_bounds.
  - apply columnSimilarity_sym.
Qed.

(** Three shared names out of eleven: the score 3/11 is returned as it is,
    below the two thresholds of the callers. *)
Lemma columnSimilarity_spec_witness :
  columnSimilarity Samples.wideOld Samples.wideNew = ratio 3 11
  /\ (ratio 3 11 < replacementThreshold)%Q.
Proof.
  split; [|reflexivity].
  destruct (columnSimilarity_spec Samples.wideOld Samples.wideNew)
    as (_ & _ & H & _).
  refine (proj2 (proj2 (proj2
    (H _ _ ["a"; "b"; "c"]
       ["a"; "b"; "c"; "d"; "e"; "f"; "g"; "h"; "i"; "j"; "k"] _ _ _ _))) _).
  - discriminate.
  - discriminate.
  - repeat constructor; simpl; intuition discriminate.
  - repeat constructor; simpl; intuition discriminate.
  - intros n. simpl. intuition (subst; auto; try discriminate).
  - intros n. simpl. intuition (subst; auto 20; try discriminate).
  - left. simpl. lia.
Defined.

(** ** Every phase only appends to [commands] *)

Section AppendOnly.

Lemma extends_refl (c : list string) : extends c c.
Proof. exists []. now rewrite app_nil_r. Qed.

Lemma extends_trans (a b c : list string) :
  extends a b -> extends b c -> extends a c.
Proof.
  intros [r1 ->] [r2 ->]. exists (r1 ++ r2)%list. now rewrite app_assoc.
Qed.

Lemma extends_app (c r : list string) : extends c (c ++ r).
Proof. now exists r. Qed.

Lemma extends_push (c : list string) (x : string) : extends c (push c x).
Proof. apply extends_app. Qed.

Create HintDb appends.
#[local] Hint Resolve extends_refl extends_app extends_push : appends.

Lemma fold_left_emits {A : Type} (step : list string -> A -> list string)
  (f : A -> list string) :
  (forall c x, step c x = (c ++ f x)%list) ->
  forall l c, fold_left step l c = (c ++ flat_map f l)%list.
Proof.
  intros Hstep l. induction l as [|a l IH]; intros c; simpl.
  - now rewrite app_nil_r.
  - rewrite Hstep, IH, app_assoc. reflexivity.
Qed.

Lemma fold_left_extends {A : Type} (step : list string -> A -> list string) :
  (forall c x, extends c (step c x)) ->
  forall l c, extends c (fold_left step l c).
Proof.
  intros Hstep l. induction l as [|a l IH]; intros c; simpl.
  - apply extends_refl.
  - eapply extends_trans; [apply Hstep | apply IH].
Qed.





Lemma addNewColumns_extends tableName columnMap newColumns c c' :
  addNewColumns tableName columnMap newColumns c = Ok c' -> extends c c'.
Proof.
  revert c. induction newColumns as [|newCol more IH]; intros c; simpl.
  - intros [= <-]. apply extends_refl.
  - destruct (JsMap.get (name newCol) columnMap); [apply IH|].
    destruct (_ && _); [discriminate|].
    intros H. apply IH in H.
    eapply extends_trans; [apply extends_push | exact H].
Qed.

Lemma modifyExistingColumns_extends tableName columnMap newColumns c :
  extends c (modifyExistingColumns tableName columnMap newColumns c).
Proof.
  apply fold_left_extends. intros c0 newCol.
  destruct (JsMap.get (name newCol) columnMap); auto with appends.
Qed.

Lemma removeDeletedColumns_extends tableName oldColumns newColumns c :
  extends c (removeDeletedColumns tableName oldColumns newColumns c).
Proof.
  apply fold_left_extends. intros c0 oldCol.
  destruct (find _ newColumns); auto with appends.
Qed.

Lemma tableChanges_extends oldSchema st tableName newColumns c c' :
  tableChanges oldSchema st tableName newColumns c = Ok c' -> extends c c'.
Proof.
  unfold tableChanges.
  destruct (negb _); [intros [= <-]; apply extends_refl|].
  cbv zeta.
  destruct (addNewColumns _ _ _ _) as [c1|] eqn:E; simpl; [|discriminate].
  intros [= <-]. apply addNewColumns_extends in E.
  eapply extends_trans; [exact E|].
  eapply extends_trans;
    [apply modifyExistingColumns_extends | apply removeDeletedColumns_extends].
Qed.

Lemma tablesChanges_extends oldSchema st newTables c c' :
  tablesChanges oldSchema st newTables c = Ok c' -> extends c c'.
Proof.
  revert c. induction newTables as [|[tableName newColumns] more IH];
    intros c; simpl.
  - intros [= <-]. apply extends_refl.
  - destruct (tableChanges _ _ _ _ _) as [c1|] eqn:E; simpl; [|discriminate].
    intros H. apply tableChanges_extends in E. apply IH in H.
    eapply extends_trans; eassumption.
Qed.

Lemma createNewTypes_extends oldSchema newSchema c :
  extends c (createNewTypes oldSchema newSchema c).
Proof.
  apply fold_left_extends. intros c0 typeName.
  destruct (JsMap.has _ _); auto with appends.
  destruct (JsMap.get _ _) as [[vs|d]|]; auto with appends.
Qed.

Lemma migrateData_extends oldSchema oldTableName newTableName newColumns c :
  extends c (migrateData oldSchema oldTableName newTableName newColumns c).
Proof.
  unfold migrateData. cbv zeta. destruct (0 <? _); [|apply extends_refl].
  eapply extends_trans; apply extends_push.
Qed.

Lemma createNewTable_extends oldSchema st tableReplacements c entry :
  extends c (createNewTable oldSchema st tableReplacements c entry).
Proof.
  unfold createNewTable. destruct entry as [newTableName newColumns].
  destruct (JsSet.has _ _); [apply extends_refl|]. cbv zeta.
  destruct (keyOfValue _ _) as [oldTableName|]; [|apply extends_push].
  destruct (truthy oldTableName); [|apply extends_push].
  eapply extends_trans; [apply extends_push | apply migrateData_extends].
Qed.

Lemma createNewTables_extends oldSchema newSchema st tableReplacements c :
  extends c (createNewTables oldSchema newSchema st tableReplacements c).
Proof. apply fold_left_extends, createNewTable_extends. Qed.

Lemma dropTable_emits st c oldTableName :
  dropTable st c oldTableName = (c ++ dropTableEmits st oldTableName)%list.
Proof.
  unfold dropTable, dropTableEmits, push.
  destruct (JsSet.has _ _).
  - now rewrite app_nil_r.
  - now rewrite <- app_assoc.
Qed.

Lemma dropTables_emits oldSchema st c :
  dropTables oldSchema st c
  = (c ++ flat_map (dropTableEmits st) (JsMap.keys (tables oldSchema)))%list.
Proof. apply fold_left_emits, dropTable_emits. Qed.

(** The phases after the column changes. *)
Lemma later_phases_extend oldSchema newSchema st tableReplacements c :
  extends c
    (dropTables oldSchema st
       (createNewTables oldSchema newSchema st tableReplacements
          (createNewTypes oldSchema newSchema c))).
Proof.
  eapply extends_trans; [apply createNewTypes_extends|].
  eapply extends_trans; [apply createNewTables_extends|].
  rewrite dropTables_emits. apply extends_app.
Qed.

(** The diff, phase by phase. *)
Lemma generateSchemaAltersInternal_Ok oldSchema newSchema result :
  generateSchemaAltersInternal oldSchema newSchema = Ok result ->
  exists c1 c2,
    typeChanges (types oldSchema) (types newSchema) [] = Ok c1
    /\ let st := detectRenames oldSchema newSchema c1 in
       tablesChanges oldSchema st (tables newSchema) (cmds st) = Ok c2
       /\ result
          = dropTables oldSchema st
              (createNewTables oldSchema newSchema st
                 (detectReplacements oldSchema newSchema st)
                 (createNewTypes oldSchema newSchema c2)).
Proof.
  unfold generateSchemaAltersInternal.
  destruct (typeChanges _ _ _) as [c1|] eqn:E1; simpl; [|discriminate].
  destruct (tablesChanges _ _ _ _) as [c2|] eqn:E2; simpl; [|discriminate].
  intros [= <-]. exists c1, c2. auto.
Qed.


End AppendOnly.

(** ** The type phase *)

Section TypePhase.

Lemma strict_neq_true_iff (a b : option string) :
  strict_neq a b = true <-> a <> b.
Proof.
  destruct a as [x|], b as [y|]; simpl;
    try (split; [discriminate | reflexivity]).
  - rewrite negb_true_iff, String.eqb_neq. split; congruence.
  - split; [discriminate | congruence].
Qed.

Lemma strict_neq_refl (a : option string) : strict_neq a a = false.
Proof. destruct a; simpl; [now rewrite String.eqb_refl | reflexivity]. Qed.

Lemma flat_map_if_repeat {A : Type} (b : A -> bool) (e : string) (l : list A) :
  flat_map (fun i => if b i then [e] else []) l
  = repeat e (length (filter b l)).
Proof.
  induction l as [|a l IH]; simpl; [reflexivity|].
  destruct (b a); simpl; now rewrite IH.
Qed.

Lemma enumValueErrors_repeat typeName oldValues newValues :
  enumValueErrors typeName oldValues newValues
  = repeat (enumErrorComment typeName)
           (length (enumMismatches oldValues newValues)).
Proof. apply flat_map_if_repeat. Qed.

Lemma enumMismatches_In oldValues newValues (i : nat) :
  In i (enumMismatches oldValues newValues)
  <-> i < length oldValues /\ nth_error newValues i <> nth_error oldValues i.
Proof.
  unfold enumMismatches.
  rewrite filter_In, in_seq, strict_neq_true_iff.
  split; intros [H1 H2]; (split; [lia | congruence]).
Qed.

Lemma enumMismatches_prefix oldValues extra :
  enumMismatches oldValues (oldValues ++ extra) = [].
Proof.
  destruct (enumMismatches oldValues (oldValues ++ extra)) as [|i l] eqn:E;
    [reflexivity|].
  assert (Hin : In i (enumMismatches oldValues (oldValues ++ extra)))
    by (rewrite E; now left).
  apply enumMismatches_In in Hin. destruct Hin as [Hlt Hne].
  rewrite nth_error_app1 in Hne by assumption. congruence.
Qed.

Lemma enumChanges_append typeName oldValues extra :
  enumChanges typeName oldValues (oldValues ++ extra)
  = map (addValueCommand typeName) extra.
Proof.
  unfold enumChanges, enumValueAdditions.
  rewrite enumValueErrors_repeat, enumMismatches_prefix. simpl.
  rewrite skipn_app, skipn_all, Nat.sub_diag. reflexivity.
Qed.

Lemma enumChanges_same typeName values :
  enumChanges typeName values values = [].
Proof.
  rewrite <- (app_nil_r values) at 2. apply enumChanges_append.
Qed.


End TypePhase.




(** ** Diffing a schema against itself *)

Section SelfDiff.

Lemma fold_left_unchanged {S A : Type} (step : S -> A -> S) (l : list A) (s : S) :
  (forall x s', In x l -> step s' x = s') -> fold_left step l s = s.
Proof.
  revert s. induction l as [|a l IH]; intros s H; simpl; [reflexivity|].
  rewrite H by now left. apply IH. intros x s' Hx. apply H. now right.
Qed.

Lemma typeChanges_same oldTypes (l : list (string * TypeDef)) c :
  (forall k v, In (k, v) l -> JsMap.get k oldTypes = Some v) ->
  typeChanges oldTypes l c = Ok c.
Proof.
  induction l as [|[typeName newType] l IH]; intros H; simpl; [reflexivity|].
  rewrite (H typeName newType) by now left.
  assert (IH' : typeChanges oldTypes l c = Ok c)
    by (apply IH; intros k v Hin; apply H; now right).
  destruct newType as [vs | d].
  - now rewrite enumChanges_same, app_nil_r.
  - simpl. now rewrite String.eqb_refl.
Qed.

(** Old tables that all keep their name are matched by identity. *)
Lemma detectRenames_identity newTables (l : list (string * list Column)) st :
  (forall e, In e l -> JsMap.has (fst e) newTables = true) ->
  fold_left (detectRename newTables) l st
  = mkMatching (cmds st)
      (fold_left (fun s x => JsSet.add x s) (JsMap.keys l) (oldTableMatched st))
      (fold_left (fun s x => JsSet.add x s) (JsMap.keys l) (newTableMatched st))
      (renameMap st).
Proof.
  revert st. induction l as [|[oldTableName oldColumns] l IH]; intros st H.
  - destruct st. reflexivity.
  - assert (E : detectRename newTables st (oldTableName, oldColumns)
                = mkMatching (cmds st)
                    (JsSet.add oldTableName (oldTableMatched st))
                    (JsSet.add oldTableName (newTableMatched st))
                    (renameMap st)).
    { pose proof (H (oldTableName, oldColumns) (or_introl eq_refl)) as Hh.
      simpl in Hh. unfold detectRename. now rewrite Hh. }
    change (fold_left (detectRename newTables)
                      ((oldTableName, oldColumns) :: l) st)
      with (fold_left (detectRename newTables) l
                      (detectRename newTables st (oldTableName, oldColumns))).
    rewrite IH by (intros e He; apply H; now right).
    rewrite E. reflexivity.
Qed.

Lemma addNewColumns_all_known tableName columnMap (l : list Column) c :
  (forall col, In col l -> JsMap.get (name col) columnMap <> None) ->
  addNewColumns tableName columnMap l c = Ok c.
Proof.
  induction l as [|newCol l IH]; intros H; simpl; [reflexivity|].
  destruct (JsMap.get (name newCol) columnMap) eqn:E.
  - apply IH. intros col Hc. apply H. now right.
  - exfalso. apply (H newCol); [now left | exact E].
Qed.

Lemma modifyColumn_same tableName (col : Column) :
  modifyColumn tableName col col = [].
Proof.
  unfold modifyColumn, notNullCommands.
  now rewrite String.eqb_refl, strict_neq_refl, Bool.eqb_reflx.
Qed.

Lemma modifyExistingColumns_same tableName columnMap (l : list Column) c :
  (forall col, In col l -> JsMap.get (name col) columnMap = Some col) ->
  modifyExistingColumns tableName columnMap l c = c.
Proof.
  intros H. apply fold_left_unchanged. intros col c' Hin.
  rewrite (H col Hin), modifyColumn_same. apply app_nil_r.
Qed.

Lemma removeDeletedColumns_none tableName (l newColumns : list Column) c :
  (forall col, In col l -> In (name col) (map name newColumns)) ->
  removeDeletedColumns tableName l newColumns c = c.
Proof.
  intros H. apply fold_left_unchanged. intros col c' Hin.
  destruct (find _ newColumns) eqn:E; [reflexivity|].
  exfalso. specialize (H col Hin). apply in_map_iff in H.
  destruct H as [col' [Hn Hc]].
  assert (Hf := find_none _ _ E col' Hc). simpl in Hf.
  rewrite Hn, String.eqb_refl in Hf. discriminate.
Qed.

Lemma set_has_of_list (x : string) (l : list string) :
  JsSet.has x (JsSet.of_list l) = true <-> In x l.
Proof. unfold JsSet.has. now rewrite mem_In, set_of_list_In. Qed.

Variable S : Schema.
Hypothesis wf : wf_schema S.
Hypothesis consistent :
  forall tableName cols, In (tableName, cols) (tables S) ->
                         consistentColumns cols.

Local Abbreviation st := (selfMatching S).

Lemma detectRenames_self c : detectRenames S S c = st c.
Proof.
  unfold detectRenames. rewrite detectRenames_identity; [reflexivity|].
  intros [k v] Hin. apply map_has_In. simpl.
  change k with (fst (k, v)). now apply in_map.
Qed.

Lemma tableChanges_self tableName cols c :
  In (tableName, cols) (tables S) ->
  tableChanges S (st c) tableName cols c = Ok c.
Proof.
  intros Hin. unfold tableChanges. simpl.
  assert (Hm : JsSet.has tableName (JsSet.of_list (JsMap.keys (tables S))) = true).
  { apply set_has_of_list. change tableName with (fst (tableName, cols)).
    now apply in_map. }
  rewrite Hm. simpl.
  assert (Ecols : oldColumnsFor S (selfMatching S c) tableName = cols).
  { unfold oldColumnsFor, oldTableNameFor. simpl.
    now rewrite (map_get_NoDup tableName cols (tables S) (proj2 wf) Hin). }
  rewrite Ecols.
  pose proof (consistent _ _ Hin) as Hnd.
  rewrite addNewColumns_all_known.
  - simpl. rewrite modifyExistingColumns_same.
    + rewrite removeDeletedColumns_none; [reflexivity|].
      intros col Hc. now apply in_map.
    + intros col Hc. now apply columnMap_get_consistent.
  - intros col Hc. rewrite columnMap_get_consistent by assumption.
    discriminate.
Qed.

Lemma tablesChanges_self (l : list (string * list Column)) c :
  incl l (tables S) -> tablesChanges S (st c) l c = Ok c.
Proof.
  induction l as [|[tableName cols] l IH]; intros Hincl; simpl; [reflexivity|].
  assert (E : tableChanges S (st c) tableName cols c = Ok c)
    by (apply tableChanges_self, Hincl; now left).
  rewrite E. simpl. apply IH. intros e He. apply Hincl. now right.
Qed.

Lemma generateSchemaAltersInternal_self :
  generateSchemaAltersInternal S S = Ok [].
Proof.
  unfold generateSchemaAltersInternal.
  rewrite typeChanges_same
    by (intros k v Hin; now apply map_get_NoDup; [apply wf|]).
  simpl. rewrite detectRenames_self.
  change (cmds (st [])) with (@nil string).
  rewrite tablesChanges_self by apply incl_refl. simpl. f_equal.
  assert (Hmatched : forall k, In k (JsMap.keys (tables S)) ->
            JsSet.has k (JsSet.of_list (JsMap.keys (tables S))) = true)
    by (intros k Hk; now apply set_has_of_list).
  assert (E1 : createNewTypes S S [] = []).
  { apply fold_left_unchanged. intros typeName c Hin.
    apply map_has_In in Hin. now rewrite Hin. }
  assert (E2 : detectReplacements S S (st []) = []).
  { apply fold_left_unchanged. intros [k v] r Hin. simpl.
    rewrite Hmatched; [reflexivity|].
    change k with (fst (k, v)). now apply in_map. }
  rewrite E1, E2.
  assert (E3 : createNewTables S S (st []) [] [] = []).
  { apply fold_left_unchanged. intros [k v] c Hin. simpl.
    rewrite Hmatched; [reflexivity|].
    change k with (fst (k, v)). now apply in_map. }
  rewrite E3. apply fold_left_unchanged. intros k c Hin.
  unfold dropTable. simpl. now rewrite Hmatched.
Qed.

End SelfDiff.

(** C5, as the code has it. For every schema [S] (one entry per type name and per
    table name) in which the columns of a table that share a name are
    identical, in particular when no table has two columns of the same
    name, diffing [S] against itself returns the empty command list. *)
Theorem self_diff_is_empty (S : Schema) :
  wf_schema S ->
  (forall tableName cols, In (tableName, cols) (tables S) ->
     forall c1 c2, In c1 cols -> In c2 cols -> name c1 = name c2 -> c1 = c2) ->
  generateSchemaAltersInternal S S = Ok [].
Proof. apply generateSchemaAltersInternal_self. Qed.

(** The old schema of the README, with its type and two tables, against
    itself. *)
Lemma self_diff_is_empty_witness :
  generateSchemaAltersInternal Samples.personOld Samples.personOld = Ok [].
Proof.
  apply self_diff_is_empty.
  - split; repeat constructor; simpl; intuition discriminate.
  - intros tableName cols [H | [H | []]]; injection H as <- <-;
      apply distinct_names_consistent;
      repeat constructor; simpl; intuition discriminate.
Defined.

(** C5 does not hold of every schema: [columnMap] keeps the last column of
    a name, so a table that declares a column twice differs from itself.
    The schema is the one [parseSchema] returns for
    [CREATE TABLE t (a INT, a TEXT);]. *)
Lemma self_diff_counterexample :
  parseSchema "CREATE TABLE t (a INT, a TEXT);" = Ok Samples.twiceA
  /\ generateSchemaAltersInternal Samples.twiceA Samples.twiceA
     = Ok ["ALTER TABLE t ALTER COLUMN a TYPE INT;"]
  /\ generateSchemaAltersInternal Samples.twiceA Samples.twiceA <> Ok [].
Proof.
  split; [reflexivity | split; [reflexivity | discriminate]].
Qed.

(** ** Best match *)

Section BestMatch.

Variable threshold : Q.
Variable matched : JsSet.t.
Variable oldColumns : list Column.

Local Abbreviation step := (bestMatchStep threshold matched oldColumns).
Local Abbreviation sim := (columnSimilarity oldColumns).




End BestMatch.

(** ** What a selected table is *)

Section BestMatchSound.

Variable threshold : Q.
Variable matched : JsSet.t.
Variable oldColumns : list Column.

Lemma earliestBest_snoc_matched l best s n c :
  earliestBest threshold matched oldColumns l best s ->
  (JsSet.has n matched = false -> (columnSimilarity oldColumns c <= s)%Q) ->
  earliestBest threshold matched oldColumns (l ++ [(n, c)])%list best s.
Proof.
  intros (pre & cols & post & -> & Hm & Hs & Hth & Hpos & Hpre & Hpost) Hc.
  exists pre, cols, (post ++ [(n, c)])%list.
  rewrite <- app_assoc. repeat split; try assumption.
  intros n' c' Hin Hn'. apply in_app_iff in Hin.
  destruct Hin as [Hin | [Heq | []]].
  - now apply (Hpost n' c').
  - inversion Heq; subst n' c'. now apply Hc.
Qed.

Lemma bestMatchStep_invariant l acc n c :
  bestMatchInvariant threshold matched oldColumns l acc ->
  bestMatchInvariant threshold matched oldColumns (l ++ [(n, c)])%list
    (bestMatchStep threshold matched oldColumns acc (n, c)).
Proof.
  destruct acc as [b s]. intros (H0 & Hall & Hb). simpl in H0, Hall, Hb.
  unfold bestMatchStep.
  destruct (JsSet.has n matched) eqn:Em.
  - (* the table is used already *)
    split; [exact H0|]. split; simpl.
    + intros n' c' Hin Hn'. apply in_app_iff in Hin.
      destruct Hin as [Hin | [Heq | []]]; [now apply (Hall n' c')|].
      inversion Heq; subst n' c'. congruence.
    + destruct b as [best|]; [|exact Hb].
      apply earliestBest_snoc_matched; [exact Hb | congruence].
  - simpl snd.
    destruct (Qlt_bool s (columnSimilarity oldColumns c)
              && Qle_bool threshold (columnSimilarity oldColumns c)) eqn:E.
    + (* a strictly greater score that passes the threshold *)
      apply andb_true_iff in E. destruct E as [Hlt Hth].
      apply Qlt_bool_iff in Hlt. apply Qle_bool_iff in Hth.
      split; simpl; [apply Qlt_le_weak; eapply Qle_lt_trans; eassumption|].
      split.
      * intros n' c' Hin Hn'. apply in_app_iff in Hin.
        destruct Hin as [Hin | [Heq | []]].
        -- destruct (Hall n' c' Hin Hn') as [Hle | Hlow]; [left | now right].
           apply Qlt_le_weak. eapply Qle_lt_trans; eassumption.
        -- inversion Heq; subst n' c'. left. apply Qle_refl.
      * exists l, c, []. repeat split; try assumption.
        -- eapply Qle_lt_trans; eassumption.
        -- intros n' c' Hin Hn'.
           destruct (Hall n' c' Hin Hn') as [Hle | Hlow].
           ++ eapply Qle_lt_trans; eassumption.
           ++ eapply Qlt_le_trans; eassumption.
        -- intros n' c' [].
    + (* the best is kept *)
      assert (Hc : (columnSimilarity oldColumns c <= s)%Q
                   \/ (columnSimilarity oldColumns c < threshold)%Q).
      { apply andb_false_iff in E. destruct E as [E | E].
        - left. now apply Qlt_bool_false_iff.
        - right. apply Qnot_le_lt. intros Hle.
          apply Qle_bool_iff in Hle. congruence. }
      split; [exact H0|]. split; simpl.
      * intros n' c' Hin Hn'. apply in_app_iff in Hin.
        destruct Hin as [Hin | [Heq | []]]; [now apply (Hall n' c')|].
        inversion Heq; subst n' c'. exact Hc.
      * destruct b as [best|]; [|exact Hb].
        apply earliestBest_snoc_matched; [exact Hb|]. intros _.
        destruct Hc as [Hle | Hlow]; [exact Hle|].
        destruct Hb as (pre & cols & post & _ & _ & _ & Hth & _).
        apply Qlt_le_weak. eapply Qlt_le_trans; eassumption.
Qed.

Lemma findBestMatch_invariant (l : JsMap.t (list Column)) :
  bestMatchInvariant threshold matched oldColumns l
    (findBestMatch threshold matched oldColumns l).
Proof.
  unfold findBestMatch. induction l as [|[n c] l IH] using rev_ind.
  - simpl. repeat split; [apply Qle_refl | intros n c []].
  - rewrite fold_left_app. simpl fold_left.
    now apply bestMatchStep_invariant.
Qed.

(** The table the search returns is the earliest of the unmatched tables
    with the greatest score; the search returns none only when no unmatched
    table has a positive score that passes the threshold. *)
Lemma findBestMatch_sound (l : JsMap.t (list Column)) :
  match findBestMatch threshold matched oldColumns l with
  | (Some best, s) => earliestBest threshold matched oldColumns l best s
  | (None, _) =>
      forall n c, In (n, c) l -> JsSet.has n matched = false ->
        (columnSimilarity oldColumns c <= 0)%Q
        \/ (columnSimilarity oldColumns c < threshold)%Q
  end.
Proof.
  pose proof (findBestMatch_invariant l) as (H0 & Hall & Hb).
  destruct (findBestMatch threshold matched oldColumns l) as [[best|] s];
    simpl in *; [exact Hb|].
  subst s. exact Hall.
Qed.

End BestMatchSound.



(** ** Column changes of a matched table *)

Section ColumnChanges.

Lemma containsBlock_extends (b c c' : list string) :
  containsBlock b c -> extends c c' -> containsBlock b c'.
Proof.
  intros (pre & post & ->) [r ->]. exists pre, (post ++ r)%list.
  now rewrite <- !app_assoc.
Qed.

Lemma containsBlock_trans (a b c : list string) :
  containsBlock a b -> containsBlock b c -> containsBlock a c.
Proof.
  intros (p1 & q1 & ->) (p2 & q2 & ->).
  exists (p2 ++ p1)%list, (q1 ++ q2)%list. now rewrite <- !app_assoc.
Qed.

Lemma containsBlock_app_r (b c : list string) : containsBlock b (c ++ b).
Proof. exists c, []. now rewrite app_nil_r. Qed.


Lemma containsBlock_flat_map {A : Type} (f : A -> list string) (x : A)
  (l : list A) :
  In x l -> containsBlock (f x) (flat_map f l).
Proof.
  intros Hin. apply in_split in Hin. destruct Hin as (l1 & l2 & ->).
  rewrite flat_map_app. simpl.
  now exists (flat_map f l1), (flat_map f l2).
Qed.

Lemma detectRename_sameMatching newTables st st' entry :
  sameMatching st st' ->
  sameMatching (detectRename newTables st entry)
               (detectRename newTables st' entry).
Proof.
  intros (Ho & Hn & Hr). unfold detectRename.
  destruct entry as [oldTableName oldColumns]. rewrite <- Hn.
  destruct (JsMap.has oldTableName newTables).
  - repeat split; simpl; congruence.
  - destruct (fst _) as [bestMatch|]; [|now repeat split].
    destruct (truthy bestMatch); [|now repeat split].
    repeat split; simpl; congruence.
Qed.

(** The marks and the rename map do not depend on the commands pushed
    before rename detection. *)
Lemma detectRenames_sameMatching oldSchema newSchema c c' :
  sameMatching (detectRenames oldSchema newSchema c)
               (detectRenames oldSchema newSchema c').
Proof.
  unfold detectRenames.
  assert (H0 : sameMatching (mkMatching c [] [] []) (mkMatching c' [] [] []))
    by now repeat split.
  revert H0. generalize (mkMatching c [] [] []) (mkMatching c' [] [] []).
  induction (tables oldSchema) as [|e l IH]; intros st st' H; simpl.
  - assumption.
  - apply IH. now apply detectRename_sameMatching.
Qed.

Lemma oldColumnsFor_sameMatching oldSchema st st' tableName :
  sameMatching st st' ->
  oldColumnsFor oldSchema st tableName = oldColumnsFor oldSchema st' tableName.
Proof.
  intros (_ & _ & Hr). unfold oldColumnsFor, oldTableNameFor. now rewrite Hr.
Qed.

Lemma modifyExistingColumns_emits tableName columnMap newColumns c :
  modifyExistingColumns tableName columnMap newColumns c
  = (c ++ flat_map (modifyExistingEmits tableName columnMap) newColumns)%list.
Proof.
  apply fold_left_emits. intros c0 newCol. unfold modifyExistingEmits.
  destruct (JsMap.get _ _); [reflexivity | now rewrite app_nil_r].
Qed.

(** A matched table that is processed pushes the commands of each of its
    columns. *)
Lemma tableChanges_block oldSchema st tableName newColumns c c' newCol :
  tableChanges oldSchema st tableName newColumns c = Ok c' ->
  JsSet.has tableName (newTableMatched st) = true ->
  In newCol newColumns ->
  containsBlock
    (modifyExistingEmits tableName
       (columnMapOf (oldColumnsFor oldSchema st tableName)) newCol)
    c'.
Proof.
  unfold tableChanges. intros H Hm Hin. rewrite Hm in H. simpl in H.
  destruct (addNewColumns _ _ _ _) as [c1|]; simpl in H; [|discriminate].
  injection H as <-.
  eapply containsBlock_extends; [|apply removeDeletedColumns_extends].
  rewrite modifyExistingColumns_emits.
  eapply containsBlock_trans;
    [apply containsBlock_flat_map, Hin | apply containsBlock_app_r].
Qed.

Lemma tablesChanges_block oldSchema st newTables c c' tableName newColumns
  newCol :
  tablesChanges oldSchema st newTables c = Ok c' ->
  In (tableName, newColumns) newTables ->
  JsSet.has tableName (newTableMatched st) = true ->
  In newCol newColumns ->
  containsBlock
    (modifyExistingEmits tableName
       (columnMapOf (oldColumnsFor oldSchema st tableName)) newCol)
    c'.
Proof.
  revert c. induction newTables as [|[t cols] more IH]; intros c H Hin Hm Hc.
  - destruct Hin.
  - simpl in H.
    destruct (tableChanges oldSchema st t cols c) as [c1|] eqn:E;
      simpl in H; [|discriminate].
    destruct Hin as [Heq | Hin].
    + injection Heq as -> ->.
      eapply containsBlock_extends;
        [eapply tableChanges_block; eassumption
        | eapply tablesChanges_extends; eassumption].
    + eapply IH; eassumption.
Qed.

End ColumnChanges.

(** ** The trailing PRIMARY KEY of a type text *)

Section PrimaryKeySuffix.

Import RegExp.

Local Abbreviation PK := (list_ascii_of_string "PRIMARY KEY").

(** The continuation of the white space: the literal, then the end. *)
Local Abbreviation afterSpaces :=
  (fun st' : mstate => m (Seq (lit "PRIMARY KEY") Eos) st' Some).
















End PrimaryKeySuffix.




(** ** A table that disagrees with itself *)

Section SelfDiffConverse.

Lemma strict_neq_false_iff (a b : option string) :
  strict_neq a b = false <-> a = b.
Proof.
  destruct a as [x|], b as [y|]; simpl;
    try (split; [discriminate | congruence]).
  - rewrite negb_false_iff, String.eqb_eq. split; congruence.
  - tauto.
Qed.

(** Two columns of one name for which [modifyColumn] pushes nothing are
    the same column. *)
Lemma modifyColumn_empty tableName (oldCol newCol : Column) :
  name oldCol = name newCol ->
  modifyColumn tableName oldCol newCol = [] ->
  oldCol = newCol.
Proof.
  intros Hn. unfold modifyColumn.
  destruct (String.eqb (type newCol) (type oldCol)) eqn:Et; simpl negb;
    cbv iota.
  - destruct (strict_neq (defaultValue newCol) (defaultValue oldCol)) eqn:Ed.
    + destruct (truthy_opt (defaultValue newCol)); discriminate.
    + unfold notNullCommands.
      destruct (Bool.eqb (notNull newCol) (notNull oldCol)) eqn:En;
        [|discriminate].
      intros _. apply String.eqb_eq in Et. apply strict_neq_false_iff in Ed.
      apply Bool.eqb_prop in En.
      destruct oldCol, newCol; simpl in *. congruence.
  - unfold typeChangeCommands.
    destruct (truthy_opt (defaultValue oldCol)); discriminate.
Qed.

Lemma containsBlock_nil (b : list string) : containsBlock b [] -> b = [].
Proof.
  intros (pre & post & H). symmetry in H.
  apply app_eq_nil in H. destruct H as [_ H].
  now apply app_eq_nil in H.
Qed.

Lemma extends_nil (c : list string) : extends c [] -> c = [].
Proof.
  intros [r H]. symmetry in H. now apply app_eq_nil in H.
Qed.

(** The hypothesis on the columns cannot be dropped: a schema with a table
    where two columns of one name differ has a non-empty diff against
    itself. *)
Lemma self_diff_nonempty (S : Schema) tableName cols (c1 c2 : Column) :
  wf_schema S ->
  In (tableName, cols) (tables S) ->
  In c1 cols -> In c2 cols -> name c1 = name c2 -> c1 <> c2 ->
  generateSchemaAltersInternal S S <> Ok [].
Proof.
  intros Hwf Hin H1 H2 Hn Hne Hres.
  destruct (generateSchemaAltersInternal_Ok _ _ _ Hres)
    as (r1 & r2 & _ & E2 & Heq).
  rewrite detectRenames_self in E2, Heq.
  assert (Hr2 : r2 = []).
  { apply extends_nil. rewrite Heq. apply later_phases_extend. }
  subst r2.
  assert (Hm : JsSet.has tableName (newTableMatched (selfMatching S r1)) = true).
  { apply set_has_of_list. change tableName with (fst (tableName, cols)).
    now apply in_map. }
  assert (Ecols : oldColumnsFor S (selfMatching S r1) tableName = cols).
  { unfold oldColumnsFor, oldTableNameFor. simpl.
    now rewrite (map_get_NoDup tableName cols (tables S) (proj2 Hwf) Hin). }
  assert (Hsame : forall c, In c cols -> name c = name c1 ->
            exists c', JsMap.get (name c1) (columnMapOf cols) = Some c'
                       /\ c' = c).
  { intros c Hc Hnc.
    pose proof (tablesChanges_block S (selfMatching S r1) (tables S) _ _
                  tableName cols c E2 Hin Hm Hc) as Hb.
    apply containsBlock_nil in Hb. rewrite Ecols in Hb.
    unfold modifyExistingEmits in Hb. rewrite Hnc in Hb.
    destruct (JsMap.get (name c1) (columnMapOf cols)) as [c'|] eqn:Eg.
    - exists c'. split; [reflexivity|].
      apply columnMap_get_name in Eg. destruct Eg as [Hn' _].
      eapply modifyColumn_empty; [|exact Hb]. congruence.
    - apply columnMap_get_None in Eg. exfalso. apply Eg. now apply in_map. }
  destruct (Hsame c1 H1 eq_refl) as (c' & Eg1 & ->).
  destruct (Hsame c2 H2 (eq_sym Hn)) as (c'' & Eg2 & <-).
  congruence.
Qed.

End SelfDiffConverse.

(** ** Dropped tables *)

(** The result of the diff ends with the caution and DROP TABLE pairs of
    the old tables that carry no mark, in the order of the old schema. *)
Lemma drops_close_the_result (oldSchema newSchema : Schema)
  (result : list string) :
  generateSchemaAltersInternal oldSchema newSchema = Ok result ->
  exists pre,
    result
    = (pre ++ flat_map (dropTableEmits (detectRenames oldSchema newSchema []))
                       (JsMap.keys (tables oldSchema)))%list.
Proof.
  intros Hres.
  destruct (generateSchemaAltersInternal_Ok _ _ _ Hres)
    as (c1 & c2 & _ & _ & ->).
  rewrite dropTables_emits. eexists. f_equal.
  apply flat_map_ext. intros n. unfold dropTableEmits.
  destruct (detectRenames_sameMatching oldSchema newSchema c1 [])
    as (Ho & _ & _).
  now rewrite Ho.
Qed.

(** C4, at the failing input.  The old table [t1] is matched neither by
    identity nor by rename; phase 5 selects it as the source of a
    replacement by [t2], and the diff still closes with its caution comment
    and DROP TABLE. *)
Theorem replaced_table_is_dropped :
  JsSet.has "t1"
    (oldTableMatched
       (detectRenames Samples.replacedOld Samples.replacedNew [])) = false
  /\ detectReplacements Samples.replacedOld Samples.replacedNew
       (detectRenames Samples.replacedOld Samples.replacedNew [])
     = [("t1", "t2")]
  /\ generateSchemaAltersInternal Samples.replacedOld Samples.replacedNew
     = Ok [createTableCommand "t2" Samples.replacedNewColumns;
           "-- Migrate data from 't1' to 't2'";
           "INSERT INTO t2 (a, b, c) SELECT a, b, c FROM t1;";
           cautionComment "t1";
           dropTableCommand "t1"].
Proof. repeat split. Qed.

(** ** Errors of the diff *)

(** C1, at the failing input.  The schemas have no table at all, so no new
    column is NOT NULL without default; the old type [t] is composite and
    the new one an enum, and reading [oldType.values.length] throws a
    TypeError.  Both schemas are what [parseSchema] returns for the texts
    given, and the boundary reports the TypeError. *)
Theorem enum_over_composite_throws :
  parseSchema "CREATE TYPE t AS (a int);" = Ok Samples.compositeOld
  /\ parseSchema "CREATE TYPE t AS ENUM ('a');" = Ok Samples.enumNew
  /\ tables Samples.enumNew = []
  /\ generateSchemaAltersInternal Samples.compositeOld Samples.enumNew
     = Throw undefined_length
  /\ generateSchemaAlters "CREATE TYPE t AS (a int);"
                          "CREATE TYPE t AS ENUM ('a');"
     = Ok ["-- ERROR: Cannot read properties of undefined (reading 'length')"].
Proof. repeat split. Qed.

(** ** The boundary *)

(** C2. [generateSchemaAlters] returns a list for every pair of texts.  An
    error thrown by the parse of the old text, by the parse of the new
    text, or by the diff, gives the list whose only entry is [-- ERROR: ]
    followed by the message of the error; otherwise the list is one of the
    two early error lines or the result of the diff. *)
Theorem generateSchemaAlters_never_throws (oldStatement newStatement : string) :
  exists commands,
    generateSchemaAlters oldStatement newStatement = Ok commands
    /\ (forall error,
          parseSchema oldStatement = Throw error ->
          commands = ["-- ERROR: " ++ message error])
    /\ (forall oldSchema error,
          parseSchema oldStatement = Ok oldSchema ->
          parseSchema newStatement = Throw error ->
          commands = ["-- ERROR: " ++ message error])
    /\ (forall oldSchema newSchema,
          parseSchema oldStatement = Ok oldSchema ->
          parseSchema newStatement = Ok newSchema ->
          commands = [invalidOldSchema]
          \/ commands = [invalidNewSchema]
          \/ generateSchemaAltersInternal oldSchema newSchema = Ok commands
          \/ exists error,
               generateSchemaAltersInternal oldSchema newSchema = Throw error
               /\ commands = ["-- ERROR: " ++ message error]).
Proof.
  unfold generateSchemaAlters, generateSchemaAlters_try.
  destruct (parseSchema oldStatement) as [oldSchema | e1]; simpl.
  - destruct (parseSchema newStatement) as [newSchema | e2]; simpl.
    + destruct (isEmptySchema oldSchema && _).
      * eexists. split; [reflexivity|].
        split; [discriminate | split; [discriminate|]].
        intros ? ? [= <-] [= <-]. now left.
      * destruct (isEmptySchema newSchema && _).
        -- eexists. split; [reflexivity|].
           split; [discriminate | split; [discriminate|]].
           intros ? ? [= <-] [= <-]. right. now left.
        -- destruct (generateSchemaAltersInternal oldSchema newSchema)
             as [commands | e3] eqn:E.
           ++ exists commands. split; [reflexivity|].
              split; [discriminate | split; [discriminate|]].
              intros ? ? [= <-] [= <-]. right. right. now left.
           ++ eexists. split; [reflexivity|].
              split; [discriminate | split; [discriminate|]].
              intros ? ? [= <-] [= <-]. right. right. right.
              exists e3. now split.
    + eexists. split; [reflexivity|].
      split; [discriminate | split; [|discriminate]].
      now intros ? ? _ [= <-].
  - eexists. split; [reflexivity|].
    split; [now intros ? [= <-] | split; discriminate].
Qed.

(** ** Two texts the parser mishandles *)

(** C7, at the failing input.  A comment that ends the text without a line
    feed is not removed by the pattern of line 342, which asks for the line
    feed; its parenthesis is counted and the parse throws. *)
Theorem final_comment_is_not_stripped :
  Parser.clean "-- (" = "-- ("
  /\ parseSchema "-- (" = Throw (Parser.unbalanced 1 0)
  /\ message (Parser.unbalanced 1 0)
     = "Unbalanced parentheses: 1 opening, 0 closing"
  /\ parseSchema "-- CREATE TABLE t (a int)"
     = Ok (mkSchema [] [("t", [Samples.col "a" "int"])]).
Proof. repeat split. Qed.

(** C8, at the failing input.  The text between the parentheses is empty,
    so the enum branch of the pattern of line 369, which asks for one
    character at least, fails; the composite branch takes [ENUM ()] as a
    definition and nothing is thrown. *)
Theorem empty_enum_is_parsed_as_composite :
  parseSchema "CREATE TYPE mood AS ENUM ();"
  = Ok (mkSchema [("mood", Composite "ENUM ()")] []).
Proof. reflexivity. Qed.

(** ** When the diff throws *)

Section DiffThrows.

Lemma typeChanges_Throw oldTypes newTypes c e :
  typeChanges oldTypes newTypes c = Throw e ->
  e = undefined_length
  /\ exists typeName newValues d,
       In (typeName, Enum newValues) newTypes
       /\ JsMap.get typeName oldTypes = Some (Composite d).
Proof.
  revert c. induction newTypes as [|[typeName newType] more IH]; intros c;
    simpl; [discriminate|].
  assert (Hmore : forall c', typeChanges oldTypes more c' = Throw e ->
            e = undefined_length
            /\ exists typeName0 newValues d,
                 ((typeName, newType) = (typeName0, Enum newValues)
                  \/ In (typeName0, Enum newValues) more)
                 /\ JsMap.get typeName0 oldTypes = Some (Composite d)).
  { intros c' H. destruct (IH _ H) as [-> (t & vs & d & Hin & Hg)].
    split; [reflexivity|]. exists t, vs, d. auto. }
  destruct (JsMap.get typeName oldTypes) as [oldType|] eqn:Eg; [|apply Hmore].
  destruct newType as [newValues | newDefinition].
  - destruct oldType as [oldValues | d]; [apply Hmore|].
    intros [= <-]. split; [reflexivity|]. exists typeName, newValues, d. auto.
  - destruct oldType as [oldValues | d]; simpl; [discriminate|].
    destruct (String.eqb newDefinition d); simpl; [apply Hmore | discriminate].
Qed.

Lemma typeChanges_returns oldSchema newSchema :
  noEnumOverComposite oldSchema newSchema ->
  exists c, typeChanges (types oldSchema) (types newSchema) [] = Ok c.
Proof.
  intros Hno.
  destruct (typeChanges (types oldSchema) (types newSchema) []) as [c|e] eqn:E.
  - now exists c.
  - destruct (typeChanges_Throw _ _ _ _ E) as [_ (t & vs & d & Hin & Hg)].
    exfalso. exact (Hno t vs d Hin Hg).
Qed.

Lemma addNewColumns_result tableName columnMap newColumns c :
  match find (offendingColumn columnMap) newColumns with
  | Some newCol =>
      addNewColumns tableName columnMap newColumns c
      = Throw (notNullWithoutDefault tableName newCol)
  | None => exists c', addNewColumns tableName columnMap newColumns c = Ok c'
  end.
Proof.
  revert c. induction newColumns as [|newCol more IH]; intros c; simpl.
  - now exists c.
  - unfold offendingColumn at 1.
    destruct (JsMap.get (name newCol) columnMap); [apply IH|].
    destruct (notNull newCol && negb (truthy_opt (defaultValue newCol)));
      [reflexivity | apply IH].
Qed.

Lemma tableChanges_result oldSchema st tableName newColumns c :
  JsSet.has tableName (newTableMatched st) = true ->
  match find (offendingColumn
                (columnMapOf (oldColumnsFor oldSchema st tableName)))
             newColumns with
  | Some newCol =>
      tableChanges oldSchema st tableName newColumns c
      = Throw (notNullWithoutDefault tableName newCol)
  | None =>
      exists c', tableChanges oldSchema st tableName newColumns c = Ok c'
  end.
Proof.
  intros Hm. unfold tableChanges. rewrite Hm. simpl.
  pose proof (addNewColumns_result tableName
                (columnMapOf (oldColumnsFor oldSchema st tableName))
                newColumns c) as H.
  destruct (find _ newColumns).
  - now rewrite H.
  - destruct H as [c' ->]. simpl. eexists. reflexivity.
Qed.

(** The table loop throws for the first offending column, and returns when
    there is none. *)
Lemma tablesChanges_result oldSchema st newTables c :
  match firstOffending oldSchema st newTables with
  | Some (tableName, newCol) =>
      tablesChanges oldSchema st newTables c
      = Throw (notNullWithoutDefault tableName newCol)
  | None => exists c', tablesChanges oldSchema st newTables c = Ok c'
  end.
Proof.
  revert c. induction newTables as [|[tableName newColumns] more IH];
    intros c; simpl.
  - now exists c.
  - destruct (JsSet.has tableName (newTableMatched st)) eqn:Hm.
    + pose proof (tableChanges_result oldSchema st tableName newColumns c Hm)
        as H.
      destruct (find _ newColumns).
      * now rewrite H.
      * destruct H as [c' ->]. simpl. apply IH.
    + unfold tableChanges. rewrite Hm. simpl. apply IH.
Qed.

Lemma firstOffending_Some oldSchema st newTables tableName newCol :
  firstOffending oldSchema st newTables = Some (tableName, newCol) ->
  exists newColumns,
    In (tableName, newColumns) newTables
    /\ JsSet.has tableName (newTableMatched st) = true
    /\ In newCol newColumns
    /\ JsMap.get (name newCol)
         (columnMapOf (oldColumnsFor oldSchema st tableName)) = None
    /\ notNull newCol = true
    /\ truthy_opt (defaultValue newCol) = false.
Proof.
  induction newTables as [|[t cols] more IH]; simpl; [discriminate|].
  assert (Hmore : firstOffending oldSchema st more = Some (tableName, newCol) ->
            exists newColumns,
              ((t, cols) = (tableName, newColumns)
               \/ In (tableName, newColumns) more)
              /\ JsSet.has tableName (newTableMatched st) = true
              /\ In newCol newColumns
              /\ JsMap.get (name newCol)
                   (columnMapOf (oldColumnsFor oldSchema st tableName)) = None
              /\ notNull newCol = true
              /\ truthy_opt (defaultValue newCol) = false).
  { intros H. destruct (IH H) as (cs & Hin & Hrest). exists cs. auto. }
  destruct (JsSet.has t (newTableMatched st)) eqn:Hm; [|exact Hmore].
  destruct (find _ cols) as [col|] eqn:Ef; [|exact Hmore].
  intros [= -> ->]. apply find_some in Ef. destruct Ef as [Hin Hoff].
  unfold offendingColumn in Hoff.
  destruct (JsMap.get (name newCol) _); [discriminate|].
  apply andb_true_iff in Hoff. destruct Hoff as [Hnn Hdef].
  apply negb_true_iff in Hdef.
  exists cols. repeat split; auto.
Qed.

Lemma firstOffending_None oldSchema st newTables :
  firstOffending oldSchema st newTables = None ->
  forall tableName newColumns newCol,
    In (tableName, newColumns) newTables ->
    JsSet.has tableName (newTableMatched st) = true ->
    In newCol newColumns ->
    JsMap.get (name newCol)
      (columnMapOf (oldColumnsFor oldSchema st tableName)) = None ->
    notNull newCol = true ->
    truthy_opt (defaultValue newCol) = true.
Proof.
  induction newTables as [|[t cols] more IH]; simpl; [tauto|].
  intros H tableName newColumns newCol [Heq | Hin] Hm Hc Hg Hnn.
  - injection Heq as -> ->. rewrite Hm in H.
    destruct (find _ newColumns) eqn:Ef; [discriminate|].
    pose proof (find_none _ _ Ef newCol Hc) as Hoff.
    unfold offendingColumn in Hoff. rewrite Hg, Hnn in Hoff. simpl in Hoff.
    now apply negb_false_iff in Hoff.
  - destruct (JsSet.has t (newTableMatched st)).
    + destruct (find _ cols); [discriminate|]. eapply IH; eassumption.
    + eapply IH; eassumption.
Qed.

Lemma firstOffending_sameMatching oldSchema st st' newTables :
  sameMatching st st' ->
  firstOffending oldSchema st newTables = firstOffending oldSchema st' newTables.
Proof.
  intros Hsame. induction newTables as [|[t cols] more IH]; simpl;
    [reflexivity|].
  rewrite (oldColumnsFor_sameMatching _ _ _ t Hsame), IH.
  destruct Hsame as (_ & -> & _). reflexivity.
Qed.

(** Apart from an enum that stands for an old composite type, the diff
    throws exactly for a NOT NULL column without default and without old
    counterpart in a matched table, with the message of the first one. *)
Lemma diff_throws_for_first_offending oldSchema newSchema :
  noEnumOverComposite oldSchema newSchema ->
  match firstOffending oldSchema (detectRenames oldSchema newSchema [])
                       (tables newSchema) with
  | Some (tableName, newCol) =>
      generateSchemaAltersInternal oldSchema newSchema
      = Throw (notNullWithoutDefault tableName newCol)
  | None =>
      exists result, generateSchemaAltersInternal oldSchema newSchema = Ok result
  end.
Proof.
  intros Hno. destruct (typeChanges_returns _ _ Hno) as [c1 E1].
  unfold generateSchemaAltersInternal. rewrite E1. simpl.
  rewrite (firstOffending_sameMatching oldSchema _ _ (tables newSchema)
             (detectRenames_sameMatching oldSchema newSchema [] c1)).
  pose proof (tablesChanges_result oldSchema
                (detectRenames oldSchema newSchema c1) (tables newSchema)
                (cmds (detectRenames oldSchema newSchema c1))) as H.
  destruct (firstOffending _ _ _) as [[tableName newCol]|].
  - now rewrite H.
  - destruct H as [c2 ->]. simpl. eexists. reflexivity.
Qed.

End DiffThrows.

(** ** The marks of rename detection *)

Section Marks.

Lemma map_has_set {V : Type} (n k : string) (v : V) (mp : JsMap.t V) :
  JsMap.has n (JsMap.set k v mp) = String.eqb k n || JsMap.has n mp.
Proof.
  unfold JsMap.has. rewrite map_get_set.
  destruct (String.eqb k n); reflexivity.
Qed.

Variable newTables : JsMap.t (list Column).

Lemma detectRename_marks seen st oldTableName oldColumns :
  marksOf newTables seen st ->
  ~ In oldTableName seen ->
  marksOf newTables (seen ++ [oldTableName])
          (detectRename newTables st (oldTableName, oldColumns)).
Proof.
  intros [Hold Hmap] Hfresh.
  assert (Hnomap : JsMap.has oldTableName (renameMap st) = false).
  { destruct (JsMap.has oldTableName (renameMap st)) eqn:E; [|reflexivity].
    exfalso. now apply Hfresh, Hmap. }
  unfold detectRename.
  destruct (JsMap.has oldTableName newTables) eqn:Hnew.
  - split; simpl.
    + intros n. rewrite set_add_In, Hold, in_app_iff. simpl.
      split.
      * intros [-> | [Hs Hc]]; [split; [right; now left | now left] | tauto].
      * intros [[Hs | [<- | []]] Hc]; tauto.
    + intros n Hn. apply in_app_iff. left. now apply Hmap.
  - assert (Hsame : marksOf newTables (seen ++ [oldTableName]) st).
    { split.
      - intros n. rewrite Hold, in_app_iff. simpl. split; [tauto|].
        intros [[Hs | [<- | []]] Hc]; [tauto|].
        rewrite Hnew, Hnomap in Hc. destruct Hc; discriminate.
      - intros n Hn. apply in_app_iff. left. now apply Hmap. }
    destruct (fst _) as [bestMatch|]; [|exact Hsame].
    destruct (truthy bestMatch); [|exact Hsame].
    split; simpl.
    + intros n. rewrite set_add_In, Hold, in_app_iff, map_has_set. simpl.
      rewrite orb_true_iff, String.eqb_eq. split.
      * intros [-> | [Hs Hc]]; [split; [right; now left | right; now left]|].
        split; [now left | tauto].
      * intros [[Hs | [<- | []]] Hc]; [|now left].
        destruct Hc as [Hc | [-> | Hc]]; [tauto | now left | tauto].
    + intros n. rewrite map_has_set, orb_true_iff, String.eqb_eq, in_app_iff.
      simpl. intros [<- | Hn]; [tauto | left; now apply Hmap].
Qed.

Lemma detectRenames_marks_fold (todo : list (string * list Column)) seen st :
  NoDup (seen ++ JsMap.keys todo) ->
  marksOf newTables seen st ->
  marksOf newTables (seen ++ JsMap.keys todo)
          (fold_left (detectRename newTables) todo st).
Proof.
  revert seen st. induction todo as [|[k cols] todo IH]; intros seen st Hnd H.
  - simpl. now rewrite app_nil_r.
  - simpl fold_left. simpl JsMap.keys in *.
    replace (seen ++ k :: JsMap.keys todo)%list
      with ((seen ++ [k]) ++ JsMap.keys todo)%list in *
      by now rewrite <- app_assoc.
    apply IH; [assumption|].
    apply detectRename_marks; [assumption|].
    apply NoDup_app_remove_r in Hnd.
    apply NoDup_remove_2 in Hnd. now rewrite app_nil_r in Hnd.
Qed.

End Marks.

(** After rename detection, the old tables that carry a mark are those that
    kept their name and those that were renamed. *)
Lemma oldTableMatched_iff (oldSchema newSchema : Schema) (n : string) :
  NoDup (JsMap.keys (tables oldSchema)) ->
  let st := detectRenames oldSchema newSchema [] in
  JsSet.has n (oldTableMatched st) = true
  <-> In n (JsMap.keys (tables oldSchema))
      /\ (JsMap.has n (tables newSchema) = true
          \/ JsMap.has n (renameMap st) = true).
Proof.
  intros Hnd st.
  pose proof (detectRenames_marks_fold (tables newSchema) (tables oldSchema)
                [] (mkMatching [] [] [] []) Hnd) as [H _].
  { split; simpl.
    - intros m. split; [tauto | intros [[] _]].
    - discriminate. }
  unfold JsSet.has. rewrite mem_In. apply H.
Qed.

(** A caution and DROP TABLE pair is pushed for an old table exactly when
    it neither kept its name nor was renamed; a replacement recorded in
    phase 5 plays no part. *)
Lemma drop_iff_unmarked (oldSchema newSchema : Schema) (n : string) :
  NoDup (JsMap.keys (tables oldSchema)) ->
  In n (JsMap.keys (tables oldSchema)) ->
  let st := detectRenames oldSchema newSchema [] in
  (dropTableEmits st n = [cautionComment n; dropTableCommand n]
   <-> JsMap.has n (tables newSchema) = false
       /\ JsMap.has n (renameMap st) = false)
  /\ (dropTableEmits st n = []
      <-> JsMap.has n (tables newSchema) = true
          \/ JsMap.has n (renameMap st) = true).
Proof.
  intros Hnd Hin st.
  pose proof (oldTableMatched_iff oldSchema newSchema n Hnd) as H.
  cbv zeta in H. fold st in H. unfold dropTableEmits.
  destruct (JsSet.has n (oldTableMatched st)) eqn:E.
  - destruct (proj1 H eq_refl) as [_ Hc]. split; split.
    + discriminate.
    + intros [H1 H2]. rewrite H1, H2 in Hc. destruct Hc; discriminate.
    + intros _. exact Hc.
    + reflexivity.
  - assert (Hn : ~ (JsMap.has n (tables newSchema) = true
                    \/ JsMap.has n (renameMap st) = true)).
    { intros Hc. assert (Ht : false = true) by (apply H; tauto).
      discriminate. }
    split; split.
    + intros _. destruct (JsMap.has n (tables newSchema));
        destruct (JsMap.has n (renameMap st)); tauto.
    + reflexivity.
    + discriminate.
    + intros Hc. now destruct Hn.
Qed.

(** ** The enums of a parsed schema *)

Section ParsedEnums.

Import RegExp Parser.

Lemma map_set_In {V : Type} (n k : string) (v v' : V) (mp : JsMap.t V) :
  In (n, v) (JsMap.set k v' mp) -> (n, v) = (k, v') \/ In (n, v) mp.
Proof.
  induction mp as [|[k0 v0] mp IH]; simpl.
  - intros [H | []]. left. now symmetry.
  - destruct (String.eqb k0 k); simpl.
    + intros [H | H]; [left; now symmetry | right; now right].
    + intros [H | H]; [right; now left|].
      destruct (IH H); [now left | right; now right].
Qed.

Lemma split_loop_nonempty r fuel q suffix piece :
  split_loop r fuel q suffix piece <> [].
Proof.
  revert q suffix piece. induction fuel as [|fuel IH]; intros q suffix piece;
    simpl; [discriminate|].
  destruct suffix as [|c tl]; [discriminate|].
  destruct (match_at r q (c :: tl)); [|apply IH].
  destruct (_ && _); [apply IH | discriminate].
Qed.

(** [s.split(r)] has a piece at least, unless [r] matches the empty
    string. *)
Lemma split_nonempty r s : match_at r 0 [] = None -> split r s <> [].
Proof.
  intros H. unfold split. destruct (list_ascii_of_string s).
  - rewrite H. discriminate.
  - apply split_loop_nonempty.
Qed.

Lemma enum_values_nonempty (g : string) :
  (length (map (fun v => trim (replace_all singleQuote "" v))
               (split valueSeparator g)) =? 0) = false.
Proof.
  rewrite length_map. apply Nat.eqb_neq.
  pose proof (split_nonempty valueSeparator g eq_refl) as H.
  destruct (split valueSeparator g); [congruence | discriminate].
Qed.

Lemma parseCreateType_enums schema s schema' :
  enumsNonEmpty schema ->
  parseCreateType schema s = Ok schema' ->
  enumsNonEmpty schema'.
Proof.
  intros Hinv. unfold parseCreateType.
  destruct (exec createType s) as [typeMatch|]; [|discriminate].
  destruct (truthy_opt (typeMatch 3)).
  - destruct (length _ =? 0) eqn:El; [discriminate|].
    intros [= <-] n vs Hin. simpl in Hin.
    apply map_set_In in Hin. destruct Hin as [Heq | Hin].
    + injection Heq as _ ->. intros Hnil. rewrite Hnil in El. discriminate.
    + exact (Hinv n vs Hin).
  - destruct (typeMatch 4); [|discriminate].
    intros [= <-] n vs Hin. simpl in Hin.
    apply map_set_In in Hin. destruct Hin as [Heq | Hin]; [discriminate|].
    exact (Hinv n vs Hin).
Qed.

Lemma parseCreateTable_types schema s schema' :
  parseCreateTable schema s = Ok schema' -> types schema' = types schema.
Proof.
  unfold parseCreateTable.
  destruct (exec createTable s) as [tableMatch|].
  - destruct (_ || _); [discriminate|].
    destruct (length _ =? 0); [discriminate|].
    destruct (parseColumns _ _ _); simpl; [|discriminate].
    now intros [= <-].
  - destruct (test startsCreateTable s); [discriminate | now intros [= <-]].
Qed.

Lemma parseStatement_enums schema stmt schema' :
  enumsNonEmpty schema ->
  parseStatement schema stmt = Ok schema' ->
  enumsNonEmpty schema'.
Proof.
  intros Hinv. unfold parseStatement.
  destruct (negb (truthy stmt)); [now intros [= <-]|].
  destruct (test startsCreateType _).
  - now apply parseCreateType_enums.
  - intros H. apply parseCreateTable_types in H.
    unfold enumsNonEmpty. now rewrite H.
Qed.

Lemma parseStatements_enums rawStatements schema schema' :
  enumsNonEmpty schema ->
  parseStatements schema rawStatements = Ok schema' ->
  enumsNonEmpty schema'.
Proof.
  revert schema. induction rawStatements as [|stmt more IH]; intros schema Hinv.
  - now intros [= <-].
  - simpl. destruct (parseStatement schema stmt) as [schema1|] eqn:E;
      simpl; [|discriminate].
    apply IH. eapply parseStatement_enums; eassumption.
Qed.

(** No schema returned by [parseSchema] has an enum without values. *)
Lemma parseSchema_enums_nonempty (statement : string) (schema : Schema) :
  parseSchema statement = Ok schema -> enumsNonEmpty schema.
Proof.
  unfold parseSchema.
  assert (H0 : enumsNonEmpty (mkSchema [] [])) by (intros n vs []).
  destruct (negb (truthy (clean statement))); [now intros [= <-]|].
  destruct (negb (_ =? _)); [discriminate|].
  now apply parseStatements_enums.
Qed.

Lemma parseConstraints_not_enum_error tableName tokens column e typeName :
  parseConstraints tableName tokens column = Throw e ->
  e <> enumWithoutValues typeName.
Proof.
  remember (length tokens) as n eqn:En.
  assert (Hn : length tokens <= n) by lia. clear En.
  revert tokens column Hn. induction n as [|n IH]; intros tokens column Hn.
  - destruct tokens; [discriminate | simpl in Hn; lia].
  - destruct tokens as [|tok more]; simpl; [discriminate|]. simpl in Hn.
    destruct (_ && _).
    + destruct more as [|next more']; [discriminate|].
      apply IH. simpl in Hn. lia.
    + destruct (String.eqb _ "DEFAULT").
      * destruct (_ || _); [|discriminate]. intros [= <-]. discriminate.
      * apply IH. lia.
Qed.

Lemma parseColumns_not_enum_error tableName columnDefs columns e typeName :
  parseColumns tableName columnDefs columns = Throw e ->
  e <> enumWithoutValues typeName.
Proof.
  revert columns. induction columnDefs as [|def more IH]; intros columns;
    simpl; [discriminate|].
  destruct (parseColumn tableName def) as [column|e'] eqn:E; simpl.
  - apply IH.
  - intros [= <-]. revert E. unfold parseColumn.
    destruct (length _ <? 2); [intros [= <-]; discriminate|].
    destruct (split spaces def) as [|columnName more'];
      [intros [= <-]; discriminate|].
    destruct (typeTokens more') as [typeParts after].
    destruct (negb _); [intros [= <-]; discriminate|].
    apply parseConstraints_not_enum_error.
Qed.

Lemma parseStatements_not_enum_error rawStatements schema e typeName :
  parseStatements schema rawStatements = Throw e ->
  e <> enumWithoutValues typeName.
Proof.
  revert schema. induction rawStatements as [|stmt more IH]; intros schema;
    simpl; [discriminate|].
  destruct (parseStatement schema stmt) as [schema1|e'] eqn:E; simpl;
    [apply IH|].
  intros [= <-]. revert E. unfold parseStatement.
  destruct (negb (truthy stmt)); [discriminate|].
  destruct (test startsCreateType _).
  - unfold parseCreateType.
    destruct (exec createType _) as [typeMatch|];
      [|intros [= <-]; discriminate].
    destruct (truthy_opt (typeMatch 3)).
    + rewrite enum_values_nonempty. discriminate.
    + destruct (typeMatch 4); [discriminate | intros [= <-]; discriminate].
  - unfold parseCreateTable.
    destruct (exec createTable _) as [tableMatch|].
    + destruct (_ || _); [intros [= <-]; discriminate|].
      destruct (length _ =? 0); [intros [= <-]; discriminate|].
      destruct (parseColumns _ _ _) as [columns|e''] eqn:Ec; simpl;
        [discriminate|].
      intros [= <-]. eapply parseColumns_not_enum_error; eassumption.
    + destruct (test startsCreateTable _);
        [intros [= <-]; discriminate | discriminate].
Qed.

(** The error [ENUM type '<name>' has no values] is thrown for no text at
    all: [split] always returns a piece, so line 378 never holds. *)
Lemma enum_error_unreachable (statement typeName : string) (e : JsError) :
  parseSchema statement = Throw e -> e <> enumWithoutValues typeName.
Proof.
  unfold parseSchema.
  destruct (negb (truthy (clean statement))); [discriminate|].
  destruct (negb (_ =? _)); [intros [= <-]; discriminate|].
  apply parseStatements_not_enum_error.
Qed.

End ParsedEnums.

(** ** Texts without statements *)

Section CommentOnly.

Import RegExp Parser.

Lemma space_is_not_dash (c : ascii) :
  is_space c = true -> Ascii.eqb "-" c = false.
Proof.
  intros H. destruct (Ascii.eqb_spec "-"%char c) as [<- |]; [discriminate|].
  reflexivity.
Qed.

Lemma space_is_not_quote (c : ascii) :
  is_space c = true ->
  existsb (Ascii.eqb c) [dquote; "`"%char] = false.
Proof.
  intros H. simpl.
  destruct (Ascii.eqb_spec c dquote) as [-> |]; [discriminate|].
  destruct (Ascii.eqb_spec c "`"%char) as [-> |]; [discriminate|].
  reflexivity.
Qed.

(** The lazy repetition of [.] followed by the line feed stops at the first
    line feed. *)
Lemma lazy_dots_then_newline (body tl : list ascii) (p n : nat)
  (cs : list (nat * (nat * nat))) :
  forallb (fun c => negb (is_line_terminator c)) body = true ->
  length body < n ->
  star_loop (m dot) false (fun st' => m (chr newline) st' Some) n
            (MState p (body ++ newline :: tl) cs)
  = Some (MState (S (p + length body)) tl cs).
Proof.
  revert p n. induction body as [|c body IH]; intros p n Hbody Hn.
  - destruct n; [lia|]. cbn [star_loop app m chr rest pos caps].
    rewrite Ascii.eqb_refl. now rewrite Nat.add_0_r.
  - cbn [forallb] in Hbody. apply andb_true_iff in Hbody.
    destruct Hbody as [Hc Hbody].
    destruct n; [simpl in Hn; lia|].
    assert (Hnl : Ascii.eqb newline c = false).
    { destruct (Ascii.eqb_spec newline c) as [<- |]; [discriminate|].
      reflexivity. }
    cbn [star_loop app m chr dot rest pos caps].
    rewrite Hnl, Hc.
    assert (Hlt : (p <? S p) = true) by (apply Nat.ltb_lt; lia).
    rewrite Hlt, IH by (simpl in Hn; auto; lia).
    f_equal. f_equal. simpl. lia.
Qed.

Lemma lineComment_at_comment (body tl : list ascii) (q : nat) :
  forallb (fun c => negb (is_line_terminator c)) body = true ->
  match_at lineComment q ("-"%char :: "-"%char :: body ++ newline :: tl)
  = Some (MState (S (S (S q) + length body)) tl []).
Proof.
  intros Hbody. unfold match_at, lineComment.
  cbn [lit m chr rest pos caps]. rewrite !Ascii.eqb_refl.
  cbn [m rest]. apply lazy_dots_then_newline; [assumption|].
  rewrite length_app. simpl. lia.
Qed.

Lemma lineComment_at_space (c : ascii) (tl : list ascii) (q : nat) :
  is_space c = true -> match_at lineComment q (c :: tl) = None.
Proof.
  intros H. unfold match_at, lineComment.
  cbn [lit m chr rest pos caps]. now rewrite (space_is_not_dash c H).
Qed.

(** Stripping the comments of such a text leaves white space. *)
Lemma strip_comments_leaves_space (fuel q : nat) (text : list ascii) :
  length text < fuel ->
  commentOnly text ->
  Forall (fun c => is_space c = true)
         (replace_loop lineComment [newline] fuel q text).
Proof.
  intros Hfuel Hco. revert fuel q Hfuel.
  induction Hco as [|c tl Hc Hco IH | body tl Hbody Hco IH]; intros fuel q Hfuel.
  - destruct fuel; [simpl in Hfuel; lia|]. simpl. constructor.
  - destruct fuel; [simpl in Hfuel; lia|].
    cbn [replace_loop]. rewrite (lineComment_at_space c tl q Hc).
    constructor; [assumption|]. apply IH. simpl in Hfuel. lia.
  - destruct fuel; [simpl in Hfuel; lia|].
    cbn [replace_loop]. rewrite (lineComment_at_comment body tl q Hbody).
    cbn [pos rest].
    assert (Hlt : (q <? S (S (S q) + length body)) = true)
      by (apply Nat.ltb_lt; lia).
    rewrite Hlt. simpl app. constructor; [reflexivity|].
    apply IH. simpl in Hfuel. rewrite length_app in Hfuel. simpl in Hfuel. lia.
Qed.

Lemma strip_quotes_of_space (fuel q : nat) (text : list ascii) :
  Forall (fun c => is_space c = true) text ->
  replace_loop quoteChars [] fuel q text = text.
Proof.
  intros H. revert fuel q. induction H as [|c tl Hc H IH]; intros fuel q.
  - destruct fuel; reflexivity.
  - destruct fuel; [reflexivity|].
    cbn [replace_loop]. unfold match_at, quoteChars, any_of.
    cbn [m rest]. rewrite (space_is_not_quote c Hc). now rewrite IH.
Qed.

Lemma trim_of_space (text : list ascii) :
  Forall (fun c => is_space c = true) text ->
  trim (string_of_list_ascii text) = "".
Proof.
  intros H. unfold trim.
  assert (E : trimStart (string_of_list_ascii text) = "").
  { induction H as [|c tl Hc H IH]; simpl; [reflexivity|]. now rewrite Hc. }
  now rewrite E.
Qed.

Lemma clean_commentOnly (statement : string) :
  commentOnly (list_ascii_of_string statement) -> clean statement = "".
Proof.
  intros H. unfold clean, replace_all.
  rewrite list_ascii_of_string_of_list_ascii.
  pose proof (strip_comments_leaves_space
                (S (length (list_ascii_of_string statement))) 0
                (list_ascii_of_string statement) (Nat.lt_succ_diag_r _) H)
    as Hspace.
  change (list_ascii_of_string (String newline ""))
    with [newline].
  change (list_ascii_of_string "") with (@nil ascii).
  rewrite strip_quotes_of_space by assumption.
  now apply trim_of_space.
Qed.

(** Where every comment ends with a line feed, a text of white space and
    comments parses to the empty schema. *)
Lemma parseSchema_commentOnly (statement : string) :
  commentOnly (list_ascii_of_string statement) ->
  parseSchema statement = Ok (mkSchema [] []).
Proof.
  intros H. unfold parseSchema.
  now rewrite (clean_commentOnly statement H).
Qed.

(** In particular for the empty text and for white space. *)
Lemma parseSchema_blank (statement : string) :
  forallb is_space (list_ascii_of_string statement) = true ->
  parseSchema statement = Ok (mkSchema [] []).
Proof.
  intros H. apply parseSchema_commentOnly.
  induction (list_ascii_of_string statement) as [|c tl IH].
  - constructor.
  - simpl in H. apply andb_true_iff in H. destruct H as [Hc Htl].
    apply commentOnly_space; [assumption | now apply IH].
Qed.

End CommentOnly.

(** ** The scenario of the README and of [test.js] *)

Example parse_person_old :
  parseSchema
    ("CREATE TYPE mood AS ENUM ('sad', 'ok', 'happy');" ++ nl
     ++ "CREATE TABLE person (" ++ nl
     ++ "    id SERIAL PRIMARY KEY," ++ nl
     ++ "    name VARCHAR(100)," ++ nl
     ++ "    current_mood mood DEFAULT 'ok'" ++ nl
     ++ ");" ++ nl
     ++ "CREATE TABLE test ( id SERIAL PRIMARY KEY);" ++ nl)
  = Ok Samples.personOld.
Proof. reflexivity. Qed.

Example diff_person :
  generateSchemaAltersInternal Samples.personOld Samples.personNew
  = Ok ["ALTER TABLE person RENAME TO user;";
        "ALTER TABLE user ADD COLUMN age INT;";
        "ALTER TABLE user ALTER COLUMN name TYPE VARCHAR(150);";
        "ALTER TABLE user ALTER COLUMN current_mood SET DEFAULT 'happy';";
        "-- CAUTION: This will permanently delete table 'test' and all its data!";
        "DROP TABLE test;"].
Proof. reflexivity. Qed.

(** The errors listed with the parser: unbalanced parentheses, a table
    without columns, a DEFAULT without value, and a new NOT NULL column
    without default at the boundary. *)
Example parse_unbalanced :
  parseSchema ("CREATE TABLE person (" ++ nl
               ++ "    id SERIAL PRIMARY KEY," ++ nl
               ++ "    name VARCHAR(100" ++ nl)
  = Throw (Error "Unbalanced parentheses: 2 opening, 0 closing").
Proof. reflexivity. Qed.

Example parse_no_columns :
  parseSchema "CREATE TABLE person ();"
  = Throw (Error "Table 'person' has no columns defined").
Proof. reflexivity. Qed.

Example parse_default_without_value :
  parseSchema "CREATE TABLE branch (id INTEGER PRIMARY KEY, logo TEXT DEFAULT);"
  = Throw (Parser.defaultWithoutValue "logo" "branch").
Proof. reflexivity. Qed.

Example boundary_not_null_without_default :
  generateSchemaAlters "CREATE TABLE t (a INT);"
                       "CREATE TABLE t (a INT, b INT NOT NULL);"
  = Ok ["-- ERROR: New column t.b is NOT NULL without default"].
Proof. reflexivity. Qed.

(** The trailing PRIMARY KEY of a type is stripped before the type is
    written after TYPE. *)
Example strip_primary_key :
  RegExp.replace_first primaryKeySuffix "" "SERIAL PRIMARY KEY" = "SERIAL"
  /\ RegExp.replace_first primaryKeySuffix "" "BOOLEAN   PRIMARY KEY" = "BOOLEAN"
  /\ RegExp.replace_first primaryKeySuffix "" "VARCHAR(10)" = "VARCHAR(10)".
Proof. repeat split. Qed.

(** * Further properties: the parser *)

Section ParserCounts.

Import RegExp Parser.

Lemma count_loop_chr (c : ascii) (l : list ascii) :
  forall fuel q, length l < fuel ->
    count_loop (chr c) fuel q l = count_occ ascii_dec l c.
Proof.
  induction l as [|x tl IH]; intros fuel q Hfuel.
  - destruct fuel; [simpl in Hfuel; lia | reflexivity].
  - destruct fuel; [simpl in Hfuel; lia|]. simpl in Hfuel.
    cbn [count_loop]. unfold match_at, chr. cbn [m rest pos caps].
    destruct (Ascii.eqb_spec c x) as [<- | Hne].
    + cbn [pos rest]. assert (Hlt : (q <? S q) = true) by (apply Nat.ltb_lt; lia).
      rewrite Hlt, count_occ_cons_eq by reflexivity.
      f_equal. apply IH. lia.
    + rewrite count_occ_cons_neq by congruence. apply IH. lia.
Qed.

Lemma match_count_chr (c : ascii) (s : string) :
  match_count (chr c) s = countChar c s.
Proof.
  unfold match_count, countChar. apply count_loop_chr. lia.
Qed.

End ParserCounts.

(** X2. When the cleaned text is not empty and holds different numbers of
    opening and closing parentheses, [parseSchema] throws the unbalanced
    parentheses error with the two numbers, whatever the statements are:
    the counts are those of the characters of the cleaned text. *)
Theorem unbalanced_parentheses_are_counted (statement : string) :
  truthy (Parser.clean statement) = true ->
  countChar "(" (Parser.clean statement)
  <> countChar ")" (Parser.clean statement) ->
  parseSchema statement
  = Throw (Parser.unbalanced (countChar "(" (Parser.clean statement))
                             (countChar ")" (Parser.clean statement))).
Proof.
  intros Hne Hcount. unfold parseSchema. rewrite Hne. cbn [negb].
  unfold Parser.openParen, Parser.closeParen. rewrite !match_count_chr.
  apply Nat.eqb_neq in Hcount. now rewrite Hcount.
Qed.

(** An opening parenthesis inside a stripped comment is not counted; the
    two of the statement are, against one closing parenthesis. *)
Lemma unbalanced_parentheses_are_counted_witness :
  parseSchema ("-- (" ++ nl ++ "CREATE TABLE t (a VARCHAR(10);")
  = Throw (Error "Unbalanced parentheses: 2 opening, 1 closing").
Proof.
  apply (unbalanced_parentheses_are_counted
           ("-- (" ++ nl ++ "CREATE TABLE t (a VARCHAR(10);")).
  - reflexivity.
  - vm_compute. discriminate.
Defined.

(** X1. A text made of white space and of line comments that each end with
    a line feed (and hold no carriage return) parses to the schema without
    types and tables; so do the empty text and a text of white space only. *)
Theorem comment_only_text_is_the_empty_schema (statement : string) :
  commentOnly (list_ascii_of_string statement) ->
  parseSchema statement = Ok (mkSchema [] []).
Proof. apply parseSchema_commentOnly. Qed.

Lemma comment_only_text_is_the_empty_schema_witness :
  parseSchema ("-- old (" ++ nl ++ " -- CREATE TABLE t (a int);" ++ nl)
  = Ok (mkSchema [] []).
Proof.
  apply comment_only_text_is_the_empty_schema.
  apply (commentOnly_comment (list_ascii_of_string " old (")); [reflexivity|].
  apply commentOnly_space; [reflexivity|].
  apply (commentOnly_comment
           (list_ascii_of_string " CREATE TABLE t (a int);") []);
    [reflexivity | constructor].
Defined.

Section ParsedColumns.

Import RegExp Parser.

(** What the constraint loop returns, read off the tokens. *)
Lemma parseConstraints_spec (tableName : string) (tokens : list string) :
  forall column,
    parseConstraints tableName tokens column
    = match snd (splitAtDefault tokens) with
      | None =>
          Ok (mkColumn (name column) (type column)
                (notNull column || hasNotNullPair (fst (splitAtDefault tokens)))
                (defaultValue column))
      | Some rest =>
          if blankDefault (join " " rest) then
            Throw (defaultWithoutValue (name column) tableName)
          else
            Ok (mkColumn (name column) (type column)
                  (notNull column
                   || hasNotNullPair (fst (splitAtDefault tokens)))
                  (Some (join " " rest)))
      end.
Proof.
  remember (length tokens) as n eqn:En.
  assert (Hn : length tokens <= n) by lia. clear En.
  revert tokens Hn. induction n as [|n IH]; intros tokens Hn column.
  - destruct tokens; [|simpl in Hn; lia]. simpl.
    destruct column as [cn ct cnn cd]. simpl. now rewrite orb_false_r.
  - destruct tokens as [|tok more].
    { simpl. destruct column as [cn ct cnn cd]. simpl.
      now rewrite orb_false_r. }
    simpl in Hn. cbn [parseConstraints splitAtDefault hasNotNullPair].
    destruct (String.eqb (toUpperCase tok) "NOT") eqn:Enot.
    + (* a NOT: it is not DEFAULT *)
      assert (Ed : String.eqb (toUpperCase tok) "DEFAULT" = false).
      { apply String.eqb_eq in Enot. rewrite Enot. reflexivity. }
      rewrite Ed. cbn [andb].
      destruct more as [|next more'].
      * (* nothing after it *)
        cbn [splitAtDefault fst snd hasNotNullPair parseConstraints].
        destruct column as [cn ct cnn cd]. cbn [name type notNull defaultValue].
        rewrite ?andb_false_r, ?orb_false_r. reflexivity.
      * destruct (String.eqb (toUpperCase next) "NULL") eqn:Enull.
        -- (* the pair NOT NULL *)
           assert (Ed' : String.eqb (toUpperCase next) "DEFAULT" = false).
           { apply String.eqb_eq in Enull. rewrite Enull. reflexivity. }
           rewrite (IH more' ltac:(simpl in Hn; lia)).
           cbn [splitAtDefault]. rewrite Ed'.
           destruct (splitAtDefault more') as [pre post]. cbn [fst snd name type notNull defaultValue].
           cbn [hasNotNullPair]. rewrite Enot, Enull. cbn [andb orb].
           rewrite !orb_true_r. reflexivity.
        -- (* a NOT alone *)
           rewrite (IH (next :: more') ltac:(simpl in *; lia)).
           destruct (splitAtDefault (next :: more')) as [pre post] eqn:Es.
           cbn [fst snd hasNotNullPair]. rewrite Enot.
           assert (Eh : match pre with
                        | next0 :: _ => String.eqb (toUpperCase next0) "NULL"
                        | [] => false
                        end = false).
           { cbn [splitAtDefault] in Es.
             destruct (String.eqb (toUpperCase next) "DEFAULT").
             - injection Es as <- _. reflexivity.
             - destruct (splitAtDefault more') as [pre' post'].
               injection Es as <- _. exact Enull. }
           rewrite Eh. reflexivity.
    + cbn [andb].
      destruct (String.eqb (toUpperCase tok) "DEFAULT") eqn:Ed.
      * cbn [fst snd hasNotNullPair]. unfold blankDefault.
        rewrite orb_false_r. reflexivity.
      * rewrite (IH more ltac:(lia)).
        destruct (splitAtDefault more) as [pre post].
        cbn [fst snd hasNotNullPair]. rewrite Enot. reflexivity.
Qed.

Lemma parseConstraints_parsed tableName tokens column column' :
  parsedColumn column = true ->
  parseConstraints tableName tokens column = Ok column' ->
  parsedColumn column' = true.
Proof.
  intros Hp. rewrite parseConstraints_spec.
  destruct (snd (splitAtDefault tokens)) as [rest|].
  - destruct (blankDefault (join " " rest)) eqn:Eb; [discriminate|].
    intros [= <-]. unfold parsedColumn in *. simpl.
    apply andb_true_iff in Hp. destruct Hp as [Ht _].
    now rewrite Ht, Eb.
  - intros [= <-]. exact Hp.
Qed.

Lemma parseColumn_parsed tableName def column :
  parseColumn tableName def = Ok column -> parsedColumn column = true.
Proof.
  unfold parseColumn. destruct (length _ <? 2); [discriminate|].
  destruct (split spaces def) as [|columnName more]; [discriminate|].
  destruct (typeTokens more) as [typeParts after].
  destruct (truthy (join " " typeParts)) eqn:Et; [|discriminate].
  cbn [negb]. apply parseConstraints_parsed.
  unfold parsedColumn. simpl. now rewrite Et.
Qed.

Lemma parseColumns_parsed tableName columnDefs :
  forall columns columns',
    forallb parsedColumn columns = true ->
    parseColumns tableName columnDefs columns = Ok columns' ->
    forallb parsedColumn columns' = true
    /\ length columns' = length columns + length columnDefs.
Proof.
  induction columnDefs as [|def more IH]; intros columns columns' Hp; simpl.
  - intros [= <-]. split; [assumption | lia].
  - destruct (parseColumn tableName def) as [column|] eqn:E; simpl;
      [|discriminate].
    intros H. apply IH in H.
    + destruct H as [H1 H2]. split; [assumption|].
      rewrite H2, length_app. simpl. lia.
    + rewrite forallb_app, Hp. simpl.
      now rewrite (parseColumn_parsed _ _ _ E).
Qed.

Lemma map_set_keys_NoDup {V : Type} (k : string) (v : V) (mp : JsMap.t V) :
  NoDup (JsMap.keys mp) -> NoDup (JsMap.keys (JsMap.set k v mp)).
Proof.
  induction mp as [|[k0 v0] mp IH]; simpl.
  - intros _. constructor; [intros [] | constructor].
  - intros Hnd. inversion Hnd as [|? ? Hnotin Hnd']; subst.
    destruct (String.eqb k0 k) eqn:E.
    + apply String.eqb_eq in E. subst k0. simpl. now constructor.
    + simpl. constructor; [|now apply IH].
      intros Hin. apply in_map_iff in Hin. destruct Hin as [[k1 v1] [Hk Hin]].
      simpl in Hk. subst k1. apply map_set_In in Hin.
      destruct Hin as [Heq | Hin].
      * injection Heq as -> _. now rewrite String.eqb_refl in E.
      * apply Hnotin. change k0 with (fst (k0, v1)). now apply in_map.
Qed.

End ParsedColumns.

Section ParsedSchema.

Import RegExp Parser.

Lemma parseCreateType_wf schema s schema' :
  wf_schema schema -> parsedTables (tables schema) ->
  parseCreateType schema s = Ok schema' ->
  wf_schema schema' /\ parsedTables (tables schema').
Proof.
  intros [Ht Hb] Hp. unfold parseCreateType.
  destruct (exec createType s) as [typeMatch|]; [|discriminate].
  destruct (truthy_opt (typeMatch 3)).
  - destruct (length _ =? 0); [discriminate|]. intros [= <-]. simpl.
    split; [split; [now apply map_set_keys_NoDup | assumption] | assumption].
  - destruct (typeMatch 4); [|discriminate]. intros [= <-]. simpl.
    split; [split; [now apply map_set_keys_NoDup | assumption] | assumption].
Qed.

Lemma parseCreateTable_wf schema s schema' :
  wf_schema schema -> parsedTables (tables schema) ->
  parseCreateTable schema s = Ok schema' ->
  wf_schema schema' /\ parsedTables (tables schema').
Proof.
  intros [Ht Hb] Hp. unfold parseCreateTable.
  destruct (exec createTable s) as [tableMatch|].
  - destruct (_ || _); [discriminate|].
    destruct (length _ =? 0) eqn:El; [discriminate|].
    destruct (parseColumns _ _ _) as [columns|] eqn:Ec; simpl; [|discriminate].
    intros [= <-]. simpl.
    apply parseColumns_parsed in Ec; [|reflexivity]. destruct Ec as [Hcols Hlen].
    split; [split; [assumption | now apply map_set_keys_NoDup]|].
    intros tableName cols Hin. apply map_set_In in Hin.
    destruct Hin as [Heq | Hin]; [|exact (Hp _ _ Hin)].
    injection Heq as _ ->. split; [|assumption].
    apply Nat.eqb_neq in El. simpl in Hlen. lia.
  - destruct (test startsCreateTable s); [discriminate|].
    intros [= <-]. now split.
Qed.

Lemma parseStatements_wf rawStatements :
  forall schema schema',
    wf_schema schema -> parsedTables (tables schema) ->
    parseStatements schema rawStatements = Ok schema' ->
    wf_schema schema' /\ parsedTables (tables schema').
Proof.
  induction rawStatements as [|stmt more IH]; intros schema schema' Hwf Hp.
  - intros [= <-]. now split.
  - simpl. destruct (parseStatement schema stmt) as [schema1|] eqn:E;
      simpl; [|discriminate].
    assert (H1 : wf_schema schema1 /\ parsedTables (tables schema1)).
    { revert E. unfold parseStatement.
      destruct (negb (truthy stmt)); [intros [= <-]; now split|].
      destruct (test startsCreateType _).
      - now apply parseCreateType_wf.
      - now apply parseCreateTable_wf. }
    destruct H1. now apply IH.
Qed.

Lemma parseSchema_wf statement schema :
  parseSchema statement = Ok schema ->
  wf_schema schema /\ parsedTables (tables schema).
Proof.
  unfold parseSchema.
  assert (H0 : wf_schema (mkSchema [] []) /\ parsedTables [])
    by (split; [split; cbn; apply NoDup_nil | intros ? ? []]).
  destruct (negb (truthy (clean statement))); [now intros [= <-]|].
  destruct (negb (_ =? _)); [discriminate|].
  destruct H0. now apply parseStatements_wf.
Qed.

(** The errors of the constraint loop, of a column, of the columns and of
    the statements do not start like the error of line 379. *)
Lemma parseConstraints_other_error tableName tokens column e :
  parseConstraints tableName tokens column = Throw e -> isEnumError e = false.
Proof.
  rewrite parseConstraints_spec.
  destruct (snd (splitAtDefault tokens)) as [rest|]; [|discriminate].
  destruct (blankDefault _); [|discriminate]. now intros [= <-].
Qed.

Lemma parseColumns_other_error tableName columnDefs columns e :
  parseColumns tableName columnDefs columns = Throw e -> isEnumError e = false.
Proof.
  revert columns. induction columnDefs as [|def more IH]; intros columns;
    simpl; [discriminate|].
  destruct (parseColumn tableName def) as [column|e'] eqn:E; simpl;
    [apply IH|].
  intros [= <-]. revert E. unfold parseColumn.
  destruct (length _ <? 2); [now intros [= <-]|].
  destruct (split spaces def) as [|columnName more']; [now intros [= <-]|].
  destruct (typeTokens more') as [typeParts after].
  destruct (negb _); [now intros [= <-]|].
  apply parseConstraints_other_error.
Qed.

Lemma parseStatements_other_error rawStatements schema e :
  parseStatements schema rawStatements = Throw e -> isEnumError e = false.
Proof.
  revert schema. induction rawStatements as [|stmt more IH]; intros schema;
    simpl; [discriminate|].
  destruct (parseStatement schema stmt) as [schema1|e'] eqn:E; simpl;
    [apply IH|].
  intros [= <-]. revert E. unfold parseStatement.
  destruct (negb (truthy stmt)); [discriminate|].
  destruct (test startsCreateType _).
  - unfold parseCreateType.
    destruct (exec createType _) as [typeMatch|]; [|now intros [= <-]].
    destruct (truthy_opt (typeMatch 3)).
    + rewrite enum_values_nonempty. discriminate.
    + destruct (typeMatch 4); [discriminate | now intros [= <-]].
  - unfold parseCreateTable.
    destruct (exec createTable _) as [tableMatch|].
    + destruct (_ || _); [now intros [= <-]|].
      destruct (length _ =? 0); [now intros [= <-]|].
      destruct (parseColumns _ _ _) as [columns|e''] eqn:Ec; simpl;
        [discriminate|].
      intros [= <-]. eapply parseColumns_other_error; eassumption.
    + destruct (test startsCreateTable _); [now intros [= <-] | discriminate].
Qed.

End ParsedSchema.

(** X6. The constraint loop of a column sets [notNull] exactly when a NOT
    token with a NULL token right after it stands before the first DEFAULT
    token (keywords in any case); the first DEFAULT token takes all the
    tokens after it, joined by single spaces, as the default value, a later
    NOT NULL included, and throws when they are missing or blank; every
    other token is skipped, and name and type are kept. *)
Theorem constraints_of_a_column (tableName : string) (tokens : list string)
  (column : Column) :
  Parser.parseConstraints tableName tokens column
  = match snd (splitAtDefault tokens) with
    | None =>
        Ok (mkColumn (name column) (type column)
              (notNull column || hasNotNullPair (fst (splitAtDefault tokens)))
              (defaultValue column))
    | Some rest =>
        if blankDefault (join " " rest) then
          Throw (Parser.defaultWithoutValue (name column) tableName)
        else
          Ok (mkColumn (name column) (type column)
                (notNull column
                 || hasNotNullPair (fst (splitAtDefault tokens)))
                (Some (join " " rest)))
    end.
Proof. apply parseConstraints_spec. Qed.

(** X5. A schema returned by [parseSchema] has one entry per type name and
    per table name, every table has a column at least, every column a type
    text that is not empty, and every default that is present is neither
    empty nor white space. *)
Theorem parsed_schema_is_well_formed (statement : string) (schema : Schema) :
  parseSchema statement = Ok schema ->
  wf_schema schema /\ parsedTables (tables schema).
Proof. apply parseSchema_wf. Qed.

Lemma parsed_schema_is_well_formed_witness :
  wf_schema Samples.personOld /\ parsedTables (tables Samples.personOld).
Proof.
  apply (parsed_schema_is_well_formed
           ("CREATE TYPE mood AS ENUM ('sad', 'ok', 'happy');" ++ nl
            ++ "CREATE TABLE person (" ++ nl
            ++ "    id SERIAL PRIMARY KEY," ++ nl
            ++ "    name VARCHAR(100)," ++ nl
            ++ "    current_mood mood DEFAULT 'ok'" ++ nl
            ++ ");" ++ nl
            ++ "CREATE TABLE test ( id SERIAL PRIMARY KEY);" ++ nl)).
  reflexivity.
Defined.

(** X3. Every enum of a schema returned by [parseSchema] has a value at
    least. *)
Theorem parsed_enums_have_values (statement : string) (schema : Schema)
  (typeName : string) (vs : list string) :
  parseSchema statement = Ok schema ->
  In (typeName, Enum vs) (types schema) ->
  0 < length vs.
Proof.
  intros Hparse Hin.
  pose proof (parseSchema_enums_nonempty statement schema Hparse typeName vs Hin).
  destruct vs; [congruence | simpl; lia].
Qed.

Lemma parsed_enums_have_values_witness : 0 < length ["sad"; "ok"].
Proof.
  apply (parsed_enums_have_values "CREATE TYPE mood AS ENUM ('sad', 'ok');"
           (mkSchema [("mood", Enum ["sad"; "ok"])] []) "mood" ["sad"; "ok"]).
  - reflexivity.
  - now left.
Defined.

(** X4. No text makes [parseSchema] throw the error of line 379, [ENUM
    type '<name>' has no values]: the message of whatever it throws starts
    otherwise. *)
Theorem enum_without_values_is_never_reported (statement : string)
  (e : JsError) :
  parseSchema statement = Throw e ->
  String.prefix "ENUM type '" (message e) = false.
Proof.
  unfold parseSchema.
  destruct (negb (truthy (Parser.clean statement))); [discriminate|].
  destruct (negb (_ =? _)); [now intros [= <-]|].
  apply parseStatements_other_error.
Qed.

Lemma enum_without_values_is_never_reported_witness :
  String.prefix "ENUM type '"
    "Invalid CREATE TYPE syntax: CREATE TYPE mood ENUM ()..." = false.
Proof.
  apply (enum_without_values_is_never_reported "CREATE TYPE mood ENUM ();"
           (Error "Invalid CREATE TYPE syntax: CREATE TYPE mood ENUM ()...")).
  reflexivity.
Defined.

(** * Further properties: the differencer *)

(** Under [ownLookups] the reads of lines 53, 102 and 242 find exactly
    what the objects own. *)
Lemma ownLookups_found (oldSchema newSchema : Schema) :
  ownLookups oldSchema newSchema ->
  (forall n, In n (JsMap.keys (types newSchema)) ->
     found n (types oldSchema) = JsMap.has n (types oldSchema))
  /\ (forall n, In n (JsMap.keys (tables oldSchema)) ->
        found n (tables newSchema) = JsMap.has n (tables newSchema)).
Proof.
  unfold ownLookups, found. intros H. apply andb_true_iff in H.
  destruct H as [Ht Hb]. split; intros n Hin.
  - apply (proj1 (forallb_forall _ _) Ht) in Hin.
    destruct (JsMap.has n (types oldSchema)); [reflexivity|].
    simpl in Hin. apply negb_true_iff in Hin. now rewrite Hin.
  - apply (proj1 (forallb_forall _ _) Hb) in Hin.
    destruct (JsMap.has n (tables newSchema)); [reflexivity|].
    simpl in Hin. apply negb_true_iff in Hin. now rewrite Hin.
Qed.

(** X7. Where the names looked up are found where the objects own them
    ([ownLookups]) and no enum of the new schema stands for a composite
    type of the old one, the diff throws exactly when a matched table has
    a new column without old counterpart that is NOT NULL and has no
    default, with the message of the first such column in the order of the
    new schema; otherwise it returns. *)
Theorem diff_throws_for_the_first_offending_column
  (oldSchema newSchema : Schema) :
  ownLookups oldSchema newSchema ->
  noEnumOverComposite oldSchema newSchema ->
  match firstOffending oldSchema (detectRenames oldSchema newSchema [])
                       (tables newSchema) with
  | Some (tableName, newCol) =>
      generateSchemaAltersInternal oldSchema newSchema
      = Throw (notNullWithoutDefault tableName newCol)
  | None =>
      exists result, generateSchemaAltersInternal oldSchema newSchema = Ok result
  end.
Proof. intros _. apply diff_throws_for_first_offending. Qed.

Lemma diff_throws_for_the_first_offending_column_witness :
  generateSchemaAltersInternal
    (mkSchema [] [("t", [Samples.col "id" "INT"])])
    (mkSchema [] [("t", [Samples.col "id" "INT";
                         mkColumn "x" "INT" true None;
                         mkColumn "y" "INT" true None])])
  = Throw (Error "New column t.x is NOT NULL without default").
Proof.
  apply (diff_throws_for_the_first_offending_column
           (mkSchema [] [("t", [Samples.col "id" "INT"])])
           (mkSchema [] [("t", [Samples.col "id" "INT";
                                mkColumn "x" "INT" true None;
                                mkColumn "y" "INT" true None])])).
  - reflexivity.
  - intros typeName newValues d [].
Defined.



(** X17. A column present on both sides yields no command exactly when
    its type text, its default and its NOT NULL flag are those of the old
    column. *)
Theorem unchanged_column_yields_no_command (tableName : string)
  (oldCol newCol : Column) :
  modifyColumn tableName oldCol newCol = []
  <-> type newCol = type oldCol
      /\ defaultValue newCol = defaultValue oldCol
      /\ notNull newCol = notNull oldCol.
Proof.
  unfold modifyColumn, notNullCommands, typeChangeCommands. split.
  - intros H. apply app_eq_nil in H. destruct H as [H1 H2].
    destruct (String.eqb_spec (type newCol) (type oldCol)) as [Ht | Ht];
      simpl in H1.
    + split; [assumption|].
      destruct (strict_neq (defaultValue newCol) (defaultValue oldCol)) eqn:Ed.
      * destruct (truthy_opt (defaultValue newCol)); discriminate.
      * apply strict_neq_false_iff in Ed. split; [assumption|].
        destruct (notNull newCol), (notNull oldCol);
          simpl in H2; congruence.
    + destruct (truthy_opt (defaultValue oldCol)); discriminate.
  - intros (Ht & Hd & Hn). rewrite Ht, Hd, Hn.
    now rewrite String.eqb_refl, strict_neq_refl, Bool.eqb_reflx.
Qed.

Section SimilarityExtremes.

Lemma ratio_same (u : nat) : 0 < u -> (ratio u u == 1)%Q.
Proof.
  intros Hu. unfold ratio, Qeq. simpl.
  rewrite Z.mul_1_r, <- positive_nat_Z, Nat2Pos.id by lia. reflexivity.
Qed.

Lemma names_nil (a : list Column) :
  (forall n, ~ In n (map name a)) -> a = [].
Proof.
  destruct a as [|c a]; [reflexivity|].
  intros H. exfalso. apply (H (name c)). now left.
Qed.

Lemma columnSimilarity_same_names (a b : list Column) :
  (forall n, In n (map name a) <-> In n (map name b)) ->
  (columnSimilarity a b == 1)%Q.
Proof.
  intros Hsame.
  destruct a as [|ca a'].
  - assert (Hb : b = []).
    { apply names_nil. intros n Hn. now apply Hsame in Hn. }
    subst b. reflexivity.
  - destruct b as [|cb b'].
    + exfalso. apply (proj1 (Hsame (name ca))). now left.
    + rewrite columnSimilarity_nonempty by discriminate. cbv zeta.
      assert (Hlen : length (intersectionOf (ca :: a') (cb :: b'))
                     = length (unionOf (ca :: a') (cb :: b'))).
      { apply same_set_same_length.
        - apply intersectionOf_NoDup.
        - apply unionOf_NoDup.
        - intros n. rewrite intersectionOf_In, unionOf_In.
          specialize (Hsame n). tauto. }
      rewrite Hlen.
      pose proof (union_positive (ca :: a') (cb :: b')) as Hpos.
      assert (Hu : 0 < length (unionOf (ca :: a') (cb :: b')))
        by (apply Hpos; discriminate).
      pose proof (ratio_same _ Hu) as Hone.
      assert (Hnot : Qlt_bool (ratio (length (unionOf (ca :: a') (cb :: b')))
                                     (length (unionOf (ca :: a') (cb :: b'))))
                              (7 # 10) = false).
      { apply Qlt_bool_false_iff. rewrite Hone. discriminate. }
      rewrite Hnot, andb_false_r. exact Hone.
Qed.

Lemma columnSimilarity_disjoint (a b : list Column) :
  (forall n, In n (map name a) -> ~ In n (map name b)) ->
  a <> [] \/ b <> [] ->
  columnSimilarity a b = 0%Q.
Proof.
  intros Hdis Hne.
  destruct a as [|ca a']; [destruct b; [tauto | reflexivity]|].
  destruct b as [|cb b']; [reflexivity|].
  rewrite columnSimilarity_nonempty by discriminate. cbv zeta.
  assert (Hi : intersectionOf (ca :: a') (cb :: b') = []).
  { destruct (intersectionOf (ca :: a') (cb :: b')) as [|n l] eqn:E;
      [reflexivity|].
    assert (Hin : In n (intersectionOf (ca :: a') (cb :: b')))
      by (rewrite E; now left).
    apply intersectionOf_In in Hin. destruct Hin as [H1 H2].
    now destruct (Hdis n H1). }
  rewrite Hi. reflexivity.
Qed.

End SimilarityExtremes.

(** X18. Two tables with the same set of column names score 1, whatever
    the order, the number of repetitions, the types and the constraints of
    their columns. *)
Theorem same_names_score_one (oldCols newCols : list Column) :
  (forall n, In n (map name oldCols) <-> In n (map name newCols)) ->
  (columnSimilarity oldCols newCols == 1)%Q.
Proof. apply columnSimilarity_same_names. Qed.

Lemma same_names_score_one_witness :
  (columnSimilarity
     [Samples.col "id" "INT"; Samples.col "name" "TEXT"]
     [Samples.col "name" "VARCHAR(10)"; Samples.col "id" "BIGINT";
      Samples.col "id" "INT"] == 1)%Q.
Proof.
  apply (same_names_score_one
           [Samples.col "id" "INT"; Samples.col "name" "TEXT"]
           [Samples.col "name" "VARCHAR(10)"; Samples.col "id" "BIGINT";
            Samples.col "id" "INT"]).
  intros n. simpl. tauto.
Defined.

(** X25. Two tables without a common column name, one of them at least
    with a column, score 0. *)
Theorem no_common_name_scores_zero (oldCols newCols : list Column) :
  (forall n, In n (map name oldCols) -> ~ In n (map name newCols)) ->
  oldCols <> [] \/ newCols <> [] ->
  columnSimilarity oldCols newCols = 0%Q.
Proof. apply columnSimilarity_disjoint. Qed.

Lemma no_common_name_scores_zero_witness :
  columnSimilarity [Samples.col "id" "INT"] [Samples.col "key" "INT"] = 0%Q.
Proof.
  apply (no_common_name_scores_zero
           [Samples.col "id" "INT"] [Samples.col "key" "INT"]).
  - intros n [<- | []] [H | []]. discriminate.
  - left. discriminate.
Defined.

Section Phases.

Lemma addNewColumns_closed tableName columnMap newColumns c :
  addNewColumns tableName columnMap newColumns c
  = match find (offendingColumn columnMap) newColumns with
    | Some newCol => Throw (notNullWithoutDefault tableName newCol)
    | None =>
        Ok (c ++ flat_map (addColumnEmits tableName columnMap) newColumns)%list
    end.
Proof.
  revert c. induction newColumns as [|newCol more IH]; intros c;
    cbn [addNewColumns find flat_map].
  - now rewrite app_nil_r.
  - unfold offendingColumn at 1. unfold addColumnEmits at 1.
    destruct (JsMap.get (name newCol) columnMap); [apply IH|].
    destruct (notNull newCol && negb (truthy_opt (defaultValue newCol)));
      [reflexivity|].
    rewrite IH. destruct (find _ more); [reflexivity|].
    unfold push. now rewrite <- app_assoc.
Qed.

Lemma removeDeletedColumns_emits tableName oldColumns newColumns c :
  removeDeletedColumns tableName oldColumns newColumns c
  = (c ++ flat_map (dropColumnEmits tableName newColumns) oldColumns)%list.
Proof.
  apply fold_left_emits. intros c0 oldCol. unfold dropColumnEmits.
  destruct (find _ newColumns); [now rewrite app_nil_r | reflexivity].
Qed.

Lemma tableChanges_closed oldSchema st tableName newColumns c :
  JsSet.has tableName (newTableMatched st) = true ->
  tableChanges oldSchema st tableName newColumns c
  = let oldColumns := oldColumnsFor oldSchema st tableName in
    let columnMap := columnMapOf oldColumns in
    match find (offendingColumn columnMap) newColumns with
    | Some newCol => Throw (notNullWithoutDefault tableName newCol)
    | None =>
        Ok (c ++ flat_map (addColumnEmits tableName columnMap) newColumns
              ++ flat_map (modifyExistingEmits tableName columnMap) newColumns
              ++ flat_map (dropColumnEmits tableName newColumns) oldColumns)%list
    end.
Proof.
  intros Hm. unfold tableChanges. rewrite Hm. cbv zeta. simpl negb. cbv iota.
  rewrite addNewColumns_closed.
  destruct (find _ newColumns); [reflexivity|]. simpl.
  now rewrite modifyExistingColumns_emits, removeDeletedColumns_emits,
    <- !app_assoc.
Qed.

Lemma tableChanges_acc oldSchema st tableName newColumns c :
  tableChanges oldSchema st tableName newColumns c
  = (r <- tableChanges oldSchema st tableName newColumns [] ;;
     Ok (c ++ r)%list).
Proof.
  destruct (JsSet.has tableName (newTableMatched st)) eqn:Hm.
  - rewrite !tableChanges_closed by assumption. cbv zeta.
    destruct (find _ newColumns); reflexivity.
  - unfold tableChanges. rewrite Hm. simpl. now rewrite app_nil_r.
Qed.

Lemma tablesChanges_acc oldSchema st newTables c :
  tablesChanges oldSchema st newTables c
  = (r <- tablesChanges oldSchema st newTables [] ;; Ok (c ++ r)%list).
Proof.
  revert c. induction newTables as [|[tableName newColumns] more IH];
    intros c; simpl.
  - now rewrite app_nil_r.
  - rewrite tableChanges_acc.
    destruct (tableChanges oldSchema st tableName newColumns []) as [r|e];
      simpl; [|reflexivity].
    rewrite IH, (IH r).
    destruct (tablesChanges oldSchema st more []) as [r'|e]; simpl;
      [|reflexivity].
    now rewrite app_assoc.
Qed.

Lemma tablesChanges_sameMatching oldSchema st st' newTables c :
  sameMatching st st' ->
  tablesChanges oldSchema st newTables c
  = tablesChanges oldSchema st' newTables c.
Proof.
  intros Hsame. revert c.
  induction newTables as [|[tableName newColumns] more IH]; intros c; simpl;
    [reflexivity|].
  assert (H : tableChanges oldSchema st tableName newColumns c
              = tableChanges oldSchema st' tableName newColumns c).
  { unfold tableChanges.
    rewrite (oldColumnsFor_sameMatching _ _ _ tableName Hsame).
    destruct Hsame as (_ & -> & _). reflexivity. }
  rewrite H. destruct (tableChanges oldSchema st' _ _ _); simpl;
    [apply IH | reflexivity].
Qed.

Lemma detectRenames_cmds oldSchema newSchema c :
  cmds (detectRenames oldSchema newSchema c)
  = (c ++ cmds (detectRenames oldSchema newSchema []))%list.
Proof.
  unfold detectRenames.
  assert (H0 : sameMatching (mkMatching c [] [] []) (mkMatching [] [] [] [])
               /\ cmds (mkMatching c [] [] [])
                  = (c ++ cmds (mkMatching [] [] [] []))%list).
  { split; [now repeat split | simpl; now rewrite app_nil_r]. }
  revert H0. generalize (mkMatching c [] [] []) (mkMatching [] [] [] []).
  induction (tables oldSchema) as [|[oldTableName oldColumns] l IH];
    intros st st' [Hsame Hc]; cbn [fold_left].
  - assumption.
  - apply IH. split; [now apply detectRename_sameMatching|].
    destruct Hsame as (Ho & Hn & Hr). unfold detectRename. rewrite <- Hn.
    destruct (JsMap.has oldTableName (tables newSchema)); [exact Hc|].
    destruct (fst _) as [bestMatch|]; [|exact Hc].
    destruct (truthy bestMatch); [|exact Hc].
    simpl. unfold push. now rewrite Hc, app_assoc.
Qed.

Lemma createNewTypes_emits oldSchema newSchema c :
  createNewTypes oldSchema newSchema c
  = (c ++ flat_map (newTypeEmits oldSchema newSchema)
                   (JsMap.keys (types newSchema)))%list.
Proof.
  apply fold_left_emits. intros c0 typeName. unfold newTypeEmits.
  destruct (JsMap.has _ _); [now rewrite app_nil_r|].
  destruct (JsMap.get _ _) as [[vs|d]|]; try now rewrite app_nil_r.
  reflexivity.
Qed.

Lemma createNewTable_acc oldSchema st tableReplacements c entry :
  createNewTable oldSchema st tableReplacements c entry
  = (c ++ createNewTable oldSchema st tableReplacements [] entry)%list.
Proof.
  unfold createNewTable. destruct entry as [newTableName newColumns].
  destruct (JsSet.has _ _); [now rewrite app_nil_r|]. cbv zeta.
  destruct (keyOfValue _ _) as [oldTableName|]; [|reflexivity].
  destruct (truthy oldTableName); [|reflexivity].
  unfold migrateData. cbv zeta. destruct (0 <? _); [|reflexivity].
  unfold push. simpl. now rewrite <- !app_assoc.
Qed.

Lemma createNewTables_acc oldSchema newSchema st tableReplacements c :
  createNewTables oldSchema newSchema st tableReplacements c
  = (c ++ createNewTables oldSchema newSchema st tableReplacements [])%list.
Proof.
  unfold createNewTables.
  rewrite (fold_left_emits (createNewTable oldSchema st tableReplacements)
             (createNewTable oldSchema st tableReplacements [])
             (createNewTable_acc oldSchema st tableReplacements)).
  now rewrite (fold_left_emits (createNewTable oldSchema st tableReplacements)
                 (createNewTable oldSchema st tableReplacements [])
                 (createNewTable_acc oldSchema st tableReplacements)
                 (tables newSchema) []).
Qed.

Lemma detectReplacements_sameMatching oldSchema newSchema st st' :
  sameMatching st st' ->
  detectReplacements oldSchema newSchema st
  = detectReplacements oldSchema newSchema st'.
Proof.
  intros (Ho & Hn & _). unfold detectReplacements.
  generalize (@nil (string * string)).
  induction (tables oldSchema) as [|[oldTableName oldColumns] l IH];
    intros acc; cbn [fold_left]; [reflexivity|].
  assert (H : detectReplacement newSchema st acc (oldTableName, oldColumns)
              = detectReplacement newSchema st' acc (oldTableName, oldColumns))
    by (unfold detectReplacement; now rewrite Ho, Hn).
  rewrite H. apply IH.
Qed.

Lemma createNewTables_sameMatching oldSchema newSchema st st' repl c :
  sameMatching st st' ->
  createNewTables oldSchema newSchema st repl c
  = createNewTables oldSchema newSchema st' repl c.
Proof.
  intros (_ & Hn & _). unfold createNewTables. revert c.
  induction (tables newSchema) as [|[newTableName newColumns] l IH];
    intros c; cbn [fold_left]; [reflexivity|].
  assert (H : createNewTable oldSchema st repl c (newTableName, newColumns)
              = createNewTable oldSchema st' repl c (newTableName, newColumns))
    by (unfold createNewTable; now rewrite Hn).
  rewrite H. apply IH.
Qed.

Lemma dropTableEmits_sameMatching st st' :
  sameMatching st st' ->
  forall n, dropTableEmits st n = dropTableEmits st' n.
Proof. intros (Ho & _ & _) n. unfold dropTableEmits. now rewrite Ho. Qed.

Lemma generateSchemaAltersInternal_phases (oldSchema newSchema : Schema) :
  generateSchemaAltersInternal oldSchema newSchema
  = let st := detectRenames oldSchema newSchema [] in
    typeCmds <- typeChanges (types oldSchema) (types newSchema) [] ;;
    columnCmds <- tablesChanges oldSchema st (tables newSchema) [] ;;
    Ok (typeCmds ++ cmds st ++ columnCmds
          ++ flat_map (newTypeEmits oldSchema newSchema)
                      (JsMap.keys (types newSchema))
          ++ createNewTables oldSchema newSchema st
               (detectReplacements oldSchema newSchema st) []
          ++ flat_map (dropTableEmits st) (JsMap.keys (tables oldSchema)))%list.
Proof.
  unfold generateSchemaAltersInternal. cbv zeta.
  destruct (typeChanges (types oldSchema) (types newSchema) []) as [c1|e];
    simpl; [|reflexivity].
  pose proof (detectRenames_sameMatching oldSchema newSchema c1 []) as Hsame.
  rewrite (tablesChanges_sameMatching _ _ _ _ _ Hsame), tablesChanges_acc.
  destruct (tablesChanges oldSchema (detectRenames oldSchema newSchema [])
              (tables newSchema) []) as [c2|e]; simpl; [|reflexivity].
  rewrite dropTables_emits, createNewTables_acc, createNewTypes_emits.
  rewrite (detectReplacements_sameMatching _ _ _ _ Hsame).
  rewrite (createNewTables_sameMatching _ _ _ _ _ _ Hsame).
  rewrite (flat_map_ext _ _ (dropTableEmits_sameMatching _ _ Hsame)).
  rewrite detectRenames_cmds. now rewrite <- !app_assoc.
Qed.

End Phases.

(** X9. The commands of the diff are those of its six phases in the order
    of the source: type changes, renames, column changes of the matched
    tables, new types, new tables, dropped tables.  What a phase pushes
    does not depend on the commands pushed before it, and the diff throws
    when the type phase does, or else when the column phase does. *)
Theorem diff_is_its_phases_in_order (oldSchema newSchema : Schema) :
  generateSchemaAltersInternal oldSchema newSchema
  = let st := detectRenames oldSchema newSchema [] in
    typeCmds <- typeChanges (types oldSchema) (types newSchema) [] ;;
    columnCmds <- tablesChanges oldSchema st (tables newSchema) [] ;;
    Ok (typeCmds ++ cmds st ++ columnCmds
          ++ flat_map (newTypeEmits oldSchema newSchema)
                      (JsMap.keys (types newSchema))
          ++ createNewTables oldSchema newSchema st
               (detectReplacements oldSchema newSchema st) []
          ++ flat_map (dropTableEmits st) (JsMap.keys (tables oldSchema)))%list.
Proof. apply generateSchemaAltersInternal_phases. Qed.

(** X16. A matched table of the new schema pushes, in this order, an ADD
    COLUMN for each of its columns without old counterpart, the changes of
    its columns that have one, and a DROP COLUMN for each old column whose
    name is gone; it throws instead, and pushes nothing, when one of the
    added columns is NOT NULL without default. *)
Theorem matched_table_adds_alters_then_drops (oldSchema : Schema)
  (st : Matching) (tableName : string) (newColumns : list Column)
  (c : list string) :
  JsSet.has tableName (newTableMatched st) = true ->
  tableChanges oldSchema st tableName newColumns c
  = let oldColumns := oldColumnsFor oldSchema st tableName in
    let columnMap := columnMapOf oldColumns in
    match find (offendingColumn columnMap) newColumns with
    | Some newCol => Throw (notNullWithoutDefault tableName newCol)
    | None =>
        Ok (c ++ flat_map (addColumnEmits tableName columnMap) newColumns
              ++ flat_map (modifyExistingEmits tableName columnMap) newColumns
              ++ flat_map (dropColumnEmits tableName newColumns) oldColumns)%list
    end.
Proof. apply tableChanges_closed. Qed.

Lemma matched_table_adds_alters_then_drops_witness :
  tableChanges
    (mkSchema [] [("t", [Samples.col "a" "INT"; Samples.col "b" "INT"])])
    (mkMatching [] ["t"] ["t"] []) "t"
    [Samples.col "c" "INT"; Samples.col "a" "TEXT"] []
  = Ok ["ALTER TABLE t ADD COLUMN c INT;";
        "ALTER TABLE t ALTER COLUMN a TYPE TEXT;";
        "ALTER TABLE t DROP COLUMN b;"].
Proof.
  apply (matched_table_adds_alters_then_drops
           (mkSchema [] [("t", [Samples.col "a" "INT"; Samples.col "b" "INT"])])
           (mkMatching [] ["t"] ["t"] []) "t"
           [Samples.col "c" "INT"; Samples.col "a" "TEXT"] []).
  reflexivity.
Defined.

Section Renames.

Variable newTables : JsMap.t (list Column).

Lemma map_set_values_NoDup (k v : string) (mp : JsMap.t string) :
  NoDup (map snd mp) -> ~ In v (map snd mp) ->
  NoDup (map snd (JsMap.set k v mp)).
Proof.
  induction mp as [|[k' v'] tl IH]; simpl; intros Hnd Hv.
  - constructor; [tauto | constructor].
  - inversion Hnd as [|? ? Hv' Htl]; subst.
    destruct (String.eqb k' k); simpl.
    + constructor; [tauto | assumption].
    + constructor; [|apply IH; tauto].
      intros Hin. apply in_map_iff in Hin.
      destruct Hin as [[k0 v0] [Hsnd Hin]]. simpl in Hsnd. subst v0.
      apply map_set_In in Hin. destruct Hin as [Heq | Hin].
      * injection Heq as _ ->. tauto.
      * apply Hv'. apply in_map_iff. now exists (k0, v').
Qed.

Lemma map_set_fresh {V : Type} (k : string) (v : V) (mp : JsMap.t V) :
  JsMap.has k mp = false -> JsMap.set k v mp = (mp ++ [(k, v)])%list.
Proof.
  unfold JsMap.has. induction mp as [|[k' v'] tl IH]; simpl;
    [reflexivity|].
  destruct (String.eqb k' k); [discriminate|].
  intros H. now rewrite IH.
Qed.

Lemma In_has {V : Type} (k : string) (v : V) (mp : JsMap.t V) :
  In (k, v) mp -> JsMap.has k mp = true.
Proof.
  intros H. apply map_has_In. apply in_map_iff. now exists (k, v).
Qed.

(** The table the search returns is an unmarked table of its list. *)
Lemma findBestMatch_Some threshold matched oldColumns
  (l : JsMap.t (list Column)) best :
  fst (findBestMatch threshold matched oldColumns l) = Some best ->
  JsMap.has best l = true
  /\ JsSet.has best matched = false
  /\ exists cols, In (best, cols) l
       /\ (threshold <= columnSimilarity oldColumns cols)%Q
       /\ (0 < columnSimilarity oldColumns cols)%Q.
Proof.
  pose proof (findBestMatch_sound threshold matched oldColumns l) as H.
  destruct (findBestMatch threshold matched oldColumns l) as [o s].
  simpl. intros ->.
  destruct H as (pre & cols & post & -> & Hm & -> & Ht & Hp & _).
  assert (Hin : In (best, cols) (pre ++ (best, cols) :: post))
    by (apply in_or_app; right; now left).
  split; [now apply In_has with cols|].
  split; [assumption|]. now exists cols.
Qed.

Lemma detectRename_renamesInvariant st entry :
  renamesInvariant newTables st ->
  renamesInvariant newTables (detectRename newTables st entry).
Proof.
  intros [Hnd Hall]. destruct entry as [oldTableName oldColumns].
  unfold detectRename.
  destruct (JsMap.has oldTableName newTables) eqn:Hhas.
  - split; [exact Hnd|]. simpl. intros o n Hin.
    destruct (Hall o n Hin) as (H1 & H2 & H3).
    rewrite set_has_add, H1. now rewrite orb_true_r.
  - destruct (fst _) as [bestMatch|] eqn:Eb; [|now split].
    destruct (truthy bestMatch); [|now split].
    apply findBestMatch_Some in Eb. destruct Eb as (Hb & Hm & _).
    split; simpl.
    + apply map_set_values_NoDup; [assumption|].
      intros Hin. apply in_map_iff in Hin.
      destruct Hin as [[o n] [Hsnd Hin]]. simpl in Hsnd. subst n.
      destruct (Hall o bestMatch Hin) as (H1 & _). congruence.
    + intros o n Hin. apply map_set_In in Hin.
      destruct Hin as [Heq | Hin].
      * injection Heq as -> ->.
        rewrite set_has_add, String.eqb_refl. auto.
      * destruct (Hall o n Hin) as (H1 & H2 & H3).
        rewrite set_has_add, H1. now rewrite orb_true_r.
Qed.

Lemma detectRenames_renamesInvariant (todo : list (string * list Column)) st :
  renamesInvariant newTables st ->
  renamesInvariant newTables (fold_left (detectRename newTables) todo st)
  /\ forall o n,
       In (o, n) (renameMap (fold_left (detectRename newTables) todo st)) ->
       In (o, n) (renameMap st)
       \/ exists oldColumns newColumns,
            In (o, oldColumns) todo
            /\ In (n, newColumns) newTables
            /\ (renameThreshold <= columnSimilarity oldColumns newColumns)%Q.
Proof.
  revert st.
  induction todo as [|[oldTableName oldColumns] more IH]; intros st Hinv;
    cbn [fold_left].
  - split; [assumption | tauto].
  - destruct (IH _ (detectRename_renamesInvariant st
                      (oldTableName, oldColumns) Hinv)) as [H1 H2].
    split; [assumption|]. intros o n Hin.
    destruct (H2 o n Hin) as [Hst | (oc & nc & Ho & Hn & Hs)].
    + revert Hst. unfold detectRename.
      destruct (JsMap.has oldTableName newTables); [now left|].
      destruct (fst _) as [bestMatch|] eqn:Eb; [|now left].
      destruct (truthy bestMatch); [|now left].
      simpl. intros Hst. apply map_set_In in Hst.
      destruct Hst as [Heq | Hst]; [|now left].
      injection Heq as -> ->. right.
      apply findBestMatch_Some in Eb.
      destruct Eb as (_ & _ & cols & Hcols & Hs & _).
      exists oldColumns, cols. split; [now left | now split].
    + right. exists oc, nc. split; [now right | now split].
Qed.

(** With one entry per old table, every rename pushes its command and
    appends its entry. *)
Lemma detectRenames_commands (todo : list (string * list Column)) seen st :
  NoDup (seen ++ JsMap.keys todo) ->
  marksOf newTables seen st ->
  cmds st = renameCommands (renameMap st) ->
  cmds (fold_left (detectRename newTables) todo st)
  = renameCommands (renameMap (fold_left (detectRename newTables) todo st)).
Proof.
  revert seen st.
  induction todo as [|[oldTableName oldColumns] more IH];
    intros seen st Hnd Hmarks Hc; cbn [fold_left]; [assumption|].
  simpl in Hnd.
  assert (Hfresh : ~ In oldTableName seen).
  { intros Hin. apply NoDup_remove_2 in Hnd. apply Hnd.
    apply in_or_app. now left. }
  apply (IH (seen ++ [oldTableName])%list).
  - now rewrite <- app_assoc.
  - now apply detectRename_marks.
  - unfold detectRename.
    destruct (JsMap.has oldTableName newTables); [exact Hc|].
    destruct (fst _) as [bestMatch|]; [|exact Hc].
    destruct (truthy bestMatch); [|exact Hc].
    simpl. rewrite map_set_fresh.
    + unfold renameCommands, push. rewrite map_app. simpl.
      now rewrite Hc.
    + destruct (JsMap.has oldTableName (renameMap st)) eqn:E;
        [|reflexivity].
      destruct Hmarks as [_ Hseen]. now apply Hseen in E.
Qed.

End Renames.

(** The marks of an old table after rename detection, told from the new
    schema and the rename map. *)
Lemma dropTableEmits_dropUnlessKept (oldSchema newSchema : Schema) :
  NoDup (JsMap.keys (tables oldSchema)) ->
  flat_map (dropTableEmits (detectRenames oldSchema newSchema []))
           (JsMap.keys (tables oldSchema))
  = flat_map (dropUnlessKept newSchema
                (renameMap (detectRenames oldSchema newSchema [])))
             (JsMap.keys (tables oldSchema)).
Proof.
  intros Hnd.
  assert (H : forall l, incl l (JsMap.keys (tables oldSchema)) ->
            flat_map (dropTableEmits (detectRenames oldSchema newSchema [])) l
            = flat_map (dropUnlessKept newSchema
                          (renameMap (detectRenames oldSchema newSchema [])))
                       l).
  { induction l as [|n l IH]; intros Hincl; simpl; [reflexivity|].
    rewrite IH by (intros x Hx; apply Hincl; now right). f_equal.
    pose proof (oldTableMatched_iff oldSchema newSchema n Hnd) as Hiff.
    cbv zeta in Hiff. unfold dropTableEmits, dropUnlessKept.
    assert (Hin : In n (JsMap.keys (tables oldSchema)))
      by (apply Hincl; now left).
    destruct (JsSet.has n _) eqn:E.
    - destruct (proj1 Hiff eq_refl) as [_ [-> | ->]];
        [reflexivity | now rewrite orb_true_r].
    - destruct (JsMap.has n (tables newSchema) || JsMap.has n _) eqn:Eo;
        [|reflexivity].
      apply orb_true_iff in Eo.
      assert (Ht : false = true) by (apply Hiff; tauto). discriminate. }
  apply H, incl_refl.
Qed.

(** X10. Where the names looked up are found where the objects own them
    ([ownLookups]), the result of the diff ends with the last loop's
    commands: for each old table, in the order of the old schema, a
    caution comment and a DROP TABLE when its name is no table of the new
    schema and it was not renamed, and nothing otherwise; a replacement
    recorded for it changes nothing. *)
Theorem diff_ends_with_the_drops (oldSchema newSchema : Schema)
  (result : list string) :
  ownLookups oldSchema newSchema ->
  NoDup (JsMap.keys (tables oldSchema)) ->
  generateSchemaAltersInternal oldSchema newSchema = Ok result ->
  exists pre,
    result
    = (pre ++ flat_map (dropUnlessKept newSchema
                          (renameMap (detectRenames oldSchema newSchema [])))
                       (JsMap.keys (tables oldSchema)))%list.
Proof.
  intros _ Hnd Hres.
  destruct (drops_close_the_result _ _ _ Hres) as [pre ->].
  exists pre. now rewrite dropTableEmits_dropUnlessKept.
Qed.

Lemma diff_ends_with_the_drops_witness :
  exists pre,
    [ "ALTER TABLE person RENAME TO user;";
      "ALTER TABLE user ADD COLUMN age INT;";
      "ALTER TABLE user ALTER COLUMN name TYPE VARCHAR(150);";
      "ALTER TABLE user ALTER COLUMN current_mood SET DEFAULT 'happy';";
      "-- CAUTION: This will permanently delete table 'test' and all its data!";
      "DROP TABLE test;" ]
    = (pre ++ flat_map (dropUnlessKept Samples.personNew
                          (renameMap (detectRenames Samples.personOld
                                        Samples.personNew [])))
                       (JsMap.keys (tables Samples.personOld)))%list.
Proof.
  apply (diff_ends_with_the_drops Samples.personOld Samples.personNew).
  - reflexivity.
  - repeat constructor; simpl; intuition discriminate.
  - reflexivity.
Defined.

(** X13. After rename detection no new table is the target of two
    renames; every renamed table is a table of the old schema whose name
    is no table of the new one, and its target is a table of the new
    schema whose columns score at least the threshold 0.5 against its
    own. *)
Theorem renames_are_one_to_one (oldSchema newSchema : Schema) :
  let st := detectRenames oldSchema newSchema [] in
  NoDup (map snd (renameMap st))
  /\ forall o n, In (o, n) (renameMap st) ->
       JsMap.has o (tables newSchema) = false
       /\ exists oldColumns newColumns,
            In (o, oldColumns) (tables oldSchema)
            /\ In (n, newColumns) (tables newSchema)
            /\ (renameThreshold <= columnSimilarity oldColumns newColumns)%Q.
Proof.
  cbv zeta. unfold detectRenames.
  destruct (detectRenames_renamesInvariant (tables newSchema)
              (tables oldSchema) (mkMatching [] [] [] []))
    as [[Hnd Hall] Hfrom].
  - split; simpl; [constructor | intros o n []].
  - split; [assumption|]. intros o n Hin.
    destruct (Hall o n Hin) as (_ & _ & H3).
    split; [assumption|].
    destruct (Hfrom o n Hin) as [[] | H]. exact H.
Qed.

(** X14. Where the old schema has one entry per table name, the commands
    of rename detection are one RENAME per entry of the rename map, in the
    order of the map. *)
Theorem one_rename_command_per_renamed_table (oldSchema newSchema : Schema) :
  NoDup (JsMap.keys (tables oldSchema)) ->
  cmds (detectRenames oldSchema newSchema [])
  = renameCommands (renameMap (detectRenames oldSchema newSchema [])).
Proof.
  intros Hnd. unfold detectRenames.
  apply (detectRenames_commands (tables newSchema) (tables oldSchema) []).
  - exact Hnd.
  - split; simpl.
    + intros m. split; [tauto | intros [[] _]].
    + discriminate.
  - reflexivity.
Qed.

Lemma one_rename_command_per_renamed_table_witness :
  ["ALTER TABLE person RENAME TO user;"] = renameCommands [("person", "user")].
Proof.
  apply (one_rename_command_per_renamed_table
           Samples.personOld Samples.personNew).
  repeat constructor; simpl; intuition discriminate.
Defined.

(** X11. Whatever table a search loop returns is an unmarked table of the
    new schema that scores more than 0 and at least the threshold, more
    than every unmarked table before it and at least as much as every one
    after it; when the loop returns none, every unmarked table scores 0 or
    below the threshold. *)
Theorem best_match_is_sound (threshold : Q) (matched : JsSet.t)
  (oldColumns : list Column) (newTables : JsMap.t (list Column)) :
  match findBestMatch threshold matched oldColumns newTables with
  | (Some best, s) =>
      earliestBest threshold matched oldColumns newTables best s
  | (None, _) =>
      forall n c, In (n, c) newTables -> JsSet.has n matched = false ->
        (columnSimilarity oldColumns c <= 0)%Q
        \/ (columnSimilarity oldColumns c < threshold)%Q
  end.
Proof. apply findBestMatch_sound. Qed.

Section RenameToKeptName.

Variables (a b : string) (colsA colsB colsB' : list Column).
Variables (oldTypes newTypes : JsMap.t TypeDef).
Hypothesis Hab : a <> b.
Hypothesis Hb : truthy b = true.
Hypothesis Hsim : (renameThreshold <= columnSimilarity colsA colsB')%Q.

Lemma detectRenames_kept_name c :
  detectRenames (mkSchema oldTypes [(a, colsA); (b, colsB)])
                (mkSchema newTypes [(b, colsB')]) c
  = mkMatching (push c (renameTableCommand a b)) [a; b] [b] [(a, b)].
Proof.
  unfold detectRenames. cbn [tables fold_left].
  assert (Hba : String.eqb b a = false)
    by (apply String.eqb_neq; congruence).
  assert (H1 : detectRename [(b, colsB')] (mkMatching c [] [] [])
                 (a, colsA)
               = mkMatching (push c (renameTableCommand a b)) [a] [b]
                            [(a, b)]).
  { unfold detectRename, JsMap.has. cbn [JsMap.get]. rewrite Hba.
    unfold findBestMatch. cbn [fold_left bestMatchStep newTableMatched].
    cbn [JsSet.has Js.mem existsb snd].
    assert (Hlt : Qlt_bool 0 (columnSimilarity colsA colsB') = true).
    { apply Qlt_bool_iff. unfold renameThreshold in Hsim.
      eapply Qlt_le_trans; [|exact Hsim]. reflexivity. }
    assert (Hle : Qle_bool renameThreshold (columnSimilarity colsA colsB')
                  = true) by now apply Qle_bool_iff.
    rewrite Hlt, Hle. cbn [andb fst]. rewrite Hb. reflexivity. }
  rewrite H1. unfold detectRename, JsMap.has. cbn [JsMap.get].
  rewrite String.eqb_refl. cbn [cmds oldTableMatched newTableMatched renameMap].
  unfold JsSet.add, JsSet.has. cbn [Js.mem existsb].
  rewrite Hba, String.eqb_refl. reflexivity.
Qed.

End RenameToKeptName.

(** X12. Rename detection looks at the old tables in order and marks a
    new table only when it reaches the old table of that name: an old
    table [a] that is gone is renamed to a similar new table [b] although
    [b] is a table of the old schema that comes after it and stays.  Both
    old tables end up marked, and the diff holds [ALTER TABLE a RENAME TO
    b;].  The names looked up are taken to be found where the objects own
    them ([ownLookups]): [a] in particular is no member of
    [Object.prototype]. *)
Theorem rename_can_take_a_name_still_in_use (a b : string)
  (colsA colsB colsB' : list Column) (oldTypes newTypes : JsMap.t TypeDef)
  (result : list string) :
  ownLookups (mkSchema oldTypes [(a, colsA); (b, colsB)])
             (mkSchema newTypes [(b, colsB')]) ->
  a <> b ->
  truthy b = true ->
  (renameThreshold <= columnSimilarity colsA colsB')%Q ->
  generateSchemaAltersInternal (mkSchema oldTypes [(a, colsA); (b, colsB)])
                               (mkSchema newTypes [(b, colsB')])
  = Ok result ->
  detectRenames (mkSchema oldTypes [(a, colsA); (b, colsB)])
                (mkSchema newTypes [(b, colsB')]) []
  = mkMatching [renameTableCommand a b] [a; b] [b] [(a, b)]
  /\ In (renameTableCommand a b) result.
Proof.
  intros _ Hab Hb Hsim Hres.
  pose proof (detectRenames_kept_name a b colsA colsB colsB' oldTypes newTypes
                Hab Hb Hsim []) as Hst.
  split; [exact Hst|].
  rewrite generateSchemaAltersInternal_phases in Hres. cbv zeta in Hres.
  rewrite Hst in Hres.
  destruct (typeChanges _ _ _) as [typeCmds|]; [|discriminate].
  cbn [bind] in Hres.
  destruct (tablesChanges _ _ _ _) as [columnCmds|]; [|discriminate].
  cbn [bind cmds] in Hres.
  injection Hres as <-. apply in_or_app. right. now left.
Qed.

Lemma rename_can_take_a_name_still_in_use_witness :
  detectRenames (mkSchema [] [("a", Samples.abc); ("b", Samples.abc)])
                (mkSchema [] [("b", Samples.abc)]) []
  = mkMatching [renameTableCommand "a" "b"] ["a"; "b"] ["b"] [("a", "b")]
  /\ In (renameTableCommand "a" "b") ["ALTER TABLE a RENAME TO b;"].
Proof.
  apply (rename_can_take_a_name_still_in_use "a" "b" Samples.abc Samples.abc
           Samples.abc [] [] ["ALTER TABLE a RENAME TO b;"]).
  - reflexivity.
  - discriminate.
  - reflexivity.
  - discriminate.
  - reflexivity.
Defined.

Section EmptySides.




Lemma detectRenames_no_new_tables oldSchema newTypes c :
  detectRenames oldSchema (mkSchema newTypes []) c = mkMatching c [] [] [].
Proof.
  unfold detectRenames. cbn [tables].
  induction (tables oldSchema) as [|[oldTableName oldColumns] more IH];
    [reflexivity | exact IH].
Qed.


Lemma dropTableEmits_unmarked cs nm rm (l : list string) :
  flat_map (dropTableEmits (mkMatching cs [] nm rm)) l
  = flat_map (fun n => [cautionComment n; dropTableCommand n]) l.
Proof. reflexivity. Qed.

Lemma generateSchemaAltersInternal_to_empty (oldSchema : Schema) :
  generateSchemaAltersInternal oldSchema (mkSchema [] [])
  = Ok (flat_map (fun n => [cautionComment n; dropTableCommand n])
                 (JsMap.keys (tables oldSchema))).
Proof.
  rewrite generateSchemaAltersInternal_phases. cbv zeta.
  rewrite detectRenames_no_new_tables. rewrite dropTableEmits_unmarked.
  reflexivity.
Qed.

End EmptySides.



(** X21. Where the old text declares plain names only ([plainKeys]: no
    member of [Object.prototype], no name made of digits), a new text that
    is empty or white space passes the boundary whenever the old text
    does, and the result drops every table of the old schema, each with
    its caution comment, in the order of the old schema; the types of the
    old schema are left alone. *)
Theorem blank_new_text_drops_every_table (oldStatement newStatement : string)
  (oldSchema : Schema) :
  parseSchema oldStatement = Ok oldSchema ->
  plainKeys oldSchema ->
  isEmptySchema oldSchema && (0 <? String.length (trim oldStatement)) = false ->
  forallb is_space (list_ascii_of_string newStatement) = true ->
  generateSchemaAlters oldStatement newStatement
  = Ok (flat_map (fun n => [cautionComment n; dropTableCommand n])
                 (JsMap.keys (tables oldSchema))).
Proof.
  intros Hold _ Hcheck Hblank.
  unfold generateSchemaAlters, generateSchemaAlters_try.
  rewrite Hold, (parseSchema_blank newStatement Hblank). cbn [bind].
  rewrite Hcheck.
  assert (Htrim : trim newStatement = "").
  { rewrite <- (string_of_list_ascii_of_string newStatement).
    apply trim_of_space. apply Forall_forall. intros c Hc.
    now apply (proj1 (forallb_forall _ _) Hblank). }
  rewrite Htrim. cbn [String.length Nat.ltb Nat.leb andb].
  rewrite andb_false_r.
  now rewrite generateSchemaAltersInternal_to_empty.
Qed.

Lemma blank_new_text_drops_every_table_witness :
  generateSchemaAlters
    "CREATE TYPE mood AS ENUM ('sad'); CREATE TABLE t (id INT); CREATE TABLE u (id INT);"
    "  "
  = Ok ["-- CAUTION: This will permanently delete table 't' and all its data!";
        "DROP TABLE t;";
        "-- CAUTION: This will permanently delete table 'u' and all its data!";
        "DROP TABLE u;"].
Proof.
  apply (blank_new_text_drops_every_table
           "CREATE TYPE mood AS ENUM ('sad'); CREATE TABLE t (id INT); CREATE TABLE u (id INT);"
           "  "
           (mkSchema [("mood", Enum ["sad"])]
                     [("t", [Samples.col "id" "INT"]);
                      ("u", [Samples.col "id" "INT"])])).
  - reflexivity.
  - reflexivity.
  - reflexivity.
  - reflexivity.
Defined.

(** X19. An old text made of white space and of line comments that each
    end with a line feed and hold no carriage return, and that is not
    blank, is reported as an invalid old schema whenever the new text
    parses, whatever the new schema is. *)
Theorem comment_only_old_text_is_reported (oldStatement newStatement : string)
  (newSchema : Schema) :
  commentOnly (list_ascii_of_string oldStatement) ->
  0 < String.length (trim oldStatement) ->
  parseSchema newStatement = Ok newSchema ->
  generateSchemaAlters oldStatement newStatement = Ok [invalidOldSchema].
Proof.
  intros Hold Hlen Hnew.
  unfold generateSchemaAlters, generateSchemaAlters_try.
  rewrite (parseSchema_commentOnly oldStatement Hold), Hnew. cbn [bind].
  apply Nat.ltb_lt in Hlen. rewrite Hlen. reflexivity.
Qed.

Lemma comment_only_old_text_is_reported_witness :
  generateSchemaAlters ("-- nothing yet" ++ nl) "CREATE TABLE t (id INT);"
  = Ok [invalidOldSchema].
Proof.
  apply (comment_only_old_text_is_reported ("-- nothing yet" ++ nl)
           "CREATE TABLE t (id INT);"
           (mkSchema [] [("t", [Samples.col "id" "INT"])])).
  - apply (commentOnly_comment
             (list_ascii_of_string " nothing yet") []);
      [reflexivity | constructor].
  - vm_compute. lia.
  - reflexivity.
Defined.

Section Dissimilar.

Lemma map_In_unique {V : Type} (k : string) (v v' : V) (mp : JsMap.t V) :
  NoDup (JsMap.keys mp) -> In (k, v) mp -> In (k, v') mp -> v = v'.
Proof.
  intros Hnd H1 H2.
  apply (map_get_NoDup _ _ _ Hnd) in H1.
  apply (map_get_NoDup _ _ _ Hnd) in H2. congruence.
Qed.

Lemma containsBlock_suffix (b pre c : list string) :
  containsBlock b c -> containsBlock b (pre ++ c).
Proof.
  intros (p & q & ->). exists (pre ++ p)%list, q. now rewrite <- app_assoc.
Qed.

End Dissimilar.

(** X15. Where the names looked up are found where the objects own them
    ([ownLookups]), an old table whose name is gone and whose columns
    score below 0.5 against every table of the new schema is not renamed:
    the diff holds its caution comment followed by its DROP TABLE. *)
Theorem dissimilar_table_is_dropped (oldSchema newSchema : Schema)
  (oldTableName : string) (oldColumns : list Column) (result : list string) :
  ownLookups oldSchema newSchema ->
  NoDup (JsMap.keys (tables oldSchema)) ->
  In (oldTableName, oldColumns) (tables oldSchema) ->
  JsMap.has oldTableName (tables newSchema) = false ->
  (forall newTableName newColumns,
     In (newTableName, newColumns) (tables newSchema) ->
     (columnSimilarity oldColumns newColumns < renameThreshold)%Q) ->
  generateSchemaAltersInternal oldSchema newSchema = Ok result ->
  JsMap.has oldTableName (renameMap (detectRenames oldSchema newSchema []))
  = false
  /\ containsBlock [cautionComment oldTableName; dropTableCommand oldTableName]
                   result.
Proof.
  intros _ Hnd Hin Hgone Hlow Hres.
  assert (Hnot : JsMap.has oldTableName
                   (renameMap (detectRenames oldSchema newSchema [])) = false).
  { destruct (JsMap.has oldTableName
                (renameMap (detectRenames oldSchema newSchema []))) eqn:E;
      [|reflexivity].
    unfold JsMap.has in E.
    destruct (JsMap.get oldTableName _) as [n|] eqn:Eg; [|discriminate].
    apply map_get_In in Eg. unfold detectRenames in Eg.
    destruct (detectRenames_renamesInvariant (tables newSchema)
                (tables oldSchema) (mkMatching [] [] [] []))
      as [_ Hfrom].
    - split; simpl; [constructor | intros o m []].
    - destruct (Hfrom _ _ Eg) as [[] | (oc & nc & Ho & Hn & Hs)].
      rewrite (map_In_unique _ _ _ _ Hnd Ho Hin) in Hs.
      specialize (Hlow n nc Hn).
      exfalso. apply (Qlt_not_le _ _ Hlow Hs). }
  split; [assumption|].
  destruct (drops_close_the_result _ _ _ Hres) as [pre ->].
  rewrite dropTableEmits_dropUnlessKept by assumption.
  apply containsBlock_suffix.
  replace [cautionComment oldTableName; dropTableCommand oldTableName]
    with (dropUnlessKept newSchema
            (renameMap (detectRenames oldSchema newSchema [])) oldTableName)
    by (unfold dropUnlessKept; now rewrite Hgone, Hnot).
  apply containsBlock_flat_map.
  apply in_map_iff. now exists (oldTableName, oldColumns).
Qed.

Lemma dissimilar_table_is_dropped_witness :
  JsMap.has "test"
    (renameMap (detectRenames Samples.personOld Samples.personNew [])) = false
  /\ containsBlock [cautionComment "test"; dropTableCommand "test"]
       [ "ALTER TABLE person RENAME TO user;";
         "ALTER TABLE user ADD COLUMN age INT;";
         "ALTER TABLE user ALTER COLUMN name TYPE VARCHAR(150);";
         "ALTER TABLE user ALTER COLUMN current_mood SET DEFAULT 'happy';";
         "-- CAUTION: This will permanently delete table 'test' and all its data!";
         "DROP TABLE test;" ].
Proof.
  apply (dissimilar_table_is_dropped Samples.personOld Samples.personNew
           "test" [Samples.col "id" "SERIAL PRIMARY KEY"]).
  - reflexivity.
  - repeat constructor; simpl; intuition discriminate.
  - right. now left.
  - reflexivity.
  - intros n c [[= <- <-] | []]. reflexivity.
  - reflexivity.
Defined.

Section ColumnEquality.

Lemma Column_eq_dec (c1 c2 : Column) : {c1 = c2} + {c1 <> c2}.
Proof.
  decide equality;
    try apply string_dec; try apply Bool.bool_dec.
  decide equality. apply string_dec.
Qed.

End ColumnEquality.

(** X22. Where a schema, with one entry per type name and per table name,
    has an empty diff against itself, the columns of each of its tables
    that share a name are one and the same column. *)
Theorem empty_self_diff_needs_consistent_columns (S : Schema)
  (tableName : string) (cols : list Column) (c1 c2 : Column) :
  wf_schema S ->
  generateSchemaAltersInternal S S = Ok [] ->
  In (tableName, cols) (tables S) ->
  In c1 cols -> In c2 cols -> name c1 = name c2 ->
  c1 = c2.
Proof.
  intros Hwf Hdiff Hin H1 H2 Hname.
  destruct (Column_eq_dec c1 c2) as [Heq | Hne]; [assumption|].
  exfalso.
  exact (self_diff_nonempty S tableName cols c1 c2 Hwf Hin H1 H2 Hname Hne
           Hdiff).
Qed.

Lemma empty_self_diff_needs_consistent_columns_witness :
  Samples.col "a" "INT" = Samples.col "a" "INT".
Proof.
  apply (empty_self_diff_needs_consistent_columns
           (mkSchema [] [("t", [Samples.col "a" "INT"; Samples.col "b" "INT";
                                Samples.col "a" "INT"])])
           "t" [Samples.col "a" "INT"; Samples.col "b" "INT";
                Samples.col "a" "INT"]).
  - split; repeat constructor; simpl; intuition discriminate.
  - reflexivity.
  - now left.
  - now left.
  - right. right. now left.
  - reflexivity.
Defined.

(** * Further properties: the line decorations *)

Section Decorations.

Import RegExp Ui.

(** A pattern anchored at the start of the text matches at no later
    position. *)
Lemma anchored_match_at (r : regex) (q : nat) (suffix : list ascii) :
  match_at (Seq Bos r) (S q) suffix = None.
Proof. reflexivity. Qed.

Lemma anchored_search_from (r : regex) (suffix : list ascii) :
  forall q, search_from (Seq Bos r) (S q) suffix = None.
Proof.
  induction suffix as [|c tl IH]; intros q; cbn [search_from];
    rewrite anchored_match_at; [reflexivity | apply IH].
Qed.

(** An anchored pattern is tested at the start of the text only. *)
Lemma anchored_test (r : regex) (s : string) :
  test (Seq Bos r) s
  = match match_at (Seq Bos r) 0 (list_ascii_of_string s) with
    | Some _ => true
    | None => false
    end.
Proof.
  unfold test. destruct (list_ascii_of_string s) as [|c tl];
    cbn [search_from]; destruct (match_at _ 0 _); try reflexivity.
  now rewrite anchored_search_from.
Qed.

Lemma lineClass_anchored (text : string) :
  lineClass text
  = let input := list_ascii_of_string text in
    if match match_at errorPattern 0 input with
       | Some _ => true | None => false end
    then Some ErrorLine
    else if match match_at cautionPattern 0 input with
            | Some _ => true | None => false end
            || match match_at dropTablePattern 0 input with
               | Some _ => true | None => false end
         then Some CautionLine
         else None.
Proof.
  unfold lineClass, errorPattern, cautionPattern, dropTablePattern.
  now rewrite !anchored_test.
Qed.

End Decorations.

(** X23. The editor shows the lines of the result as the differencer means
    them: a line that starts with [-- ERROR: ], as every error of the
    boundary and of the type phase does, gets the class of errors; the
    caution comment of a dropped table and its DROP TABLE get the class
    of cautions. *)
Theorem errors_and_drops_are_decorated (text : string) :
  Ui.lineClass ("-- ERROR: " ++ text) = Some Ui.ErrorLine
  /\ Ui.lineClass (cautionComment text) = Some Ui.CautionLine
  /\ Ui.lineClass (dropTableCommand text) = Some Ui.CautionLine.
Proof.
  rewrite !lineClass_anchored. repeat split; reflexivity.
Qed.

(** X24. The other commands of the differencer get no class: a line that
    starts with [ALTER TABLE ], [ALTER TYPE ], [CREATE TABLE ], [CREATE
    TYPE ] or [INSERT INTO ], and the comment of a data migration. *)
Theorem other_commands_are_not_decorated (text : string) :
  Ui.lineClass ("ALTER TABLE " ++ text) = None
  /\ Ui.lineClass ("ALTER TYPE " ++ text) = None
  /\ Ui.lineClass ("CREATE TABLE " ++ text) = None
  /\ Ui.lineClass ("CREATE TYPE " ++ text) = None
  /\ Ui.lineClass ("INSERT INTO " ++ text) = None
  /\ Ui.lineClass ("-- Migrate data from '" ++ text) = None.
Proof.
  rewrite !lineClass_anchored. repeat split; reflexivity.
Qed.

(** * Further properties: the boundary *)

(** X26. Parser, boundary and differencer together: a text that parses,
    declares plain names only ([plainKeys]: no member of
    [Object.prototype], no name made of digits), is blank or declares a
    type or a table at least, and declares no column name of a table twice
    with different definitions, has the empty list as its diff against
    itself. *)
Theorem text_against_itself_needs_no_command (statement : string)
  (schema : Schema) :
  parseSchema statement = Ok schema ->
  plainKeys schema ->
  isEmptySchema schema && (0 <? String.length (trim statement)) = false ->
  (forall tableName cols, In (tableName, cols) (tables schema) ->
     consistentColumns cols) ->
  generateSchemaAlters statement statement = Ok [].
Proof.
  intros Hparse _ Hcheck Hcols.
  unfold generateSchemaAlters, generateSchemaAlters_try.
  rewrite Hparse. cbn [bind]. rewrite Hcheck.
  destruct (parseSchema_wf statement schema Hparse) as [Hwf _].
  now rewrite (generateSchemaAltersInternal_self schema Hwf Hcols).
Qed.

Lemma text_against_itself_needs_no_command_witness :
  generateSchemaAlters
    "CREATE TYPE mood AS ENUM ('sad', 'ok'); CREATE TABLE t (id INT, m mood DEFAULT 'ok');"
    "CREATE TYPE mood AS ENUM ('sad', 'ok'); CREATE TABLE t (id INT, m mood DEFAULT 'ok');"
  = Ok [].
Proof.
  apply (text_against_itself_needs_no_command
           "CREATE TYPE mood AS ENUM ('sad', 'ok'); CREATE TABLE t (id INT, m mood DEFAULT 'ok');"
           (mkSchema [("mood", Enum ["sad"; "ok"])]
                     [("t", [Samples.col "id" "INT";
                             mkColumn "m" "mood" false (Some "'ok'")])])).
  - reflexivity.
  - reflexivity.
  - reflexivity.
  - intros tableName cols [[= <- <-] | []] c1 c2 H1 H2 Hname.
    simpl in H1, H2.
    destruct H1 as [<- | [<- | []]]; destruct H2 as [<- | [<- | []]];
      try reflexivity; discriminate.
Defined.
